(** * Maximum-entropy dice: the constraint projector and the projected
      gradient loop of [notebooks/max-entropy.ipynb]

    The notebook computes with torch tensors of IEEE floats.  This
    development embeds it over the real numbers: a tensor entry is an [R],
    every arithmetic operation is the exact one, and the approximate
    equalities of the specification are read as equalities.  Rounding is
    not modelled.

    The numerical primitives that the notebook takes from torch are not
    part of the repository.  [torch.linalg.svd] and [torch.linalg.lstsq]
    are parameters of the embedding, constrained by the contracts
    [svd_spec] and [lstsq_spec]; the autograd rules of [log], [*], [sum]
    and unary minus are written out as back-propagators.

    The file has six parts: the embedding of the notebook; the properties
    of its operations; decompositions and least-squares solutions for dice
    with one, two and six faces; the claims; further lemmas on the
    projector and on the loop; further properties of the program. *)

From Stdlib Require Import Reals Lra Lia List Arith Bool RNsatz.
Import ListNotations.

Open Scope R_scope.

(** * Part I: the embedding *)

(** ** Finite sums *)

Fixpoint Rsum (n : nat) (f : nat -> R) : R :=
  match n with
  | O => 0
  | S k => Rsum k f + f k
  end.

(** ** Outcomes

    A torch call either returns or raises; the only exception that the
    notebook's own calls can raise is the [RuntimeError] of a shape
    mismatch.  [NotReal] is not an exception: it marks an execution in which
    [torch.log] met a non-positive entry and produced [-inf] or [nan], after
    which the tensors no longer hold real numbers and the embedding stops
    following them. *)

Inductive result (A : Type) : Type :=
| Ok (a : A)
| RuntimeError
| NotReal.

Arguments Ok {A} a.
Arguments RuntimeError {A}.
Arguments NotReal {A}.

Definition bind {A B} (r : result A) (k : A -> result B) : result B :=
  match r with
  | Ok a => k a
  | RuntimeError => RuntimeError
  | NotReal => NotReal
  end.

Notation "x <- e ;; k" := (bind e (fun x => k))
  (at level 61, e at next level, right associativity).

Definition raises {A} (r : result A) : Prop := r = RuntimeError.

Notation "' pat <- e ;; k" := (bind e (fun x => match x with pat => k end))
  (at level 61, pat pattern, e at next level, right associativity).

(** ** Tensors

    A two-dimensional tensor is its rows together with the number of
    columns, which the rows alone do not determine when there are none.  A
    one-dimensional tensor is a [list R]. *)

Record Tensor : Type := mkTensor { rows : list (list R); ncols : nat }.

Definition nrows (T : Tensor) : nat := length (rows T).

Definition wf (T : Tensor) : Prop :=
  Forall (fun r => length r = ncols T) (rows T).

Definition has_shape (T : Tensor) (r c : nat) : Prop :=
  wf T /\ nrows T = r /\ ncols T = c.

Definition entry (T : Tensor) (i j : nat) : R :=
  nth j (nth i (rows T) []) 0.

Definition tabulate (r c : nat) (f : nat -> nat -> R) : Tensor :=
  mkTensor (map (fun i => map (f i) (seq 0 c)) (seq 0 r)) c.

(** ** The torch operations that the notebook calls *)

(** [torch.ones(n)]. *)
Definition ones (n : nat) : list R := repeat 1 n.

(** [torch.tensor(range(lo, hi))]. *)
Definition arange (lo hi : nat) : list R := map INR (seq lo (hi - lo)).

(** [torch.stack((a, b))]: the two tensors must have the same size. *)
Definition stack (a b : list R) : result Tensor :=
  if (length a =? length b)%nat then Ok (mkTensor [a; b] (length a))
  else RuntimeError.

(** [torch.tensor([[x], [y]])]. *)
Definition column2 (x y : R) : Tensor := mkTensor [[x]; [y]] 1.

(** [torch.transpose(T, 0, 1)]. *)
Definition transpose (T : Tensor) : Tensor :=
  tabulate (ncols T) (nrows T) (fun i j => entry T j i).

(** [T[:, s:]]; a start beyond the last column leaves no column. *)
Definition slice_cols (T : Tensor) (s : nat) : Tensor :=
  mkTensor (map (skipn s) (rows T)) (ncols T - s).

Definition mm_raw (A B : Tensor) : Tensor :=
  tabulate (nrows A) (ncols B)
    (fun i j => Rsum (ncols A) (fun k => entry A i k * entry B k j)).

(** [torch.mm(A, B)]: the inner dimensions must agree. *)
Definition mm (A B : Tensor) : result Tensor :=
  if (ncols A =? nrows B)%nat then Ok (mm_raw A B) else RuntimeError.

(** Broadcasting of one dimension: equal sizes, or one of them is 1. *)
Definition broadcast_dim (a b : nat) : option nat :=
  if (a =? b)%nat then Some a
  else if (a =? 1)%nat then Some b
  else if (b =? 1)%nat then Some a
  else None.

Definition bidx (d i : nat) : nat := if (d =? 1)%nat then 0%nat else i.

Definition pointwise (op : R -> R -> R) (A B : Tensor) : result Tensor :=
  match broadcast_dim (nrows A) (nrows B), broadcast_dim (ncols A) (ncols B) with
  | Some r, Some c =>
      Ok (tabulate r c (fun i j =>
            op (entry A (bidx (nrows A) i) (bidx (ncols A) j))
               (entry B (bidx (nrows B) i) (bidx (ncols B) j))))
  | _, _ => RuntimeError
  end.

(** [A + B] and [A - B] on two-dimensional tensors. *)
Definition add : Tensor -> Tensor -> result Tensor := pointwise Rplus.
Definition sub : Tensor -> Tensor -> result Tensor := pointwise Rminus.

(** [p.reshape(len(p), 1)]. *)
Definition reshape_col (p : list R) : Tensor :=
  mkTensor (map (fun x => [x]) p) 1.

(** [T.flatten()]. *)
Definition flatten (T : Tensor) : list R := concat (rows T).

(** [dst.copy_(src)]: [src] is broadcast to the shape of [dst], which never
    changes. *)
Definition copy_ (dst src : list R) : result (list R) :=
  if (length src =? length dst)%nat then Ok src
  else match src with
       | [x] => Ok (repeat x (length dst))
       | _ => RuntimeError
       end.

(** Tensors used to state the contracts and the claims. *)
Definition eye (n : nat) : Tensor :=
  tabulate n n (fun i j => if (i =? j)%nat then 1 else 0).

Definition zeros (r c : nat) : Tensor := tabulate r c (fun _ _ => 0).

(** The [S_matrix] of the notebook's check of the decomposition:
    [zeros(m, n)] with [diag(S)] written into the leading columns. *)
Definition S_matrix (m n : nat) (Sv : list R) : Tensor :=
  tabulate m n (fun i j => if (i =? j)%nat then nth i Sv 0 else 0).

(** Sum of the squares of the entries (squared Frobenius norm). *)
Definition sumsq (T : Tensor) : R :=
  Rsum (nrows T) (fun i => Rsum (ncols T) (fun j => entry T i j * entry T i j)).

(** [|A x - b|^2]. *)
Definition residual (A b x : Tensor) : R :=
  Rsum (nrows A) (fun i => Rsum (ncols x) (fun j =>
    (entry (mm_raw A x) i j - entry b i j) *
    (entry (mm_raw A x) i j - entry b i j))).

(** ** Contracts of the external primitives *)

(** [torch.linalg.svd(A)] with the default [full_matrices=True] returns
    [(U, S, VT)] with [U] and [VT] square and orthogonal, one singular value
    per row or column, whichever is fewer, and [U S_matrix VT = A]; the
    notebook checks the last equation in its fourth cell. *)
Definition orthogonal (n : nat) (Q : Tensor) : Prop :=
  has_shape Q n n /\
  mm (transpose Q) Q = Ok (eye n) /\ mm Q (transpose Q) = Ok (eye n).

Definition svd_shape (A : Tensor) (r : Tensor * list R * Tensor) : Prop :=
  let '(U, Sv, VT) := r in
  has_shape VT (ncols A) (ncols A) /\
  length Sv = Nat.min (nrows A) (ncols A).

Definition svd_spec (A : Tensor) (r : Tensor * list R * Tensor) : Prop :=
  let '(U, Sv, VT) := r in
  orthogonal (nrows A) U /\ orthogonal (ncols A) VT /\
  length Sv = Nat.min (nrows A) (ncols A) /\
  (US <- mm U (S_matrix (nrows A) (ncols A) Sv) ;; mm US VT) = Ok A.

(** [torch.linalg.lstsq(A, b).solution]: a minimiser of [|A x - b|], and
    among the minimisers the one of least norm (what the LAPACK drivers
    behind it compute). *)
Definition lstsq_shape (A b v : Tensor) : Prop :=
  has_shape v (ncols A) (ncols b).

Definition lstsq_spec (A b v : Tensor) : Prop :=
  has_shape v (ncols A) (ncols b) /\
  (forall x, has_shape x (ncols A) (ncols b) ->
             residual A b v <= residual A b x) /\
  (forall x, has_shape x (ncols A) (ncols b) ->
             residual A b x <= residual A b v -> sumsq v <= sumsq x).

(** The linear system [A x = b] has a solution. *)
Definition consistent (A b : Tensor) : Prop :=
  exists x, has_shape x (ncols A) (ncols b) /\ mm A x = Ok b.

(** The rows of [A] are linearly dependent: some non-zero combination of
    them vanishes. *)
Definition row_rank_deficient (A : Tensor) : Prop :=
  exists c, has_shape c 1 (nrows A) /\ c <> zeros 1 (nrows A) /\
            mm c A = Ok (zeros 1 (ncols A)).

Definition full_row_rank (A : Tensor) : Prop := ~ row_rank_deficient A.

(** ** Autograd

    A node of the graph that torch records during the forward pass carries
    its value and its back-propagator: the function that takes the gradient
    of the loss with respect to the node and returns its contribution to the
    gradient with respect to the parameter [p].  [Var1] is a node holding a
    one-dimensional tensor, [Var0] a node holding a scalar. *)

Record Var1 : Type := mkVar1 { data1 : list R; back1 : list R -> list R }.
Record Var0 : Type := mkVar0 { data0 : R; back0 : R -> list R }.

Fixpoint zip_with (op : R -> R -> R) (a b : list R) : list R :=
  match a, b with
  | x :: a', y :: b' => op x y :: zip_with op a' b'
  | _, _ => []
  end.

Definition Rlist_sum (l : list R) : R := fold_right Rplus 0 l.

Definition positive (x : R) : bool := if Rlt_dec 0 x then true else false.

(** The leaf of the graph: [self.p], an [nn.Parameter]. *)
Definition parameter (p : list R) : Var1 := mkVar1 p (fun g => g).

(** [torch.log(a)]; its backward rule is [grad / a]. *)
Definition torch_log (a : Var1) : result Var1 :=
  if forallb positive (data1 a)
  then Ok (mkVar1 (map ln (data1 a))
                  (fun g => back1 a (zip_with Rdiv g (data1 a))))
  else NotReal.

(** [a * b] on one-dimensional tensors; its backward rule sends
    [grad * b] to [a] and [grad * a] to [b], summed over the broadcast
    dimension when one operand has a single entry. *)
Definition torch_mul (a b : Var1) : result Var1 :=
  let x := data1 a in
  let y := data1 b in
  if (length x =? length y)%nat then
    Ok (mkVar1 (zip_with Rmult x y)
               (fun g => zip_with Rplus (back1 a (zip_with Rmult g y))
                                        (back1 b (zip_with Rmult g x))))
  else match x, y with
       | [x0], _ =>
           Ok (mkVar1 (map (Rmult x0) y)
                      (fun g => zip_with Rplus
                                  (back1 a [Rlist_sum (zip_with Rmult g y)])
                                  (back1 b (map (fun d => d * x0) g))))
       | _, [y0] =>
           Ok (mkVar1 (map (fun c => c * y0) x)
                      (fun g => zip_with Rplus
                                  (back1 a (map (fun d => d * y0) g))
                                  (back1 b [Rlist_sum (zip_with Rmult g x)])))
       | _, _ => RuntimeError
       end.

(** [torch.sum(a)]; its backward rule expands the gradient to the shape
    of [a]. *)
Definition torch_sum (a : Var1) : Var0 :=
  mkVar0 (Rlist_sum (data1 a))
         (fun g => back1 a (repeat g (length (data1 a)))).

(** Unary minus on a scalar node. *)
Definition neg (s : Var0) : Var0 :=
  mkVar0 (- data0 s) (fun g => back0 s (- g)).

(** ** The module [MaxEntropyDice] *)

(** The closure [lambda x: v + torch.mm(P, x - v)] is its two captured
    tensors. *)
Record Projector : Type := mkProjector { proj_P : Tensor; proj_v : Tensor }.

Definition call_projector (c : Projector) (x : Tensor) : result Tensor :=
  d <- sub x (proj_v c) ;;
  Pd <- mm (proj_P c) d ;;
  add (proj_v c) Pd.

Record MaxEntropyDice : Type := mkDice {
  num_faces : nat;
  mean_constraint : R;
  constraint_projector : Projector;
  p : list R;
  p_grad : option (list R)   (* [self.p.grad] *)
}.

Definition set_p (self : MaxEntropyDice) (new_p : list R) : MaxEntropyDice :=
  mkDice (num_faces self) (mean_constraint self) (constraint_projector self)
         new_p (p_grad self).

Definition set_grad (self : MaxEntropyDice) (g : option (list R))
  : MaxEntropyDice :=
  mkDice (num_faces self) (mean_constraint self) (constraint_projector self)
         (p self) g.

(** A method takes [self] and returns its value together with [self] as the
    method leaves it. *)
Definition M (A : Type) : Type := MaxEntropyDice -> result (A * MaxEntropyDice).

(** The constraint system that [_compute_constraint_projector] builds. *)
Definition constraint_matrix (n : nat) : Tensor :=
  mkTensor [ones n; arange 1 (n + 1)] n.

Definition constraint_rhs (mean : R) : Tensor := column2 1 mean.

Section MaxEntropyDice.

Variable svd : Tensor -> Tensor * list R * Tensor.
Variable lstsq : Tensor -> Tensor -> Tensor.

Definition _compute_constraint_projector
  (num_faces : nat) (mean_constraint : R) : result Projector :=
  let probability_coeffs := ones num_faces in
  let mean_coeffs := arange 1 (num_faces + 1) in
  A <- stack probability_coeffs mean_coeffs ;;
  let b := column2 1 mean_constraint in
  let '(U, Sv, VT) := svd A in
  let V := transpose VT in
  let K := slice_cols V (length Sv) in
  P <- mm K (transpose K) ;;
  let v := lstsq A b in
  Ok (mkProjector P v).

Definition __init__ (num_faces : nat) (mean_constraint : R)
  : result MaxEntropyDice :=
  projector <- _compute_constraint_projector num_faces mean_constraint ;;
  let initial_p := ones num_faces in
  Ok (mkDice num_faces mean_constraint projector initial_p None).

Definition forward : M Var0 := fun self =>
  let pv := parameter (p self) in
  l <- torch_log pv ;;
  m <- torch_mul pv l ;;
  let entropy := neg (torch_sum m) in
  Ok (entropy, self).

Definition enforce_constraint : M unit := fun self =>
  projected_p <-
    call_projector (constraint_projector self) (reshape_col (p self)) ;;
  new_p <- copy_ (p self) (flatten projected_p) ;;
  Ok (tt, set_p self new_p).

(** ** The optimizer [torch.optim.SGD(model.parameters(), lr)], with its
    defaults: no momentum, no weight decay, minimising. *)

Definition zero_grad : M unit := fun self => Ok (tt, set_grad self None).

(** [loss.backward()]: the gradient is accumulated into [p.grad]. *)
Definition backward (loss : Var0) : M unit := fun self =>
  let g := back0 loss 1 in
  let acc := match p_grad self with
             | None => g
             | Some g0 => zip_with Rplus g0 g
             end in
  Ok (tt, set_grad self (Some acc)).

(** [optimizer.step()]: [p.add_(p.grad, alpha=-lr)]; a parameter without
    gradient is skipped. *)
Definition step (lr : R) : M unit := fun self =>
  match p_grad self with
  | None => Ok (tt, self)
  | Some g =>
      Ok (tt, set_p self (zip_with (fun x d => x + - lr * d) (p self) g))
  end.

(** The body of the training loop up to [optimizer.step()]. *)
Definition gradient_step (lr : R) : M unit := fun self =>
  '(_, self) <- zero_grad self ;;
  '(entropy, self) <- forward self ;;
  let loss := neg entropy in
  '(_, self) <- backward loss self ;;
  step lr self.

(** One pass through the body of the training loop; under
    [torch.no_grad()] the projection is not recorded in the graph. *)
Definition iteration (lr : R) : M unit := fun self =>
  '(_, self) <- gradient_step lr self ;;
  enforce_constraint self.

(** [for i in range(n): ...] *)
Fixpoint training_loop (n : nat) (lr : R) : M unit := fun self =>
  match n with
  | O => Ok (tt, self)
  | S k => '(_, self) <- iteration lr self ;; training_loop k lr self
  end.

(** The notebook from the construction of the model to the end of the
    loop; it runs [train 6 4.5 1e-3 2000]. *)
Definition train (num_faces : nat) (mean_constraint lr : R) (n : nat)
  : result MaxEntropyDice :=
  model <- __init__ num_faces mean_constraint ;;
  '(_, model) <- training_loop n lr model ;;
  Ok model.

End MaxEntropyDice.

(** The update of the specification: [p_i <- p_i - lr * (log p_i + 1)]. *)
Definition closed_form_update (lr : R) (p : list R) : list R :=
  map (fun p_i => p_i - lr * (ln p_i + 1)) p.

(** The shapes that the tensors of a model have when the two primitives
    return tensors of the shapes they document. *)
Definition well_shaped (self : MaxEntropyDice) : Prop :=
  has_shape (proj_P (constraint_projector self))
            (num_faces self) (num_faces self) /\
  has_shape (proj_v (constraint_projector self)) (num_faces self) 1 /\
  length (p self) = num_faces self.

(** ** Notions used to state the properties *)

(** The tensors [K] and [P] of [_compute_constraint_projector], as
    functions of [VT] and of the number [s] of singular values. *)
Definition kernel_basis (VT : Tensor) (s : nat) : Tensor :=
  slice_cols (transpose VT) s.

Definition kernel_projector (VT : Tensor) (s : nat) : Tensor :=
  mm_raw (kernel_basis VT s) (transpose (kernel_basis VT s)).

Definition projected (n : nat) (P v x : Tensor) : Tensor :=
  tabulate n 1 (fun i _ =>
    entry v i 0 + Rsum n (fun k => entry P i k * (entry x k 0 - entry v k 0))).

(** Two models agree on everything that the methods of the loop only
    read. *)
Definition same_frame (s s' : MaxEntropyDice) : Prop :=
  num_faces s' = num_faces s /\
  mean_constraint s' = mean_constraint s /\
  constraint_projector s' = constraint_projector s /\
  length (p s') = length (p s).

(** The value of [model()] on the model that a run ends with. *)
Definition entropy_of (run : result MaxEntropyDice) : result R :=
  model <- run ;;
  '(entropy, _) <- forward model ;;
  Ok (data0 entropy).

Definition delta (i j : nat) : R := if (i =? j)%nat then 1 else 0.

(** The trajectory of the notebook's run, six faces, target mean 4.5, rate
    1e-3 and 2000 passes from the vector of ones: the value of [model()]
    does not decrease from one pass to the next, and the final parameter
    agrees with the printed one to three decimals.  Only the first pass
    is settled below, by [trajectory_first_pass]; the later passes need
    certified bounds on the logarithm along the run. *)
Definition notebook_trajectory (svd : Tensor -> Tensor * list R * Tensor)
    (lstsq : Tensor -> Tensor -> Tensor) : Prop :=
  (forall k, (k < 2000)%nat ->
     exists h h',
       entropy_of (train svd lstsq 6 (9 / 2) (1 / 1000) k) = Ok h /\
       entropy_of (train svd lstsq 6 (9 / 2) (1 / 1000) (S k)) = Ok h' /\
       h <= h') /\
  exists model,
    train svd lstsq 6 (9 / 2) (1 / 1000) 2000 = Ok model /\
    Forall2 (fun p_i printed => Rabs (p_i - printed) <= 0.0005)
      (p model) [0.054; 0.079; 0.114; 0.165; 0.240; 0.347].

(** ** Vocabulary of the further properties *)

(** [P x], entry [i], for a vector given by its entries. *)
Definition Pmul (n : nat) (P : Tensor) (x : nat -> R) (i : nat) : R :=
  Rsum n (fun k => entry P i k * x k).

(** What the properties below use of the matrix [P] of the projector. *)
Record projector_facts (n : nat) (P : Tensor) : Prop := {
  pf_shape : has_shape P n n;
  pf_mm_idem : mm P P = Ok P;
  pf_mm_kernel : mm (constraint_matrix n) P = Ok (zeros 2 n);
  pf_sym : forall i j, (i < n)%nat -> (j < n)%nat -> entry P i j = entry P j i;
  pf_idem : forall i j, (i < n)%nat -> (j < n)%nat ->
              Rsum n (fun k => entry P i k * entry P k j) = entry P i j;
  pf_kernel : forall i j, (i < 2)%nat -> (j < n)%nat ->
              Rsum n (fun k => entry (constraint_matrix n) i k * entry P k j) = 0;
  pf_fix : forall x,
           (forall i, (i < 2)%nat ->
              Rsum n (fun k => entry (constraint_matrix n) i k * x k) = 0) ->
           forall i, (i < n)%nat -> Pmul n P x i = x i
}.

(** Squared Euclidean distance of two columns. *)
Definition sqdist (n : nat) (x y : Tensor) : R :=
  Rsum n (fun k => (entry x k 0 - entry y k 0) * (entry x k 0 - entry y k 0)).

(** A state that carries the projector [x |-> v + P (x - v)] on [n] faces. *)
Definition carries (n : nat) (P v : Tensor) (self : MaxEntropyDice) : Prop :=
  num_faces self = n /\
  constraint_projector self = mkProjector P v /\
  length (p self) = n.

(** For [n >= 2] faces the solution of least norm of the two constraints
    is affine in the face value:
    [v_k = 1/n + 12 (mean - c) (k + 1 - c) / (n (n^2 - 1))] with
    [c = (n + 1) / 2] the mean of a fair die. *)
Definition particular_slope (n : nat) (mean : R) : R :=
  12 * (mean - (INR n + 1) / 2) / (INR n * (INR n * INR n - 1)).

Definition particular_solution (n : nat) (mean : R) : Tensor :=
  tabulate n 1 (fun k _ =>
    / INR n + particular_slope n mean * (INR (k + 1) - (INR n + 1) / 2)).

(** The least-squares solution for a single face. *)
Definition particular_solution_1 (mean : R) : Tensor :=
  mkTensor [[(1 + mean) / 2]] 1.

(** For [n >= 2] the projector onto the kernel of the constraint matrix is
    [I - A^T (A A^T)^-1 A]:
    [P_ij = delta_ij - 1/n - 12 (i + 1 - c) (j + 1 - c) / (n (n^2 - 1))]
    with [c = (n + 1) / 2]. *)
Definition kernel_projector_closed_form (n : nat) : Tensor :=
  tabulate n n (fun i j =>
    delta i j - / INR n -
    12 * (INR (i + 1) - (INR n + 1) / 2) * (INR (j + 1) - (INR n + 1) / 2) /
    (INR n * (INR n * INR n - 1))).

(** The list [q] with entry [i] replaced by [t]. *)
Fixpoint replace_nth (q : list R) (i : nat) (t : R) : list R :=
  match q, i with
  | [], _ => []
  | _ :: q', O => t :: q'
  | x :: q', S i' => x :: replace_nth q' i' t
  end.

(** The loss [-model()] as a function of entry [i] of the parameter, the
    other entries held fixed; where [forward] has no real value, 0. *)
Definition loss_along (self : MaxEntropyDice) (i : nat) (t : R) : R :=
  match forward (set_p self (replace_nth (p self) i t)) with
  | Ok (entropy, _) => data0 (neg entropy)
  | _ => 0
  end.

(** * Part II: properties of the operations *)

(** ** Finite sums *)

Lemma Rsum_ext n f g :
  (forall k, (k < n)%nat -> f k = g k) -> Rsum n f = Rsum n g.
Proof.
  induction n as [|n IH]; intros H; simpl; [reflexivity|].
  rewrite IH by (intros; apply H; lia).
  rewrite H by lia. reflexivity.
Qed.

Lemma Rsum_zero n f :
  (forall k, (k < n)%nat -> f k = 0) -> Rsum n f = 0.
Proof.
  induction n as [|n IH]; intros H; simpl; [reflexivity|].
  rewrite IH by (intros; apply H; lia).
  rewrite H by lia. ring.
Qed.

Lemma Rsum_plus n f g :
  Rsum n (fun k => f k + g k) = Rsum n f + Rsum n g.
Proof. induction n as [|n IH]; simpl; [ring | rewrite IH; ring]. Qed.

Lemma Rsum_minus n f g :
  Rsum n (fun k => f k - g k) = Rsum n f - Rsum n g.
Proof. induction n as [|n IH]; simpl; [ring | rewrite IH; ring]. Qed.

Lemma Rsum_scal_l n c f :
  Rsum n (fun k => c * f k) = c * Rsum n f.
Proof. induction n as [|n IH]; simpl; [ring | rewrite IH; ring]. Qed.

Lemma Rsum_scal_r n c f :
  Rsum n (fun k => f k * c) = Rsum n f * c.
Proof. induction n as [|n IH]; simpl; [ring | rewrite IH; ring]. Qed.

Lemma Rsum_swap m n (f : nat -> nat -> R) :
  Rsum m (fun i => Rsum n (fun j => f i j)) =
  Rsum n (fun j => Rsum m (fun i => f i j)).
Proof.
  induction m as [|m IH]; simpl.
  - symmetry; apply Rsum_zero; reflexivity.
  - rewrite IH, <- Rsum_plus. reflexivity.
Qed.

Lemma Rsum_app a b f :
  Rsum (a + b) f = Rsum a f + Rsum b (fun k => f (a + k)%nat).
Proof.
  induction b as [|b IH].
  - rewrite Nat.add_0_r; simpl; ring.
  - rewrite Nat.add_succ_r; simpl. rewrite IH; ring.
Qed.

(** A sum with a single non-zero term. *)
Lemma Rsum_single n i f :
  (i < n)%nat -> (forall k, (k < n)%nat -> k <> i -> f k = 0) ->
  Rsum n f = f i.
Proof.
  induction n as [|n IH]; intros Hi H; [lia|]. simpl.
  destruct (Nat.eq_dec i n) as [->|Hne].
  - rewrite Rsum_zero by (intros; apply H; lia). ring.
  - rewrite IH by (try lia; intros; apply H; lia).
    rewrite (H n) by lia. ring.
Qed.

Lemma Rsum_nonneg n f :
  (forall k, (k < n)%nat -> 0 <= f k) -> 0 <= Rsum n f.
Proof.
  induction n as [|n IH]; intros H; simpl; [lra|].
  assert (0 <= Rsum n f) by (apply IH; intros; apply H; lia).
  assert (0 <= f n) by (apply H; lia). lra.
Qed.

Lemma Rsum_nonneg_zero n f :
  (forall k, (k < n)%nat -> 0 <= f k) -> Rsum n f <= 0 ->
  forall k, (k < n)%nat -> f k = 0.
Proof.
  induction n as [|n IH]; intros H H0 k Hk; [lia|]. simpl in H0.
  assert (0 <= Rsum n f) by (apply Rsum_nonneg; intros; apply H; lia).
  assert (0 <= f n) by (apply H; lia).
  destruct (Nat.eq_dec k n) as [->|Hne]; [lra|].
  apply IH; try lia; [intros; apply H; lia | lra].
Qed.

Lemma Rsum_mul_sum a b f g :
  Rsum a f * Rsum b g = Rsum a (fun i => Rsum b (fun j => f i * g j)).
Proof.
  rewrite <- Rsum_scal_r. apply Rsum_ext. intros i _.
  now rewrite Rsum_scal_l.
Qed.

Lemma Rsum_delta_l n i f :
  (i < n)%nat -> Rsum n (fun k => delta i k * f k) = f i.
Proof.
  intros Hi. rewrite (Rsum_single n i); trivial.
  - unfold delta. rewrite Nat.eqb_refl. ring.
  - intros k _ Hk. unfold delta.
    destruct (Nat.eqb_spec i k); [congruence | ring].
Qed.

Lemma Rsum_delta_r n i f :
  (i < n)%nat -> Rsum n (fun k => f k * delta k i) = f i.
Proof.
  intros Hi. rewrite (Rsum_single n i); trivial.
  - unfold delta. rewrite Nat.eqb_refl. ring.
  - intros k _ Hk. unfold delta.
    destruct (Nat.eqb_spec k i); [congruence | ring].
Qed.

Lemma Rsum_first2 n f :
  (2 <= n)%nat -> (forall k, (2 <= k)%nat -> f k = 0) ->
  Rsum n f = f 0%nat + f 1%nat.
Proof.
  intros Hn H. replace n with (2 + (n - 2))%nat by lia.
  rewrite Rsum_app. simpl.
  rewrite Rsum_zero by (intros; apply H; lia). ring.
Qed.

(** ** Tensors *)

Lemma nrows_tabulate r c f : nrows (tabulate r c f) = r.
Proof. unfold nrows, tabulate; simpl. now rewrite length_map, length_seq. Qed.

Lemma ncols_tabulate r c f : ncols (tabulate r c f) = c.
Proof. reflexivity. Qed.

Lemma wf_tabulate r c f : wf (tabulate r c f).
Proof.
  unfold wf, tabulate; simpl. apply Forall_forall. intros l Hl.
  apply in_map_iff in Hl. destruct Hl as [i [<- _]].
  now rewrite length_map, length_seq.
Qed.

Lemma has_shape_tabulate r c f : has_shape (tabulate r c f) r c.
Proof. repeat split; [apply wf_tabulate | apply nrows_tabulate]. Qed.

Lemma entry_tabulate r c f i j :
  (i < r)%nat -> (j < c)%nat -> entry (tabulate r c f) i j = f i j.
Proof.
  intros Hi Hj. unfold entry, tabulate; simpl.
  rewrite (nth_indep _ [] (map (f 0%nat) (seq 0 c)))
    by now rewrite length_map, length_seq.
  rewrite (map_nth (fun i => map (f i) (seq 0 c))), seq_nth by lia. simpl.
  rewrite (nth_indep _ 0 (f i 0%nat)) by now rewrite length_map, length_seq.
  rewrite (map_nth (f i)), seq_nth by lia. reflexivity.
Qed.

Lemma wf_row T i : wf T -> (i < nrows T)%nat -> length (nth i (rows T) []) = ncols T.
Proof.
  intros H Hi. unfold wf in H. rewrite Forall_forall in H.
  apply H, nth_In, Hi.
Qed.

Lemma tensor_ext A B :
  wf A -> wf B -> nrows A = nrows B -> ncols A = ncols B ->
  (forall i j, (i < nrows A)%nat -> (j < ncols A)%nat ->
               entry A i j = entry B i j) ->
  A = B.
Proof.
  intros HA HB Hr Hc He.
  destruct A as [ra ca], B as [rb cb]. unfold nrows in *. simpl in *. subst cb.
  f_equal. apply (nth_ext _ _ [] []); [exact Hr|]. intros i Hi.
  pose proof (wf_row (mkTensor ra ca) i HA Hi) as La.
  pose proof (wf_row (mkTensor rb ca) i HB) as Lb.
  unfold nrows in Lb; simpl in La, Lb. specialize (Lb ltac:(lia)).
  apply (nth_ext _ _ 0 0); [lia|]. intros j Hj.
  apply (He i j); lia.
Qed.

Lemma tabulate_ext r c f g :
  (forall i j, (i < r)%nat -> (j < c)%nat -> f i j = g i j) ->
  tabulate r c f = tabulate r c g.
Proof.
  intros H. apply tensor_ext; try apply wf_tabulate;
    rewrite ?nrows_tabulate, ?ncols_tabulate; try reflexivity.
  intros i j Hi Hj. rewrite !entry_tabulate by assumption. now apply H.
Qed.

Lemma tabulate_entry T r c :
  has_shape T r c -> tabulate r c (entry T) = T.
Proof.
  intros (Hw & Hr & Hc). apply tensor_ext; try apply wf_tabulate; try assumption;
    rewrite ?nrows_tabulate, ?ncols_tabulate; try congruence.
  intros i j Hi Hj. now rewrite entry_tabulate.
Qed.

(** ** The tensor operations *)

Ltac shape_tac :=
  rewrite ?nrows_tabulate, ?ncols_tabulate in *; try lia; try congruence.

Lemma mm_ok A B : ncols A = nrows B -> mm A B = Ok (mm_raw A B).
Proof. intros H. unfold mm. now rewrite (proj2 (Nat.eqb_eq _ _) H). Qed.

Lemma mm_inv A B C : mm A B = Ok C -> ncols A = nrows B /\ C = mm_raw A B.
Proof.
  unfold mm. destruct (Nat.eqb_spec (ncols A) (nrows B)); [|discriminate].
  intros [= <-]. now split.
Qed.

Lemma has_shape_mm_raw A B : has_shape (mm_raw A B) (nrows A) (ncols B).
Proof. apply has_shape_tabulate. Qed.

Lemma entry_mm_raw A B i j :
  (i < nrows A)%nat -> (j < ncols B)%nat ->
  entry (mm_raw A B) i j = Rsum (ncols A) (fun k => entry A i k * entry B k j).
Proof. intros. unfold mm_raw. now rewrite entry_tabulate. Qed.

Lemma has_shape_transpose T : has_shape (transpose T) (ncols T) (nrows T).
Proof. apply has_shape_tabulate. Qed.

Lemma entry_transpose T i j :
  (i < ncols T)%nat -> (j < nrows T)%nat -> entry (transpose T) i j = entry T j i.
Proof. intros. unfold transpose. now rewrite entry_tabulate. Qed.

Lemma nrows_slice_cols T s : nrows (slice_cols T s) = nrows T.
Proof. unfold nrows, slice_cols; simpl. apply length_map. Qed.

Lemma wf_slice_cols T s : wf T -> wf (slice_cols T s).
Proof.
  unfold wf, slice_cols; simpl. rewrite !Forall_forall. intros H l Hl.
  apply in_map_iff in Hl. destruct Hl as [r [<- Hr]].
  rewrite length_skipn, (H r Hr). reflexivity.
Qed.

Lemma entry_slice_cols T s i j :
  entry (slice_cols T s) i j = entry T i (s + j).
Proof.
  unfold entry, slice_cols; simpl.
  assert (nth i (map (skipn s) (rows T)) [] = skipn s (nth i (rows T) [])) as ->.
  { rewrite <- (map_nth (skipn s)). now rewrite skipn_nil. }
  apply nth_skipn.
Qed.

Lemma bidx_lt d i : (i < d)%nat -> bidx d i = i.
Proof. unfold bidx. destruct (Nat.eqb_spec d 1); lia. Qed.

Lemma broadcast_dim_same a : broadcast_dim a a = Some a.
Proof. unfold broadcast_dim. now rewrite Nat.eqb_refl. Qed.

Lemma pointwise_same op A B r c :
  has_shape A r c -> has_shape B r c ->
  pointwise op A B =
  Ok (tabulate r c (fun i j => op (entry A i j) (entry B i j))).
Proof.
  intros (_ & Ha & Ha') (_ & Hb & Hb'). unfold pointwise.
  rewrite Ha, Hb, Ha', Hb', !broadcast_dim_same. f_equal.
  apply tabulate_ext. intros i j Hi Hj. now rewrite !bidx_lt.
Qed.

Lemma has_shape_reshape_col p : has_shape (reshape_col p) (length p) 1.
Proof.
  unfold has_shape, wf, nrows, reshape_col; simpl. repeat split.
  - apply Forall_forall. intros l Hl. apply in_map_iff in Hl.
    now destruct Hl as [x [<- _]].
  - apply length_map.
Qed.

Lemma entry_reshape_col p i : entry (reshape_col p) i 0 = nth i p 0.
Proof.
  unfold entry, reshape_col; simpl.
  destruct (Nat.lt_ge_cases i (length p)) as [Hi|Hi].
  - rewrite (nth_indep _ [] [0]) by now rewrite length_map.
    now rewrite (map_nth (fun x => [x])).
  - rewrite (nth_overflow (map _ p)) by now rewrite length_map.
    now rewrite (nth_overflow p) by assumption.
Qed.

Lemma flatten_column n f :
  flatten (tabulate n 1 f) = map (fun i => f i 0%nat) (seq 0 n).
Proof.
  unfold flatten, tabulate; simpl. induction (seq 0 n) as [|i l IH]; simpl.
  - reflexivity.
  - now rewrite IH.
Qed.

Lemma flatten_reshape_col p : flatten (reshape_col p) = p.
Proof.
  unfold flatten, reshape_col; simpl. induction p as [|x p IH]; simpl.
  - reflexivity.
  - now rewrite IH.
Qed.

Lemma length_flatten_column T n : has_shape T n 1 -> length (flatten T) = n.
Proof.
  intros H. rewrite <- (tabulate_entry T n 1 H), flatten_column.
  now rewrite length_map, length_seq.
Qed.

Lemma reshape_col_flatten T n : has_shape T n 1 -> reshape_col (flatten T) = T.
Proof.
  intros H. pose proof (length_flatten_column T n H) as L.
  apply tensor_ext.
  - apply has_shape_reshape_col.
  - apply H.
  - destruct (has_shape_reshape_col (flatten T)) as (_ & -> & _).
    destruct H as (_ & -> & _). exact L.
  - destruct H as (_ & _ & ->). reflexivity.
  - intros i j Hi Hj. simpl in Hj. assert (j = 0%nat) as -> by lia.
    rewrite entry_reshape_col.
    rewrite <- (tabulate_entry T n 1 H) at 1. rewrite flatten_column.
    destruct (has_shape_reshape_col (flatten T)) as (_ & Hn & _).
    rewrite Hn, L in Hi.
    rewrite (nth_indep _ 0 (entry T 0 0)) by now rewrite length_map, length_seq.
    now rewrite (map_nth (fun i => entry T i 0%nat)), seq_nth.
Qed.

Lemma copy__same dst src : length src = length dst -> copy_ dst src = Ok src.
Proof. intros H. unfold copy_. now rewrite (proj2 (Nat.eqb_eq _ _) H). Qed.

Lemma copy__length dst src q : copy_ dst src = Ok q -> length q = length dst.
Proof.
  unfold copy_. destruct (Nat.eqb_spec (length src) (length dst)).
  - now intros [= <-].
  - destruct src as [|x [|y src]]; try discriminate.
    intros [= <-]. apply repeat_length.
Qed.

(** ** The kernel projector *)

(** The Gram matrix of an orthonormal family [w 0, ..., w (d-1)] of
    vectors of length [n] is idempotent. *)
Lemma gram_idempotent n d (w : nat -> nat -> R) :
  (forall l l', (l < d)%nat -> (l' < d)%nat ->
                Rsum n (fun k => w l k * w l' k) = delta l l') ->
  forall i j,
    Rsum n (fun k => Rsum d (fun l => w l i * w l k) *
                     Rsum d (fun l => w l k * w l j)) =
    Rsum d (fun l => w l i * w l j).
Proof.
  intros Hw i j.
  transitivity (Rsum d (fun l => Rsum d (fun l' =>
                  (w l i * w l' j) * Rsum n (fun k => w l k * w l' k)))).
  - transitivity (Rsum n (fun k => Rsum d (fun l => Rsum d (fun l' =>
                    (w l i * w l k) * (w l' k * w l' j))))).
    { apply Rsum_ext. intros k _. apply Rsum_mul_sum. }
    rewrite Rsum_swap. apply Rsum_ext. intros l _.
    rewrite Rsum_swap. apply Rsum_ext. intros l' _.
    rewrite <- Rsum_scal_l. apply Rsum_ext. intros k _. ring.
  - apply Rsum_ext. intros l Hl.
    transitivity (Rsum d (fun l' => delta l l' * (w l i * w l' j))).
    { apply Rsum_ext. intros l' Hl'. rewrite Hw by assumption. ring. }
    now rewrite (Rsum_delta_l d l (fun l' => w l i * w l' j)).
Qed.

(** What the two equations of [orthogonal] say entry by entry. *)
Lemma orthogonal_rows n Q a b :
  has_shape Q n n -> mm Q (transpose Q) = Ok (eye n) ->
  (a < n)%nat -> (b < n)%nat ->
  Rsum n (fun k => entry Q a k * entry Q b k) = delta a b.
Proof.
  intros (Hw & Hr & Hc) H Ha Hb. apply mm_inv in H. destruct H as [_ H].
  assert (E : entry (eye n) a b = entry (mm_raw Q (transpose Q)) a b)
    by now rewrite H.
  unfold eye in E. rewrite entry_tabulate in E by assumption.
  rewrite entry_mm_raw in E by (destruct (has_shape_transpose Q) as (_ & _ & ?); lia).
  rewrite Hc in E. unfold delta. rewrite E.
  apply Rsum_ext. intros k Hk. now rewrite entry_transpose by lia.
Qed.

Lemma orthogonal_cols n Q a b :
  has_shape Q n n -> mm (transpose Q) Q = Ok (eye n) ->
  (a < n)%nat -> (b < n)%nat ->
  Rsum n (fun k => entry Q k a * entry Q k b) = delta a b.
Proof.
  intros (Hw & Hr & Hc) H Ha Hb. apply mm_inv in H. destruct H as [_ H].
  assert (E : entry (eye n) a b = entry (mm_raw (transpose Q) Q) a b)
    by now rewrite H.
  unfold eye in E. rewrite entry_tabulate in E by assumption.
  destruct (has_shape_transpose Q) as (_ & Htr & Htc).
  rewrite entry_mm_raw in E by lia.
  rewrite Htc, Hr in E. unfold delta. rewrite E.
  apply Rsum_ext. intros k Hk. now rewrite entry_transpose by lia.
Qed.

Section KernelProjector.

Variables (n s : nat) (VT : Tensor).
Hypothesis VT_shape : has_shape VT n n.

Let K := kernel_basis VT s.
Let P := kernel_projector VT s.

Lemma has_shape_kernel_basis : has_shape K n (n - s).
Proof.
  destruct VT_shape as (Hw & Hr & Hc).
  destruct (has_shape_transpose VT) as (Htw & Htr & Htc).
  unfold K, kernel_basis. repeat split.
  - now apply wf_slice_cols.
  - rewrite nrows_slice_cols. congruence.
  - unfold slice_cols; simpl. fold (nrows VT). congruence.
Qed.

Lemma entry_kernel_basis i l :
  (i < n)%nat -> (s + l < n)%nat -> entry K i l = entry VT (s + l) i.
Proof.
  intros Hi Hl. destruct VT_shape as (Hw & Hr & Hc).
  unfold K, kernel_basis. rewrite entry_slice_cols.
  apply entry_transpose; lia.
Qed.

Lemma mm_kernel_basis : mm K (transpose K) = Ok P.
Proof.
  apply mm_ok. destruct (has_shape_transpose K) as (_ & -> & _). reflexivity.
Qed.

Lemma has_shape_kernel_projector : has_shape P n n.
Proof.
  destruct has_shape_kernel_basis as (_ & Hr & Hc).
  destruct (has_shape_transpose K) as (_ & _ & Htc).
  unfold P, kernel_projector. fold K.
  pose proof (has_shape_mm_raw K (transpose K)) as H.
  now rewrite Hr, Htc, Hr in H.
Qed.

Lemma entry_kernel_projector i j :
  (i < n)%nat -> (j < n)%nat ->
  entry P i j =
  Rsum (n - s) (fun l => entry VT (s + l) i * entry VT (s + l) j).
Proof.
  intros Hi Hj. destruct has_shape_kernel_basis as (_ & Hr & Hc).
  destruct (has_shape_transpose K) as (_ & Htr & Htc).
  unfold P, kernel_projector. fold K.
  rewrite entry_mm_raw by lia. rewrite Hc.
  apply Rsum_ext. intros l Hl.
  rewrite entry_transpose by lia.
  rewrite !entry_kernel_basis by lia. reflexivity.
Qed.

Lemma kernel_projector_symmetric : transpose P = P.
Proof.
  destruct has_shape_kernel_projector as (Hw & Hr & Hc).
  apply tensor_ext; trivial.
  - apply has_shape_transpose.
  - destruct (has_shape_transpose P) as (_ & -> & _). congruence.
  - destruct (has_shape_transpose P) as (_ & _ & ->). congruence.
  - intros i j Hi Hj.
    destruct (has_shape_transpose P) as (_ & Htr & Htc).
    rewrite entry_transpose by lia.
    rewrite !entry_kernel_projector by lia.
    apply Rsum_ext. intros l _. ring.
Qed.

Hypothesis VT_rows : mm VT (transpose VT) = Ok (eye n).

Lemma kernel_projector_idempotent : mm P P = Ok P.
Proof.
  destruct has_shape_kernel_projector as (Hw & Hr & Hc).
  rewrite mm_ok by congruence. f_equal.
  apply tensor_ext; trivial.
  - apply has_shape_mm_raw.
  - exact (proj1 (proj2 (has_shape_mm_raw P P))).
  - intros i j Hi Hj.
    destruct (has_shape_mm_raw P P) as (_ & Hmr & Hmc).
    rewrite entry_mm_raw by lia. rewrite Hc.
    rewrite (entry_kernel_projector i j) by lia.
    rewrite <- (gram_idempotent n (n - s) (fun l k => entry VT (s + l) k)).
    + apply Rsum_ext. intros k Hk.
      now rewrite !entry_kernel_projector by lia.
    + intros l l' Hl Hl'. cbv beta.
      rewrite (orthogonal_rows n VT); trivial; try lia.
      unfold delta. destruct (Nat.eqb_spec l l'), (Nat.eqb_spec (s + l) (s + l'));
        trivial; lia.
Qed.

End KernelProjector.

Lemma kernel_projector_zero n s VT :
  has_shape VT n n -> (n <= s)%nat -> kernel_projector VT s = zeros n n.
Proof.
  intros HVT Hs.
  destruct (has_shape_kernel_projector n s VT HVT) as (Hw & Hr & Hc).
  apply tensor_ext; trivial; unfold zeros; try apply wf_tabulate; shape_tac.
  intros i j Hi Hj. rewrite (entry_kernel_projector n s VT HVT) by lia.
  rewrite entry_tabulate by lia.
  replace (n - s)%nat with 0%nat by lia. reflexivity.
Qed.

(** ** The constraint system *)

Lemma has_shape_constraint_matrix n : has_shape (constraint_matrix n) 2 n.
Proof.
  unfold has_shape, wf, nrows, constraint_matrix; simpl. repeat split.
  repeat constructor.
  - apply repeat_length.
  - unfold arange. rewrite length_map, length_seq. lia.
Qed.

Lemma has_shape_constraint_rhs mean : has_shape (constraint_rhs mean) 2 1.
Proof. repeat split. repeat constructor. Qed.

Lemma entry_constraint_matrix_0 n j :
  (j < n)%nat -> entry (constraint_matrix n) 0 j = 1.
Proof. intros. unfold entry; simpl. now apply nth_repeat_lt. Qed.

Lemma entry_constraint_matrix_1 n j :
  (j < n)%nat -> entry (constraint_matrix n) 1 j = INR (j + 1).
Proof.
  intros. unfold entry; simpl. unfold arange.
  rewrite (nth_indep _ 0 (INR 0)) by (rewrite length_map, length_seq; lia).
  rewrite (map_nth INR), seq_nth by lia. f_equal. lia.
Qed.

Lemma stack_constraint n :
  stack (ones n) (arange 1 (n + 1)) = Ok (constraint_matrix n).
Proof.
  unfold stack, ones, arange.
  rewrite repeat_length, length_map, length_seq.
  replace (n =? n + 1 - 1)%nat with true
    by (symmetry; apply Nat.eqb_eq; lia).
  reflexivity.
Qed.

(** The body of [_compute_constraint_projector], evaluated. *)
Lemma compute_constraint_projector_eq svd lstsq n mean :
  _compute_constraint_projector svd lstsq n mean =
  Ok (mkProjector
        (kernel_projector (snd (svd (constraint_matrix n)))
                          (length (snd (fst (svd (constraint_matrix n))))))
        (lstsq (constraint_matrix n) (constraint_rhs mean))).
Proof.
  unfold _compute_constraint_projector. rewrite stack_constraint. simpl.
  destruct (svd (constraint_matrix n)) as [[U Sv] VT]. simpl.
  rewrite mm_ok by
    (destruct (has_shape_transpose
                 (slice_cols (transpose VT) (length Sv))) as (_ & -> & _);
     reflexivity).
  reflexivity.
Qed.

(** A combination of the two rows that vanishes on the first two columns
    has both coefficients zero. *)
Lemma rows_independent c0 c1 :
  c0 * 1 + c1 * INR 1 = 0 -> c0 * 1 + c1 * INR 2 = 0 -> c0 = 0 /\ c1 = 0.
Proof. simpl. intros. split; lra. Qed.

Lemma constraint_matrix_full_row_rank n :
  (2 <= n)%nat -> full_row_rank (constraint_matrix n).
Proof.
  intros Hn (c & (Hcw & Hcr & Hcc) & Hne & H). apply Hne.
  destruct (has_shape_constraint_matrix n) as (HAw & HAr & HAc).
  rewrite HAr in *. apply mm_inv in H. destruct H as [_ H].
  assert (E : forall k, (k < n)%nat ->
              entry c 0 0 * 1 + entry c 0 1 * INR (k + 1) = 0).
  { intros k Hk.
    assert (E := f_equal (fun T => entry T 0 k) H). cbv beta in E.
    unfold zeros in E. rewrite entry_tabulate in E by lia.
    rewrite entry_mm_raw in E by lia. rewrite Hcc in E. simpl in E.
    rewrite entry_constraint_matrix_0, entry_constraint_matrix_1 in E by lia.
    lra. }
  destruct (rows_independent _ _ (E 0%nat ltac:(lia)) (E 1%nat ltac:(lia)))
    as [E0 E1].
  apply tensor_ext; trivial; unfold zeros; try apply wf_tabulate; shape_tac.
  intros i j Hi Hj. rewrite entry_tabulate by lia.
  assert (i = 0%nat) as -> by lia.
  destruct j as [|[|j]]; trivial; lia.
Qed.

(** With at least two faces the constraint system has a solution, for
    instance [(2 - mean, mean - 1, 0, ..., 0)]. *)
Lemma constraint_system_consistent n mean :
  (2 <= n)%nat -> consistent (constraint_matrix n) (constraint_rhs mean).
Proof.
  intros Hn.
  set (x := tabulate n 1 (fun k _ =>
              match k with O => 2 - mean | S O => mean - 1 | _ => 0 end)).
  exists x. split; [apply has_shape_tabulate|].
  destruct (has_shape_constraint_matrix n) as (HAw & HAr & HAc).
  rewrite mm_ok by (unfold x; shape_tac). f_equal.
  apply tensor_ext; try apply has_shape_mm_raw; try apply has_shape_constraint_rhs.
  - reflexivity.
  - intros i j Hi Hj.
    destruct (has_shape_mm_raw (constraint_matrix n) x) as (_ & Hr & Hc).
    rewrite Hr, HAr in Hi. rewrite Hc in Hj. simpl in Hj.
    assert (j = 0%nat) as -> by lia.
    rewrite entry_mm_raw by (simpl; lia). rewrite HAc.
    rewrite Rsum_first2; trivial.
    + unfold x. rewrite !entry_tabulate by lia.
      destruct i as [|[|i]]; try lia.
      * rewrite !entry_constraint_matrix_0 by lia. unfold entry; simpl. ring.
      * rewrite !entry_constraint_matrix_1 by lia. unfold entry; simpl. ring.
    + intros k Hk. destruct (Nat.lt_ge_cases k n) as [Hlt|Hge].
      * unfold x. rewrite entry_tabulate by lia.
        destruct k as [|[|k]]; try lia. ring.
      * unfold x, entry at 2, tabulate; simpl.
        rewrite (nth_overflow _ []) by (rewrite length_map, length_seq; lia).
        destruct (0%nat); simpl; ring.
Qed.

(** ** Consequences of the contract of [torch.linalg.svd] *)

Section SvdFacts.

Variables (m n : nat) (A U VT : Tensor) (Sv : list R).
Hypothesis A_shape : has_shape A m n.
Hypothesis A_svd : svd_spec A (U, Sv, VT).

Let s := length Sv.
Let US := mm_raw U (S_matrix m n Sv).

Lemma svd_spec_shape : svd_shape A (U, Sv, VT).
Proof.
  destruct A_svd as (_ & (HV & _) & HS & _). now split.
Qed.

Lemma svd_VT_shape : has_shape VT n n.
Proof.
  destruct A_shape as (_ & _ & Hc).
  destruct A_svd as (_ & (HV & _) & _). now rewrite Hc in HV.
Qed.

Lemma svd_U_shape : has_shape U m m.
Proof.
  destruct A_shape as (_ & Hr & _).
  destruct A_svd as ((HU & _) & _). now rewrite Hr in HU.
Qed.

Lemma svd_VT_rows : mm VT (transpose VT) = Ok (eye n).
Proof.
  destruct A_shape as (_ & _ & Hc).
  destruct A_svd as (_ & (_ & _ & HV) & _). now rewrite Hc in HV.
Qed.

Lemma svd_VT_cols : mm (transpose VT) VT = Ok (eye n).
Proof.
  destruct A_shape as (_ & _ & Hc).
  destruct A_svd as (_ & (_ & HV & _) & _). now rewrite Hc in HV.
Qed.

Lemma svd_length : s = Nat.min m n.
Proof.
  destruct A_shape as (_ & Hr & Hc).
  destruct A_svd as (_ & _ & HS & _). unfold s. now rewrite HS, Hr, Hc.
Qed.

Lemma svd_product : A = mm_raw US VT.
Proof.
  destruct A_shape as (_ & Hr & Hc).
  destruct A_svd as (_ & _ & _ & H). rewrite Hr, Hc in H.
  destruct svd_U_shape as (_ & _ & HUc).
  destruct svd_VT_shape as (_ & HVr & _).
  rewrite mm_ok in H by (unfold S_matrix; shape_tac). simpl in H.
  rewrite mm_ok in H by (unfold mm_raw, S_matrix; shape_tac).
  now injection H.
Qed.

Lemma entry_US i a :
  (i < m)%nat -> (a < n)%nat ->
  entry US i a = Rsum m (fun c => entry U i c * (delta c a * nth c Sv 0)).
Proof.
  intros Hi Ha. destruct svd_U_shape as (_ & HUr & HUc).
  unfold US. rewrite entry_mm_raw by (unfold S_matrix; shape_tac).
  rewrite HUc. apply Rsum_ext. intros c Hc.
  unfold S_matrix. rewrite entry_tabulate by lia.
  unfold delta. destruct (c =? a)%nat; f_equal; ring.
Qed.

(** Beyond the singular values the columns of [U S_matrix] vanish. *)
Lemma entry_US_beyond i a :
  (i < m)%nat -> (a < n)%nat -> (s <= a)%nat -> entry US i a = 0.
Proof.
  intros Hi Ha Hs. rewrite entry_US by assumption.
  apply Rsum_zero. intros c Hc. unfold delta.
  destruct (Nat.eqb_spec c a) as [->|]; [|ring].
  rewrite nth_overflow by (fold s; lia). ring.
Qed.

Lemma entry_A i k :
  (i < m)%nat -> (k < n)%nat ->
  entry A i k = Rsum n (fun a => entry US i a * entry VT a k).
Proof.
  intros Hi Hk. destruct svd_U_shape as (_ & HUr & HUc).
  destruct svd_VT_shape as (_ & HVr & HVc).
  rewrite svd_product at 1.
  rewrite entry_mm_raw by (unfold US, mm_raw; shape_tac).
  unfold US at 1, mm_raw at 1, S_matrix at 1. rewrite ncols_tabulate.
  reflexivity.
Qed.

(** Every row of [A] is orthogonal to every column of [K]. *)
Lemma A_kernel_basis i l :
  (i < m)%nat -> (s + l < n)%nat ->
  Rsum n (fun k => entry A i k * entry VT (s + l) k) = 0.
Proof.
  intros Hi Hl.
  transitivity (Rsum n (fun a => entry US i a * delta a (s + l))).
  - transitivity (Rsum n (fun k => Rsum n (fun a =>
                    entry US i a * (entry VT a k * entry VT (s + l) k)))).
    { apply Rsum_ext. intros k Hk. rewrite entry_A by assumption.
      rewrite <- Rsum_scal_r. apply Rsum_ext. intros a _. ring. }
    rewrite Rsum_swap. apply Rsum_ext. intros a Ha.
    rewrite Rsum_scal_l. f_equal.
    apply (orthogonal_rows n VT); auto using svd_VT_shape, svd_VT_rows.
  - rewrite Rsum_delta_r by assumption.
    apply entry_US_beyond; lia.
Qed.

Lemma A_kernel_projector : mm A (kernel_projector VT s) = Ok (zeros m n).
Proof.
  destruct A_shape as (HAw & HAr & HAc).
  destruct (has_shape_kernel_projector n s VT svd_VT_shape) as (Hw & Hr & Hc).
  rewrite mm_ok by congruence. f_equal. unfold zeros.
  apply tensor_ext; try apply wf_tabulate; try apply has_shape_mm_raw.
  - rewrite nrows_tabulate. rewrite <- HAr. apply has_shape_mm_raw.
  - now rewrite ncols_tabulate.
  - intros i j Hi Hj.
    destruct (has_shape_mm_raw A (kernel_projector VT s)) as (_ & Hmr & Hmc).
    rewrite entry_mm_raw by lia.
    rewrite entry_tabulate by lia. rewrite HAc.
    transitivity (Rsum (n - s) (fun l =>
                    Rsum n (fun k => entry A i k * entry VT (s + l) k) *
                    entry VT (s + l) j)).
    + transitivity (Rsum n (fun k => Rsum (n - s) (fun l =>
                      entry A i k * entry VT (s + l) k * entry VT (s + l) j))).
      { apply Rsum_ext. intros k Hk.
        rewrite (entry_kernel_projector n s VT svd_VT_shape) by lia.
        rewrite <- Rsum_scal_l. apply Rsum_ext. intros l _. ring. }
      rewrite Rsum_swap. apply Rsum_ext. intros l _.
      now rewrite Rsum_scal_r.
    + apply Rsum_zero. intros l Hl.
      rewrite A_kernel_basis by lia. ring.
Qed.

End SvdFacts.

(** ** The kernel projector does not depend on the decomposition *)

Section SvdKernel.

Variables (m n : nat) (A U VT : Tensor) (Sv : list R).
Hypothesis A_shape : has_shape A m n.
Hypothesis A_svd : svd_spec A (U, Sv, VT).

Let s := length Sv.
Let P := kernel_projector VT s.

(** The coordinates of [x] in the basis of the rows of [VT]. *)
Let coord (x : nat -> R) (a : nat) : R :=
  Rsum n (fun k => entry VT a k * x k).

Lemma svd_U_cols a c :
  (a < m)%nat -> (c < m)%nat ->
  Rsum m (fun i => entry U i a * entry U i c) = delta a c.
Proof.
  intros Ha Hc. destruct A_shape as (_ & Hr & _).
  destruct A_svd as ((HU & HUc & _) & _). rewrite Hr in HU, HUc.
  now apply orthogonal_cols.
Qed.

(** [U^T A = S_matrix VT], on the rows that carry a singular value. *)
Lemma Ut_A a k :
  (a < s)%nat -> (k < n)%nat ->
  Rsum m (fun i => entry U i a * entry A i k) = nth a Sv 0 * entry VT a k.
Proof.
  intros Ha Hk.
  pose proof (svd_length m n A U VT Sv A_shape A_svd) as Hs. fold s in Hs.
  set (US := mm_raw U (S_matrix m n Sv)).
  assert (G : forall a', (a' < n)%nat ->
              Rsum m (fun i => entry U i a * entry US i a') =
              delta a a' * nth a Sv 0).
  { intros a' Ha'.
    transitivity (Rsum m (fun c => delta a c * (delta c a' * nth c Sv 0))).
    - transitivity (Rsum m (fun i => Rsum m (fun c =>
                      entry U i a * entry U i c * (delta c a' * nth c Sv 0)))).
      { apply Rsum_ext. intros i Hi. unfold US.
        rewrite (entry_US m n A U VT Sv A_shape A_svd) by assumption.
        rewrite <- Rsum_scal_l. apply Rsum_ext. intros c _. ring. }
      rewrite Rsum_swap. apply Rsum_ext. intros c Hc.
      rewrite Rsum_scal_r. rewrite svd_U_cols by lia. reflexivity.
    - rewrite Rsum_delta_l by lia. reflexivity. }
  transitivity (Rsum n (fun a' => delta a a' * (nth a Sv 0 * entry VT a' k))).
  - transitivity (Rsum m (fun i => Rsum n (fun a' =>
                    entry U i a * entry US i a' * entry VT a' k))).
    { apply Rsum_ext. intros i Hi.
      rewrite (entry_A m n A U VT Sv A_shape A_svd) by assumption.
      rewrite <- Rsum_scal_l. apply Rsum_ext. intros a' _. fold US. ring. }
    rewrite Rsum_swap. apply Rsum_ext. intros a' Ha'.
    rewrite Rsum_scal_r, G by assumption. ring.
  - rewrite Rsum_delta_l by lia. reflexivity.
Qed.

(** A vector of the kernel of [A] has no coordinate along a row of [VT]
    that carries a singular value, up to that singular value. *)
Lemma kernel_coordinates x a :
  (forall i, (i < m)%nat -> Rsum n (fun k => entry A i k * x k) = 0) ->
  (a < s)%nat -> nth a Sv 0 * coord x a = 0.
Proof.
  intros Hx Ha. unfold coord.
  transitivity (Rsum m (fun i => entry U i a *
                                 Rsum n (fun k => entry A i k * x k))).
  - rewrite <- Rsum_scal_l.
    transitivity (Rsum n (fun k => Rsum m (fun i =>
                    entry U i a * (entry A i k * x k)))).
    { apply Rsum_ext. intros k Hk. rewrite <- Rmult_assoc.
      rewrite <- Ut_A by assumption. rewrite <- Rsum_scal_r.
      apply Rsum_ext. intros i _. ring. }
    rewrite Rsum_swap. apply Rsum_ext. intros i _.
    now rewrite Rsum_scal_l.
  - apply Rsum_zero. intros i Hi. rewrite Hx by assumption. ring.
Qed.

(** Every vector is the combination of the rows of [VT] with its
    coordinates. *)
Lemma coord_resolution x i :
  (i < n)%nat -> Rsum n (fun a => entry VT a i * coord x a) = x i.
Proof.
  intros Hi. unfold coord.
  transitivity (Rsum n (fun k => delta i k * x k)).
  - transitivity (Rsum n (fun a => Rsum n (fun k =>
                    entry VT a i * entry VT a k * x k))).
    { apply Rsum_ext. intros a _. rewrite <- Rsum_scal_l.
      apply Rsum_ext. intros k _. ring. }
    rewrite Rsum_swap. apply Rsum_ext. intros k Hk.
    rewrite Rsum_scal_r. f_equal.
    apply (orthogonal_cols n VT);
      eauto using svd_VT_shape, svd_VT_cols.
  - now rewrite Rsum_delta_l.
Qed.

Hypothesis singular_values_nonzero :
  forall a, (a < s)%nat -> nth a Sv 0 <> 0.

(** [P] fixes the kernel of [A]. *)
Lemma kernel_projector_fixes_kernel x i :
  (forall i, (i < m)%nat -> Rsum n (fun k => entry A i k * x k) = 0) ->
  (i < n)%nat ->
  Rsum n (fun k => entry P i k * x k) = x i.
Proof.
  intros Hx Hi.
  pose proof (svd_length m n A U VT Sv A_shape A_svd) as Hs. fold s in Hs.
  pose proof (svd_VT_shape m n A U VT Sv A_shape A_svd) as HVT.
  assert (Hsn : (s <= n)%nat) by lia.
  pose proof (Rsum_app s (n - s) (fun a => entry VT a i * coord x a)) as E.
  replace (s + (n - s))%nat with n in E by lia.
  rewrite (coord_resolution x i Hi) in E.
  rewrite (Rsum_zero s) in E.
  2:{ intros a Ha. pose proof (kernel_coordinates x a Hx Ha) as Z.
      apply Rmult_integral in Z. destruct Z as [Z|Z].
      - now apply singular_values_nonzero in Z.
      - rewrite Z. ring. }
  rewrite Rplus_0_l in E. rewrite E.
  transitivity (Rsum n (fun k => Rsum (n - s) (fun l =>
                  entry VT (s + l) i * (entry VT (s + l) k * x k)))).
  { apply Rsum_ext. intros k Hk. unfold P.
    rewrite (entry_kernel_projector n s VT HVT) by assumption.
    rewrite <- Rsum_scal_r. apply Rsum_ext. intros l _. ring. }
  rewrite Rsum_swap. apply Rsum_ext. intros l _.
  unfold coord. now rewrite Rsum_scal_l.
Qed.

End SvdKernel.

(** With at least two faces both singular values of the constraint
    matrix are non-zero, because its two rows are independent. *)
Lemma constraint_singular_values n U Sv VT a :
  (2 <= n)%nat ->
  svd_spec (constraint_matrix n) (U, Sv, VT) ->
  (a < length Sv)%nat -> nth a Sv 0 <> 0.
Proof.
  intros Hn Hsvd Ha Hz.
  pose proof (has_shape_constraint_matrix n) as HA.
  pose proof (svd_length 2 n _ U VT Sv HA Hsvd) as Hs.
  assert (Ha2 : (a < 2)%nat) by lia.
  assert (E : forall k, (k < n)%nat ->
              entry U 0 a * 1 + entry U 1 a * INR (k + 1) = 0).
  { intros k Hk.
    pose proof (Ut_A 2 n _ U VT Sv HA Hsvd a k Ha Hk) as E.
    rewrite Hz in E. simpl in E.
    rewrite entry_constraint_matrix_0, entry_constraint_matrix_1 in E by lia.
    lra. }
  destruct (rows_independent _ _ (E 0%nat ltac:(lia)) (E 1%nat ltac:(lia)))
    as [E0 E1].
  pose proof (svd_U_cols 2 n _ U VT Sv HA Hsvd a a Ha2 Ha2) as N.
  simpl in N. rewrite E0, E1 in N. unfold delta in N.
  rewrite Nat.eqb_refl in N. lra.
Qed.

(** Two decompositions of the constraint matrix give the same [P]. *)
Lemma kernel_projector_unique n U Sv VT U' Sv' VT' :
  svd_spec (constraint_matrix n) (U, Sv, VT) ->
  svd_spec (constraint_matrix n) (U', Sv', VT') ->
  kernel_projector VT (length Sv) = kernel_projector VT' (length Sv').
Proof.
  intros H H'.
  pose proof (has_shape_constraint_matrix n) as HA.
  pose proof (svd_length 2 n _ U VT Sv HA H) as Hs.
  pose proof (svd_length 2 n _ U' VT' Sv' HA H') as Hs'.
  pose proof (svd_VT_shape 2 n _ U VT Sv HA H) as HVT.
  pose proof (svd_VT_shape 2 n _ U' VT' Sv' HA H') as HVT'.
  destruct (Nat.lt_ge_cases n 2) as [Hn|Hn].
  - rewrite !(kernel_projector_zero n) by (trivial; lia). reflexivity.
  - set (P := kernel_projector VT (length Sv)).
    set (P' := kernel_projector VT' (length Sv')).
    destruct (has_shape_kernel_projector n (length Sv) VT HVT) as (Hw & Hr & Hc).
    destruct (has_shape_kernel_projector n (length Sv') VT' HVT')
      as (Hw' & Hr' & Hc').
    assert (Sym : forall i j, (i < n)%nat -> (j < n)%nat ->
                  entry P i j = entry P j i).
    { intros i j Hi Hj. unfold P.
      rewrite !(entry_kernel_projector n _ VT HVT) by assumption.
      apply Rsum_ext. intros; ring. }
    assert (Sym' : forall i j, (i < n)%nat -> (j < n)%nat ->
                   entry P' i j = entry P' j i).
    { intros i j Hi Hj. unfold P'.
      rewrite !(entry_kernel_projector n _ VT' HVT') by assumption.
      apply Rsum_ext. intros; ring. }
    (* the columns of either projector lie in the kernel of [A] *)
    assert (Ker : forall j, (j < n)%nat -> forall i, (i < 2)%nat ->
              Rsum n (fun k => entry (constraint_matrix n) i k * entry P k j) = 0).
    { intros j Hj i Hi.
      pose proof (A_kernel_projector 2 n _ U VT Sv HA H) as Z.
      apply mm_inv in Z. destruct Z as [_ Z].
      assert (E := f_equal (fun T => entry T i j) Z). cbv beta in E.
      unfold zeros in E. rewrite entry_tabulate in E by assumption.
      destruct HA as (_ & HAr & HAc).
      rewrite entry_mm_raw in E by lia. rewrite HAc in E.
      symmetry. exact E. }
    assert (Ker' : forall j, (j < n)%nat -> forall i, (i < 2)%nat ->
              Rsum n (fun k => entry (constraint_matrix n) i k * entry P' k j) = 0).
    { intros j Hj i Hi.
      pose proof (A_kernel_projector 2 n _ U' VT' Sv' HA H') as Z.
      apply mm_inv in Z. destruct Z as [_ Z].
      assert (E := f_equal (fun T => entry T i j) Z). cbv beta in E.
      unfold zeros in E. rewrite entry_tabulate in E by assumption.
      destruct HA as (_ & HAr & HAc).
      rewrite entry_mm_raw in E by lia. rewrite HAc in E.
      symmetry. exact E. }
    apply tensor_ext; trivial; try (unfold P, P'; congruence).
    intros i j Hi Hj. unfold P in Hi, Hj. rewrite Hr in Hi. rewrite Hc in Hj.
    (* P = P' P and P' = P P' *)
    pose proof (kernel_projector_fixes_kernel 2 n _ U' VT' Sv' HA H'
                  (fun a => constraint_singular_values n U' Sv' VT' a Hn H')
                  (fun k => entry P k i) j (Ker i Hi) Hj) as E1.
    pose proof (kernel_projector_fixes_kernel 2 n _ U VT Sv HA H
                  (fun a => constraint_singular_values n U Sv VT a Hn H)
                  (fun k => entry P' k j) i (Ker' j Hj) Hi) as E2.
    cbv beta in E1, E2. fold P in E2. fold P' in E1.
    rewrite (Sym i j), <- E1, <- E2 by assumption.
    apply Rsum_ext. intros k Hk.
    rewrite (Sym' j k), (Sym k i) by assumption. ring.
Qed.

(** ** Consequences of the contract of [torch.linalg.lstsq] *)

Lemma residual_nonneg A b x : 0 <= residual A b x.
Proof.
  unfold residual. apply Rsum_nonneg. intros i _.
  apply Rsum_nonneg. intros j _. apply Rle_0_sqr.
Qed.

Lemma residual_solution A b x : mm A x = Ok b -> residual A b x = 0.
Proof.
  intros H. apply mm_inv in H. destruct H as [_ ->].
  unfold residual. apply Rsum_zero. intros i _.
  apply Rsum_zero. intros j _. ring.
Qed.

Lemma residual_zero_solution A b x :
  has_shape b (nrows A) (ncols x) -> ncols A = nrows x ->
  residual A b x <= 0 -> mm A x = Ok b.
Proof.
  intros (Hw & Hr & Hc) Hx H. rewrite mm_ok by assumption. f_equal.
  destruct (has_shape_mm_raw A x) as (Hmw & Hmr & Hmc).
  apply tensor_ext; trivial; try congruence.
  intros i j Hi Hj.
  { rewrite Hmr in Hi. rewrite Hmc in Hj.
    assert (E : (entry (mm_raw A x) i j - entry b i j) *
                (entry (mm_raw A x) i j - entry b i j) = 0).
    { apply (Rsum_nonneg_zero (ncols x)
               (fun j => (entry (mm_raw A x) i j - entry b i j) *
                         (entry (mm_raw A x) i j - entry b i j))); try lia.
      - intros; apply Rle_0_sqr.
      - assert (Z := Rsum_nonneg_zero (nrows A)
          (fun i => Rsum (ncols x) (fun j =>
             (entry (mm_raw A x) i j - entry b i j) *
             (entry (mm_raw A x) i j - entry b i j)))).
        rewrite Z; try lra; try lia; trivial.
        intros k _. apply Rsum_nonneg. intros; apply Rle_0_sqr. }
    apply Rmult_integral in E. lra. }
Qed.

(** On a consistent system the least-squares solution solves it. *)
Lemma lstsq_solves A b v :
  has_shape b (nrows A) (ncols b) ->
  lstsq_spec A b v -> consistent A b -> mm A v = Ok b.
Proof.
  intros Hb ((Hvw & Hvr & Hvc) & Hmin & _) (x & Hx & Hsol).
  apply residual_zero_solution.
  - now rewrite Hvc.
  - congruence.
  - rewrite <- (residual_solution A b x Hsol). now apply Hmin.
Qed.

(** ** Least squares on a single right-hand side *)

Section LeastSquares.

Variables (m n : nat) (A b : Tensor).
Hypothesis A_shape : has_shape A m n.
Hypothesis b_shape : has_shape b m 1.

(** The [i]-th entry of [A x - b]. *)
Definition resid (x : Tensor) (i : nat) : R :=
  Rsum n (fun k => entry A i k * entry x k 0) - entry b i 0.

Lemma residual_column x :
  has_shape x n 1 ->
  residual A b x = Rsum m (fun i => resid x i * resid x i).
Proof.
  intros (Hxw & Hxr & Hxc).
  destruct A_shape as (HAw & HAr & HAc).
  unfold residual. rewrite HAr, Hxc. apply Rsum_ext. intros i Hi.
  simpl. rewrite entry_mm_raw by lia. rewrite HAc. unfold resid. ring.
Qed.

Lemma sumsq_column x :
  has_shape x n 1 -> sumsq x = Rsum n (fun k => entry x k 0 * entry x k 0).
Proof.
  intros (Hxw & Hxr & Hxc). unfold sumsq. rewrite Hxr, Hxc.
  apply Rsum_ext. intros k _. simpl. ring.
Qed.

(** [A (x - v)], entry [i]. *)
Let image_diff (x v : Tensor) (i : nat) : R :=
  Rsum n (fun k => entry A i k * (entry x k 0 - entry v k 0)).

Lemma resid_shift x v i : resid x i = resid v i + image_diff x v i.
Proof.
  unfold resid, image_diff.
  rewrite (Rsum_ext n (fun k => entry A i k * (entry x k 0 - entry v k 0))
             (fun k => entry A i k * entry x k 0 - entry A i k * entry v k 0))
    by (intros; ring).
  rewrite Rsum_minus. ring.
Qed.

Lemma Rsum_sqr_plus k f g :
  Rsum k (fun i => (f i + g i) * (f i + g i)) =
  Rsum k (fun i => f i * f i) + 2 * Rsum k (fun i => f i * g i) +
  Rsum k (fun i => g i * g i).
Proof. induction k as [|k IH]; simpl; [ring | rewrite IH; ring]. Qed.

(** The normal equations [A^T (A v - b) = 0]. *)
Definition normal_equations (v : Tensor) : Prop :=
  forall k, (k < n)%nat -> Rsum m (fun i => entry A i k * resid v i) = 0.

(** [v] lies in the row space of [A]: [v = A^T w]. *)
Definition in_row_space (v : Tensor) (w : nat -> R) : Prop :=
  forall k, (k < n)%nat -> entry v k 0 = Rsum m (fun i => entry A i k * w i).

Lemma residual_pythagoras x v :
  has_shape x n 1 -> has_shape v n 1 -> normal_equations v ->
  residual A b x =
  residual A b v + Rsum m (fun i => image_diff x v i * image_diff x v i).
Proof.
  intros Hx Hv Hne. rewrite !residual_column by assumption.
  rewrite (Rsum_ext m (fun i => resid x i * resid x i)
             (fun i => (resid v i + image_diff x v i) *
                       (resid v i + image_diff x v i)))
    by (intros; now rewrite (resid_shift x v)).
  rewrite Rsum_sqr_plus.
  assert (Z : Rsum m (fun i => resid v i * image_diff x v i) = 0).
  { unfold image_diff.
    transitivity (Rsum n (fun k => (entry x k 0 - entry v k 0) *
                    Rsum m (fun i => entry A i k * resid v i))).
    - transitivity (Rsum m (fun i => Rsum n (fun k =>
                      (entry x k 0 - entry v k 0) *
                      (entry A i k * resid v i)))).
      { apply Rsum_ext. intros i _. rewrite <- Rsum_scal_l.
        apply Rsum_ext. intros k _. ring. }
      rewrite Rsum_swap. apply Rsum_ext. intros k _.
      now rewrite Rsum_scal_l.
    - apply Rsum_zero. intros k Hk. rewrite Hne by assumption. ring. }
  rewrite Z. ring.
Qed.

(** A solution of the normal equations in the row space of [A] is the
    minimum-norm least-squares solution. *)
Lemma lstsq_spec_intro v w :
  has_shape v n 1 -> normal_equations v -> in_row_space v w ->
  lstsq_spec A b v.
Proof.
  intros Hv Hne Hrow.
  destruct A_shape as (HAw & HAr & HAc), b_shape as (Hbw & Hbr & Hbc).
  unfold lstsq_spec. rewrite HAc, Hbc. split; [assumption|]. split.
  - intros x Hx. rewrite (residual_pythagoras x v) by assumption.
    assert (0 <= Rsum m (fun i => image_diff x v i * image_diff x v i))
      by (apply Rsum_nonneg; intros; apply Rle_0_sqr).
    lra.
  - intros x Hx Hle. rewrite (residual_pythagoras x v) in Hle by assumption.
    assert (Hd : forall i, (i < m)%nat -> image_diff x v i = 0).
    { intros i Hi.
      assert (E : image_diff x v i * image_diff x v i = 0).
      { apply (Rsum_nonneg_zero m
                 (fun i => image_diff x v i * image_diff x v i));
          try assumption; [intros; apply Rle_0_sqr | lra]. }
      apply Rmult_integral in E. now destruct E. }
    rewrite !sumsq_column by assumption.
    rewrite (Rsum_ext n (fun k => entry x k 0 * entry x k 0)
               (fun k => (entry v k 0 + (entry x k 0 - entry v k 0)) *
                         (entry v k 0 + (entry x k 0 - entry v k 0))))
      by (intros; ring).
    rewrite Rsum_sqr_plus.
    assert (Z : Rsum n (fun k => entry v k 0 * (entry x k 0 - entry v k 0)) = 0).
    { transitivity (Rsum m (fun i => w i * image_diff x v i)).
      - transitivity (Rsum n (fun k => Rsum m (fun i =>
                        w i * (entry A i k * (entry x k 0 - entry v k 0))))).
        { apply Rsum_ext. intros k Hk.
          generalize (entry x k 0 - entry v k 0). intros e.
          rewrite Hrow by assumption.
          rewrite <- Rsum_scal_r. apply Rsum_ext. intros i _. ring. }
        rewrite Rsum_swap. apply Rsum_ext. intros i _.
        unfold image_diff. now rewrite Rsum_scal_l.
      - apply Rsum_zero. intros i Hi. rewrite Hd by assumption. ring. }
    rewrite Z.
    assert (0 <= Rsum n (fun k => (entry x k 0 - entry v k 0) *
                                  (entry x k 0 - entry v k 0)))
      by (apply Rsum_nonneg; intros; apply Rle_0_sqr).
    lra.
Qed.

Lemma Rsum_parallelogram k f g :
  Rsum k (fun i => (f i + g i) / 2 * ((f i + g i) / 2)) =
  (Rsum k (fun i => f i * f i) + Rsum k (fun i => g i * g i)) / 2 -
  Rsum k (fun i => (f i - g i) / 2 * ((f i - g i) / 2)).
Proof. induction k as [|k IH]; simpl; [field | rewrite IH; field]. Qed.

(** The midpoint of two columns. *)
Let midpoint (v v' : Tensor) : Tensor :=
  tabulate n 1 (fun k _ => (entry v k 0 + entry v' k 0) / 2).

Lemma resid_midpoint v v' i :
  resid (midpoint v v') i = (resid v i + resid v' i) / 2.
Proof.
  unfold resid.
  rewrite (Rsum_ext n
             (fun k => entry A i k * entry (midpoint v v') k 0)
             (fun k => (entry A i k * entry v k 0 +
                        entry A i k * entry v' k 0) * / 2)).
  - rewrite Rsum_scal_r, Rsum_plus. field.
  - intros k Hk. unfold midpoint. rewrite entry_tabulate by lia. field.
Qed.

(** The minimum-norm least-squares solution is unique. *)
Lemma lstsq_unique v v' :
  lstsq_spec A b v -> lstsq_spec A b v' -> v = v'.
Proof.
  destruct A_shape as (HAw & HAr & HAc), b_shape as (Hbw & Hbr & Hbc).
  unfold lstsq_spec. rewrite HAc, Hbc.
  intros (Hv & Hmin & Hnorm) (Hv' & Hmin' & Hnorm').
  pose proof (Hmin v' Hv') as R1. pose proof (Hmin' v Hv) as R2.
  pose proof (Hnorm v' Hv' R2) as N1. pose proof (Hnorm' v Hv R1) as N2.
  assert (Hm : has_shape (midpoint v v') n 1) by apply has_shape_tabulate.
  assert (Rm : residual A b (midpoint v v') <= residual A b v).
  { rewrite !residual_column in * by assumption.
    rewrite (Rsum_ext m
               (fun i => resid (midpoint v v') i * resid (midpoint v v') i)
               (fun i => (resid v i + resid v' i) / 2 *
                         ((resid v i + resid v' i) / 2)))
      by (intros; now rewrite resid_midpoint).
    rewrite Rsum_parallelogram.
    assert (0 <= Rsum m (fun i => (resid v i - resid v' i) / 2 *
                                  ((resid v i - resid v' i) / 2)))
      by (apply Rsum_nonneg; intros; apply Rle_0_sqr).
    lra. }
  pose proof (Hnorm _ Hm Rm) as Nm.
  rewrite !sumsq_column in * by assumption.
  rewrite (Rsum_ext n
             (fun k => entry (midpoint v v') k 0 * entry (midpoint v v') k 0)
             (fun k => (entry v k 0 + entry v' k 0) / 2 *
                       ((entry v k 0 + entry v' k 0) / 2))) in Nm
    by (intros; unfold midpoint; now rewrite entry_tabulate by lia).
  rewrite Rsum_parallelogram in Nm.
  assert (D : forall k, (k < n)%nat ->
              (entry v k 0 - entry v' k 0) / 2 *
              ((entry v k 0 - entry v' k 0) / 2) = 0).
  { apply (Rsum_nonneg_zero n
             (fun k => (entry v k 0 - entry v' k 0) / 2 *
                       ((entry v k 0 - entry v' k 0) / 2)));
      [intros; apply Rle_0_sqr | lra]. }
  destruct Hv as (Hvw & Hvr & Hvc), Hv' as (Hvw' & Hvr' & Hvc').
  apply tensor_ext; trivial; try congruence.
  intros k j Hk Hj. assert (j = 0%nat) as -> by lia.
  specialize (D k ltac:(lia)). apply Rmult_integral in D. lra.
Qed.

End LeastSquares.

(** The projector that [_compute_constraint_projector] returns is the
    same for all decompositions and least-squares solutions within the
    contracts. *)
Lemma compute_constraint_projector_unique svd lstsq svd' lstsq' n mean :
  svd_spec (constraint_matrix n) (svd (constraint_matrix n)) ->
  svd_spec (constraint_matrix n) (svd' (constraint_matrix n)) ->
  lstsq_spec (constraint_matrix n) (constraint_rhs mean)
             (lstsq (constraint_matrix n) (constraint_rhs mean)) ->
  lstsq_spec (constraint_matrix n) (constraint_rhs mean)
             (lstsq' (constraint_matrix n) (constraint_rhs mean)) ->
  _compute_constraint_projector svd lstsq n mean =
  _compute_constraint_projector svd' lstsq' n mean.
Proof.
  intros H H' L L'. rewrite !compute_constraint_projector_eq.
  destruct (svd (constraint_matrix n)) as [[U Sv] VT].
  destruct (svd' (constraint_matrix n)) as [[U' Sv'] VT']. cbn [fst snd].
  rewrite (kernel_projector_unique n U Sv VT U' Sv' VT' H H').
  rewrite (lstsq_unique 2 n (constraint_matrix n) (constraint_rhs mean)
             (has_shape_constraint_matrix n) (has_shape_constraint_rhs mean)
             _ _ L L').
  reflexivity.
Qed.

(** ** The projector applied *)

Lemma call_projector_eq n P v x :
  has_shape P n n -> has_shape v n 1 -> has_shape x n 1 ->
  call_projector (mkProjector P v) x = Ok (projected n P v x).
Proof.
  intros HP Hv Hx. unfold call_projector; simpl.
  unfold sub. rewrite (pointwise_same _ x v n 1) by assumption. simpl.
  destruct HP as (HPw & HPr & HPc).
  rewrite mm_ok by shape_tac. simpl.
  unfold add. rewrite (pointwise_same _ v _ n 1); trivial.
  2:{ pose proof (has_shape_mm_raw P
        (tabulate n 1 (fun i j => entry x i j - entry v i j))) as H.
      now rewrite HPr in H. }
  f_equal. apply tabulate_ext. intros i j Hi Hj.
  assert (j = 0%nat) as -> by lia. f_equal.
  rewrite entry_mm_raw by shape_tac. rewrite HPc.
  apply Rsum_ext. intros k Hk. now rewrite entry_tabulate by lia.
Qed.

Lemma has_shape_projected n P v x : has_shape (projected n P v x) n 1.
Proof. apply has_shape_tabulate. Qed.

Lemma entry_projected n P v x i :
  (i < n)%nat ->
  entry (projected n P v x) i 0 =
  entry v i 0 + Rsum n (fun k => entry P i k * (entry x k 0 - entry v k 0)).
Proof. intros. unfold projected. now rewrite entry_tabulate by lia. Qed.

Section Projected.

Variables (m n : nat) (A P v b : Tensor).
Hypothesis A_shape : has_shape A m n.
Hypothesis P_shape : has_shape P n n.
Hypothesis v_shape : has_shape v n 1.

(** [project(x) - v = P (x - v)], entry by entry. *)
Lemma projected_minus_v x i :
  (i < n)%nat ->
  entry (projected n P v x) i 0 - entry v i 0 =
  Rsum n (fun k => entry P i k * (entry x k 0 - entry v k 0)).
Proof. intros Hi. rewrite entry_projected by assumption. ring. Qed.

Lemma projected_idempotent x :
  mm P P = Ok P ->
  projected n P v (projected n P v x) = projected n P v x.
Proof.
  intros HPP. apply mm_inv in HPP. destruct HPP as [_ HPP].
  destruct P_shape as (HPw & HPr & HPc).
  unfold projected at 1 3. apply tabulate_ext. intros i j Hi _. f_equal.
  transitivity (Rsum n (fun l =>
                  Rsum n (fun k => entry P i k * entry P k l) *
                  (entry x l 0 - entry v l 0))).
  - transitivity (Rsum n (fun k => Rsum n (fun l =>
                    entry P i k * entry P k l *
                    (entry x l 0 - entry v l 0)))).
    { apply Rsum_ext. intros k Hk. rewrite projected_minus_v by assumption.
      rewrite <- Rsum_scal_l. apply Rsum_ext. intros l _. ring. }
    rewrite Rsum_swap. apply Rsum_ext. intros l _.
    now rewrite Rsum_scal_r.
  - apply Rsum_ext. intros l Hl. f_equal.
    assert (E : entry P i l = entry (mm_raw P P) i l) by now rewrite <- HPP.
    rewrite E, entry_mm_raw by lia. now rewrite HPc.
Qed.

Lemma projected_fixes_v : projected n P v v = v.
Proof.
  rewrite <- (tabulate_entry v n 1 v_shape) at 3.
  apply tabulate_ext. intros i j Hi Hj. assert (j = 0%nat) as -> by lia.
  rewrite Rsum_zero by (intros; ring). ring.
Qed.

Hypothesis b_shape : has_shape b m 1.

Lemma mm_projected x :
  mm A v = Ok b -> mm A P = Ok (zeros m n) ->
  mm A (projected n P v x) = Ok b.
Proof.
  intros Hv HP. apply mm_inv in Hv, HP.
  destruct Hv as [_ Hv], HP as [_ HP].
  destruct A_shape as (HAw & HAr & HAc), P_shape as (HPw & HPr & HPc).
  destruct v_shape as (Hvw & Hvr & Hvc), b_shape as (Hbw & Hbr & Hbc).
  destruct (has_shape_projected n P v x) as (Hyw & Hyr & Hyc).
  rewrite mm_ok by congruence. f_equal.
  destruct (has_shape_mm_raw A (projected n P v x)) as (Hmw & Hmr & Hmc).
  apply tensor_ext; trivial; try congruence.
  intros i j Hi Hj. rewrite Hmr, HAr in Hi. rewrite Hmc, Hyc in Hj.
  assert (j = 0%nat) as -> by lia.
  rewrite entry_mm_raw by lia. rewrite HAc.
  transitivity (Rsum n (fun k => entry A i k * entry v k 0) +
                Rsum n (fun l => Rsum n (fun k => entry A i k * entry P k l) *
                                 (entry x l 0 - entry v l 0))).
  - transitivity (Rsum n (fun k => entry A i k * entry v k 0 +
                    Rsum n (fun l => entry A i k * entry P k l *
                                     (entry x l 0 - entry v l 0)))).
    { apply Rsum_ext. intros k Hk. rewrite entry_projected by assumption.
      rewrite Rmult_plus_distr_l. f_equal.
      rewrite <- Rsum_scal_l. apply Rsum_ext. intros l _. ring. }
    rewrite Rsum_plus. f_equal.
    rewrite Rsum_swap. apply Rsum_ext. intros l _.
    now rewrite Rsum_scal_r.
  - rewrite (Rsum_zero n (fun l => Rsum n _ * _)).
    + assert (E : entry b i 0 = entry (mm_raw A v) i 0) by now rewrite <- Hv.
      rewrite E, entry_mm_raw by lia. rewrite HAc. ring.
    + intros l Hl.
      assert (E : entry (zeros m n) i l = entry (mm_raw A P) i l)
        by now rewrite HP.
      unfold zeros in E. rewrite entry_tabulate in E by lia.
      rewrite entry_mm_raw in E by lia. rewrite HAc in E.
      rewrite <- E. ring.
Qed.

End Projected.

Lemma projected_zero n v x :
  has_shape v n 1 -> projected n (zeros n n) v x = v.
Proof.
  intros Hv. rewrite <- (tabulate_entry v n 1 Hv) at 2.
  apply tabulate_ext. intros i j Hi Hj. assert (j = 0%nat) as -> by lia.
  rewrite Rsum_zero; [ring|].
  intros k Hk. unfold zeros. rewrite entry_tabulate by lia. ring.
Qed.

(** ** The gradient step *)

Lemma length_zip_with op a b :
  length a = length b -> length (zip_with op a b) = length a.
Proof.
  revert b. induction a as [|x a IH]; intros [|y b] H; simpl in *;
    try discriminate; trivial.
  now rewrite IH by lia.
Qed.

Lemma zip_with_map_r op f a :
  zip_with op a (map f a) = map (fun x => op x (f x)) a.
Proof. induction a as [|x a IH]; simpl; [reflexivity | now rewrite IH]. Qed.

Lemma forallb_positive l :
  forallb positive l = true <-> Forall (fun x => 0 < x) l.
Proof.
  rewrite forallb_forall, Forall_forall. unfold positive.
  split; intros H x Hx; specialize (H x Hx);
    destruct (Rlt_dec 0 x); trivial; try discriminate; contradiction.
Qed.

(** The back-propagated gradient of [sum(p * log p)] for an upstream
    gradient [c]: torch adds [c * log p_i] from the product rule on the
    first factor and [(c * p_i) / p_i] from the second factor through the
    rule of [log]. *)
Lemma backprop_p_log_p c p :
  Forall (fun x => 0 < x) p ->
  zip_with Rplus
    (zip_with Rmult (repeat c (length p)) (map ln p))
    (zip_with Rdiv (zip_with Rmult (repeat c (length p)) p) p) =
  map (fun x => c * (ln x + 1)) p.
Proof.
  induction 1 as [|x p Hx Hp IH]; simpl; [reflexivity|].
  rewrite IH. f_equal. field. lra.
Qed.

Lemma forward_eq self :
  Forall (fun x => 0 < x) (p self) ->
  exists entropy,
    forward self = Ok (entropy, self) /\
    data0 entropy = - Rlist_sum (zip_with Rmult (p self) (map ln (p self))) /\
    back0 (neg entropy) 1 = map (fun x => ln x + 1) (p self).
Proof.
  intros Hpos. unfold forward, torch_log; simpl.
  rewrite (proj2 (forallb_positive _) Hpos). simpl.
  unfold torch_mul; simpl. rewrite length_map, Nat.eqb_refl.
  eexists. split; [reflexivity|]. split; [reflexivity|]. simpl.
  rewrite length_zip_with by now rewrite length_map.
  rewrite backprop_p_log_p by assumption.
  apply map_ext. intros x. ring.
Qed.

Lemma gradient_step_eq lr self :
  Forall (fun x => 0 < x) (p self) ->
  gradient_step lr self =
  Ok (tt, set_p (set_grad self (Some (map (fun x => ln x + 1) (p self))))
                (closed_form_update lr (p self))).
Proof.
  intros Hpos. unfold gradient_step, zero_grad. simpl.
  destruct (forward_eq (set_grad self None) Hpos) as (h & Hf & _ & Hg).
  rewrite Hf. cbn [bind]. unfold backward.
  cbn [bind set_grad p_grad].
  change (back0 h (- (1))) with (back0 (neg h) 1). rewrite Hg.
  unfold step, set_p, set_grad, closed_form_update. simpl. do 3 f_equal.
  rewrite zip_with_map_r. apply map_ext. intros x. ring.
Qed.

(** ** Frame and shape of the model along the loop *)

Lemma same_frame_refl s : same_frame s s.
Proof. now repeat split. Qed.

Lemma same_frame_trans s1 s2 s3 :
  same_frame s1 s2 -> same_frame s2 s3 -> same_frame s1 s3.
Proof. unfold same_frame. intuition congruence. Qed.

Lemma same_frame_well_shaped s s' :
  same_frame s s' -> well_shaped s -> well_shaped s'.
Proof.
  unfold same_frame, well_shaped. intros (-> & _ & -> & ->). trivial.
Qed.

Lemma enforce_constraint_eq self :
  well_shaped self ->
  enforce_constraint self =
  Ok (tt, set_p self
            (flatten (projected (num_faces self)
                        (proj_P (constraint_projector self))
                        (proj_v (constraint_projector self))
                        (reshape_col (p self))))).
Proof.
  intros (HP & Hv & Hp). unfold enforce_constraint.
  destruct (constraint_projector self) as [P v] eqn:E. simpl in *.
  rewrite (call_projector_eq (num_faces self)); trivial.
  2:{ rewrite <- Hp. apply has_shape_reshape_col. }
  simpl. rewrite copy__same; [reflexivity|].
  rewrite Hp. apply length_flatten_column, has_shape_projected.
Qed.

Lemma enforce_constraint_frame self u self' :
  enforce_constraint self = Ok (u, self') ->
  self' = set_p self (p self') /\ length (p self') = length (p self).
Proof.
  unfold enforce_constraint.
  destruct (call_projector _ _) as [y| |]; try discriminate. simpl.
  destruct (copy_ _ _) as [q| |] eqn:E; try discriminate. simpl.
  intros [= _ <-]. split; [reflexivity|]. simpl.
  eapply copy__length, E.
Qed.

Lemma forward_frame self entropy self' :
  forward self = Ok (entropy, self') -> self' = self.
Proof.
  unfold forward.
  destruct (torch_log _) as [l| |]; try discriminate. simpl.
  destruct (torch_mul _ _) as [m| |]; try discriminate. simpl.
  now intros [= _ <-].
Qed.

Lemma forward_positive self r :
  forward self = Ok r -> Forall (fun x => 0 < x) (p self).
Proof.
  unfold forward, torch_log. simpl.
  destruct (forallb positive (p self)) eqn:E; [|discriminate].
  intros _. now apply forallb_positive.
Qed.

Lemma gradient_step_positive lr self r :
  gradient_step lr self = Ok r -> Forall (fun x => 0 < x) (p self).
Proof.
  unfold gradient_step, zero_grad. simpl.
  destruct (forward (set_grad self None)) as [h| |] eqn:E; try discriminate.
  intros _. apply (forward_positive _ _ E).
Qed.

Lemma length_closed_form_update lr q :
  length (closed_form_update lr q) = length q.
Proof. apply length_map. Qed.

Lemma gradient_step_frame lr self u self' :
  gradient_step lr self = Ok (u, self') -> same_frame self self'.
Proof.
  intros H. pose proof (gradient_step_positive _ _ _ H) as Hpos.
  rewrite gradient_step_eq in H by assumption. injection H as _ <-.
  repeat split. simpl. apply length_closed_form_update.
Qed.

Lemma iteration_frame lr self u self' :
  iteration lr self = Ok (u, self') -> same_frame self self'.
Proof.
  unfold iteration.
  destruct (gradient_step lr self) as [[u1 s1]| |] eqn:E1; try discriminate.
  simpl. intros E2. apply gradient_step_frame in E1.
  apply enforce_constraint_frame in E2. destruct E2 as [E2 L2].
  destruct E1 as (? & ? & ? & ?).
  repeat split; try (rewrite E2; simpl; congruence).
Qed.

Lemma training_loop_frame k lr self u self' :
  training_loop k lr self = Ok (u, self') -> same_frame self self'.
Proof.
  revert self. induction k as [|k IH]; intros self; simpl.
  - intros [= _ <-]. apply same_frame_refl.
  - destruct (iteration lr self) as [[u1 s1]| |] eqn:E1; try discriminate.
    simpl. intros E2. apply iteration_frame in E1. apply IH in E2.
    eapply same_frame_trans; eassumption.
Qed.

(** ** The model after construction and one pass of the loop *)

Lemma init_eq svd lstsq n mean :
  __init__ svd lstsq n mean =
  Ok (mkDice n mean
        (mkProjector
           (kernel_projector (snd (svd (constraint_matrix n)))
              (length (snd (fst (svd (constraint_matrix n))))))
           (lstsq (constraint_matrix n) (constraint_rhs mean)))
        (ones n) None).
Proof.
  unfold __init__. now rewrite compute_constraint_projector_eq.
Qed.

Lemma init_well_shaped svd lstsq n mean model :
  svd_shape (constraint_matrix n) (svd (constraint_matrix n)) ->
  lstsq_shape (constraint_matrix n) (constraint_rhs mean)
              (lstsq (constraint_matrix n) (constraint_rhs mean)) ->
  __init__ svd lstsq n mean = Ok model -> well_shaped model.
Proof.
  intros Hs Hl. rewrite init_eq. intros [= <-].
  destruct (svd (constraint_matrix n)) as [[U Sv] VT]. simpl in *.
  destruct Hs as [HVT _]. unfold well_shaped; simpl. split; [|split].
  - now apply has_shape_kernel_projector.
  - apply Hl.
  - apply repeat_length.
Qed.

Lemma iteration_eq lr self :
  well_shaped self -> Forall (fun x => 0 < x) (p self) ->
  iteration lr self =
  Ok (tt, set_p (set_grad self (Some (map (fun x => ln x + 1) (p self))))
            (flatten (projected (num_faces self)
                        (proj_P (constraint_projector self))
                        (proj_v (constraint_projector self))
                        (reshape_col (closed_form_update lr (p self)))))).
Proof.
  intros Hw Hpos. unfold iteration.
  rewrite gradient_step_eq by assumption. cbn [bind].
  rewrite enforce_constraint_eq; [reflexivity|].
  destruct Hw as (HP & Hv & Hp). unfold well_shaped; simpl.
  split; [|split]; trivial.
  now rewrite length_closed_form_update.
Qed.

Lemma constant_projector_loop lr k : forall self,
  well_shaped self ->
  proj_P (constraint_projector self) = zeros (num_faces self) (num_faces self) ->
  Forall (fun x => 0 < x) (p self) ->
  Forall (fun x => 0 < x) (flatten (proj_v (constraint_projector self))) ->
  exists self',
    training_loop (S k) lr self = Ok (tt, self') /\
    p self' = flatten (proj_v (constraint_projector self)).
Proof.
  induction k as [|k IH]; intros self Hw HP Hpos Hv.
  - cbn [training_loop]. rewrite iteration_eq by assumption. cbn [bind].
    eexists. split; [reflexivity|]. simpl.
    rewrite HP, projected_zero by apply Hw. reflexivity.
  - change (training_loop (S (S k)) lr self)
      with ('(_, s) <- iteration lr self ;; training_loop (S k) lr s).
    rewrite iteration_eq by assumption. cbn [bind].
    rewrite HP, projected_zero by apply Hw.
    destruct Hw as (HwP & Hwv & Hwp).
    edestruct IH as (self' & E & Hp'); [| | | | exists self'; split; [exact E|]].
    + unfold well_shaped; simpl. split; [|split]; trivial.
      now apply length_flatten_column.
    + exact HP.
    + exact Hv.
    + exact Hv.
    + exact Hp'.
Qed.

(** * Part III: particular dice *)

Ltac rows_eq :=
  repeat match goal with
         | |- _ :: _ = _ :: _ => f_equal
         | |- mkTensor _ _ = mkTensor _ _ => f_equal
         | |- Ok _ = Ok _ => f_equal
         end.

(** Evaluation of the tensor operations on tensors given by their rows. *)
Ltac tensor_compute :=
  cbv [mm bind mm_raw transpose eye zeros S_matrix constraint_matrix
       constraint_rhs column2 tabulate entry nrows ncols rows Rsum map seq nth
       length Nat.eqb ones arange repeat Nat.sub Nat.add Nat.min INR
       has_shape wf resid normal_equations in_row_space].

(** ** A one-faced die: dependent rows, a system without solution *)

Definition sqrt2 : R := sqrt 2.

(** [constraint_matrix 1] is the column [(1, 1)]. *)
Definition U_1 : Tensor :=
  mkTensor [[/ sqrt2; - / sqrt2]; [/ sqrt2; / sqrt2]] 2.
Definition S_1 : list R := [sqrt2].
Definition VT_1 : Tensor := mkTensor [[1]] 1.

Definition svd_1 (_ : Tensor) : Tensor * list R * Tensor := (U_1, S_1, VT_1).

(** The least-squares solution of [x = 1], [x = 9/2] is their mean. *)
Definition lstsq_1 (_ _ : Tensor) : Tensor := mkTensor [[11 / 4]] 1.

Lemma sqrt2_sqr : sqrt2 * sqrt2 = 2.
Proof. unfold sqrt2. apply sqrt_sqrt. lra. Qed.

Lemma sqrt2_neq : sqrt2 <> 0.
Proof. intros H. pose proof sqrt2_sqr as E. rewrite H in E. lra. Qed.

Lemma inv_sqrt2_sqr : / sqrt2 * / sqrt2 = 1 / 2.
Proof.
  pose proof sqrt2_sqr as E. pose proof sqrt2_neq as N.
  apply (Rmult_eq_reg_r (sqrt2 * sqrt2)).
  - transitivity 1; [field; assumption | rewrite E; lra].
  - rewrite E. lra.
Qed.

Lemma svd_1_spec : svd_spec (constraint_matrix 1) (svd_1 (constraint_matrix 1)).
Proof.
  pose proof inv_sqrt2_sqr as I. pose proof sqrt2_neq as N.
  unfold svd_1, svd_spec, orthogonal, U_1, VT_1, S_1.
  repeat split; try (repeat constructor).
  all: tensor_compute; rows_eq; try nra; try (field; assumption).
Qed.

Lemma lstsq_1_spec :
  lstsq_spec (constraint_matrix 1) (constraint_rhs (9 / 2))
             (lstsq_1 (constraint_matrix 1) (constraint_rhs (9 / 2))).
Proof.
  apply (lstsq_spec_intro 2 1) with
    (w := fun i => match i with O => 11 / 4 | _ => 0 end).
  - apply has_shape_constraint_matrix.
  - apply has_shape_constraint_rhs.
  - repeat split. repeat constructor.
  - intros [|k] Hk; try lia; unfold lstsq_1; tensor_compute; lra.
  - intros [|k] Hk; try lia; unfold lstsq_1; tensor_compute; lra.
Qed.

Lemma constraint_matrix_1_deficient : row_rank_deficient (constraint_matrix 1).
Proof.
  exists (mkTensor [[1; -1]] 2). split; [|split].
  - repeat split. repeat constructor.
  - intros H. apply (f_equal (fun T => entry T 0 0)) in H.
    revert H. tensor_compute. intros H. lra.
  - tensor_compute. rows_eq. lra.
Qed.

Lemma constraint_system_1_inconsistent :
  ~ consistent (constraint_matrix 1) (constraint_rhs (9 / 2)).
Proof.
  intros (x & (Hw & Hr & Hc) & H). apply mm_inv in H. destruct H as [_ H].
  assert (E0 := f_equal (fun T => entry T 0 0) H).
  assert (E1 := f_equal (fun T => entry T 1 0) H).
  simpl in Hc. cbv beta in E0, E1.
  destruct (has_shape_constraint_matrix 1) as (_ & HAr & _).
  rewrite entry_mm_raw in E0, E1 by lia.
  revert E0 E1. tensor_compute. intros E0 E1. lra.
Qed.

(** ** A two-faced die *)

Definition sqrt5 : R := sqrt 5.
Definition golden : R := (1 + sqrt5) / 2.
Definition norm2 : R := sqrt ((5 + sqrt5) / 2).
Definition cos2 : R := / norm2.
Definition sin2 : R := golden / norm2.

(** [constraint_matrix 2] is symmetric, with eigenvalues [(3 + sqrt 5)/2]
    and [(3 - sqrt 5)/2] and eigenvectors [(1, golden)] and [(-golden, 1)];
    its singular value decomposition is its eigendecomposition. *)
Definition U_2 : Tensor := mkTensor [[cos2; - sin2]; [sin2; cos2]] 2.
Definition S_2 : list R := [(3 + sqrt5) / 2; (3 - sqrt5) / 2].
Definition VT_2 : Tensor := mkTensor [[cos2; sin2]; [- sin2; cos2]] 2.

Definition svd_2 (_ : Tensor) : Tensor * list R * Tensor := (U_2, S_2, VT_2).
Definition lstsq_2 (_ _ : Tensor) : Tensor := mkTensor [[1 / 2]; [1 / 2]] 1.

Lemma sqrt5_sqr : sqrt5 * sqrt5 = 5.
Proof. unfold sqrt5. apply sqrt_sqrt. lra. Qed.

Lemma sqrt5_pos : 0 <= sqrt5.
Proof. apply sqrt_pos. Qed.

Lemma norm2_sqr : norm2 * norm2 = (5 + sqrt5) / 2.
Proof. unfold norm2. apply sqrt_sqrt. pose proof sqrt5_pos. lra. Qed.

Lemma norm2_neq : norm2 <> 0.
Proof.
  intros H. pose proof norm2_sqr as E. rewrite H in E.
  pose proof sqrt5_pos. lra.
Qed.

Lemma cos2_sqr : cos2 * cos2 = (5 - sqrt5) / 10.
Proof.
  pose proof norm2_sqr as E. pose proof norm2_neq as N.
  pose proof sqrt5_sqr as S. pose proof sqrt5_pos as P.
  unfold cos2. apply (Rmult_eq_reg_r (norm2 * norm2)).
  - transitivity 1; [field; assumption|]. rewrite E. nra.
  - rewrite E. lra.
Qed.

Lemma sin2_sqr : sin2 * sin2 = (5 + sqrt5) / 10.
Proof.
  pose proof norm2_sqr as E. pose proof norm2_neq as N.
  pose proof sqrt5_sqr as S. pose proof sqrt5_pos as P.
  unfold sin2. apply (Rmult_eq_reg_r (norm2 * norm2)).
  - transitivity (golden * golden); [field; assumption|].
    rewrite E. unfold golden. nra.
  - rewrite E. lra.
Qed.

Lemma cos2_sin2 : cos2 * sin2 = sqrt5 / 5.
Proof.
  pose proof norm2_sqr as E. pose proof norm2_neq as N.
  pose proof sqrt5_sqr as S. pose proof sqrt5_pos as P.
  unfold cos2, sin2. apply (Rmult_eq_reg_r (norm2 * norm2)).
  - transitivity golden; [field; assumption|].
    rewrite E. unfold golden. nra.
  - rewrite E. lra.
Qed.

Lemma svd_2_spec : svd_spec (constraint_matrix 2) (svd_2 (constraint_matrix 2)).
Proof.
  pose proof cos2_sqr as C. pose proof sin2_sqr as S.
  pose proof cos2_sin2 as CS. pose proof sqrt5_sqr as Q.
  unfold svd_2, svd_spec, orthogonal, U_2, VT_2, S_2.
  repeat split; try (repeat constructor).
  all: tensor_compute; rows_eq; nra.
Qed.

Lemma lstsq_2_spec :
  lstsq_spec (constraint_matrix 2) (constraint_rhs (3 / 2))
             (lstsq_2 (constraint_matrix 2) (constraint_rhs (3 / 2))).
Proof.
  apply (lstsq_spec_intro 2 2) with
    (w := fun i => match i with O => 1 / 2 | _ => 0 end).
  - apply has_shape_constraint_matrix.
  - apply has_shape_constraint_rhs.
  - repeat split. repeat constructor.
  - intros [|[|k]] Hk; try lia; unfold lstsq_2; tensor_compute; lra.
  - intros [|[|k]] Hk; try lia; unfold lstsq_2; tensor_compute; lra.
Qed.

(** The kernel of the constraint matrix of the two-faced die is trivial. *)
Lemma constraint_matrix_2_kernel x :
  has_shape x 2 1 -> mm (constraint_matrix 2) x = Ok (zeros 2 1) ->
  x = zeros 2 1.
Proof.
  intros (Hw & Hr & Hc) H. apply mm_inv in H. destruct H as [_ H].
  destruct (has_shape_constraint_matrix 2) as (_ & HAr & HAc).
  assert (E0 := f_equal (fun T => entry T 0 0) H).
  assert (E1 := f_equal (fun T => entry T 1 0) H). cbv beta in E0, E1.
  rewrite entry_mm_raw in E0, E1 by lia.
  apply tensor_ext; trivial; unfold zeros; try apply wf_tabulate; shape_tac.
  intros i j Hi Hj. rewrite entry_tabulate by lia.
  assert (j = 0%nat) as -> by lia.
  revert E0 E1. tensor_compute. intros E0 E1.
  destruct i as [|[|i]]; try lia; unfold entry; lra.
Qed.

(** ** The six-faced die of the notebook *)

(** The solution of least norm of [sum p_i = 1], [sum i p_i = 9/2]:
    [p_i = (12 i - 7) / 210]. *)
Definition v_6 : Tensor :=
  mkTensor [[5 / 210]; [17 / 210]; [29 / 210];
            [41 / 210]; [53 / 210]; [65 / 210]] 1.

Definition lstsq_6 (_ _ : Tensor) : Tensor := v_6.

Lemma has_shape_v_6 : has_shape v_6 6 1.
Proof. repeat split. repeat constructor. Qed.

Lemma lstsq_6_spec :
  lstsq_spec (constraint_matrix 6) (constraint_rhs (9 / 2)) v_6.
Proof.
  apply (lstsq_spec_intro 2 6) with
    (w := fun i => match i with O => - 7 / 210 | S O => 12 / 210 | _ => 0 end).
  - apply has_shape_constraint_matrix.
  - apply has_shape_constraint_rhs.
  - exact has_shape_v_6.
  - intros k Hk. do 6 (destruct k as [|k]; [unfold v_6; tensor_compute; lra|]).
    lia.
  - intros k Hk. do 6 (destruct k as [|k]; [unfold v_6; tensor_compute; lra|]).
    lia.
Qed.

(** [A A^T] has trace 97 and determinant 105; its eigenvalues are
    [(97 + d) / 2] and [(97 - d) / 2] with [d = sqrt 8989], its
    eigenvectors are proportional to [(42, 85 + d)] and [(42, 85 - d)]. *)
Definition disc6 : R := sqrt 8989.
Definition sigma6p : R := sqrt ((97 + disc6) / 2).
Definition sigma6m : R := sqrt ((97 - disc6) / 2).
Definition c6p : R := / (sqrt (17978 + 170 * disc6) * sigma6p).
Definition c6m : R := / (sqrt (17978 - 170 * disc6) * sigma6m).

Definition U_6 : Tensor :=
  mkTensor [[42 * (c6p * sigma6p); 42 * (c6m * sigma6m)];
            [(85 + disc6) * (c6p * sigma6p); (85 - disc6) * (c6m * sigma6m)]] 2.

Definition S_6 : list R := [sigma6p; sigma6m].

(** The first two rows of [VT] span the rows of [A]; the last four are the
    discrete orthogonal polynomials of degree 2 to 5 on six points, scaled
    by [r2], [r3], [r4] and [r5]. *)
Definition VT_6 (r2 r3 r4 r5 : R) : Tensor :=
  mkTensor
    [[(127 + disc6) * c6p; (212 + 2 * disc6) * c6p; (297 + 3 * disc6) * c6p;
      (382 + 4 * disc6) * c6p; (467 + 5 * disc6) * c6p; (552 + 6 * disc6) * c6p];
     [(127 - disc6) * c6m; (212 - 2 * disc6) * c6m; (297 - 3 * disc6) * c6m;
      (382 - 4 * disc6) * c6m; (467 - 5 * disc6) * c6m; (552 - 6 * disc6) * c6m];
     [5 * r2; -1 * r2; -4 * r2; -4 * r2; -1 * r2; 5 * r2];
     [-5 * r3; 7 * r3; 4 * r3; -4 * r3; -7 * r3; 5 * r3];
     [1 * r4; -3 * r4; 2 * r4; 2 * r4; -3 * r4; 1 * r4];
     [-1 * r5; 5 * r5; -10 * r5; 10 * r5; -5 * r5; 1 * r5]] 6.

Lemma disc6_sqr : disc6 * disc6 = 8989.
Proof. unfold disc6. apply sqrt_sqrt. lra. Qed.

Lemma disc6_bounds : 94 < disc6 < 95.
Proof.
  pose proof disc6_sqr as E.
  assert (0 <= disc6) by apply sqrt_pos. split; nra.
Qed.

Lemma sigma6p_sqr : 2 * (sigma6p * sigma6p) = 97 + disc6.
Proof.
  pose proof disc6_bounds. unfold sigma6p. rewrite sqrt_sqrt; lra.
Qed.

Lemma sigma6m_sqr : 2 * (sigma6m * sigma6m) = 97 - disc6.
Proof.
  pose proof disc6_bounds. unfold sigma6m. rewrite sqrt_sqrt; lra.
Qed.

Lemma c6p_sqr :
  13319540640 * (c6p * c6p) = (17978 - 170 * disc6) * (97 - disc6).
Proof.
  pose proof disc6_bounds as B. pose proof disc6_sqr as D.
  pose proof sigma6p_sqr as S.
  assert (N : sqrt (17978 + 170 * disc6) * sqrt (17978 + 170 * disc6) =
              17978 + 170 * disc6) by (apply sqrt_sqrt; lra).
  assert (Hn : sqrt (17978 + 170 * disc6) <> 0) by (intros Z; rewrite Z in N; lra).
  assert (Hs : sigma6p <> 0) by (intros Z; rewrite Z in S; lra).
  unfold c6p. set (nn := sqrt (17978 + 170 * disc6)) in *.
  apply (Rmult_eq_reg_r ((nn * nn) * (2 * (sigma6p * sigma6p)))).
  - transitivity (13319540640 * 2); [field; split; assumption|].
    rewrite N, S. nra.
  - rewrite N, S. nra.
Qed.

Lemma c6m_sqr :
  13319540640 * (c6m * c6m) = (17978 + 170 * disc6) * (97 + disc6).
Proof.
  pose proof disc6_bounds as B. pose proof disc6_sqr as D.
  pose proof sigma6m_sqr as S.
  assert (N : sqrt (17978 - 170 * disc6) * sqrt (17978 - 170 * disc6) =
              17978 - 170 * disc6) by (apply sqrt_sqrt; lra).
  assert (Hn : sqrt (17978 - 170 * disc6) <> 0) by (intros Z; rewrite Z in N; lra).
  assert (Hs : sigma6m <> 0) by (intros Z; rewrite Z in S; lra).
  unfold c6m. set (nn := sqrt (17978 - 170 * disc6)) in *.
  apply (Rmult_eq_reg_r ((nn * nn) * (2 * (sigma6m * sigma6m)))).
  - transitivity (13319540640 * 2); [field; split; assumption|].
    rewrite N, S. nra.
  - rewrite N, S. nra.
Qed.

(** The matrices above decompose [constraint_matrix 6] whenever the four
    polynomials are scaled to norm one, whatever their signs. *)
Lemma svd_6_spec r2 r3 r4 r5 :
  84 * (r2 * r2) = 1 -> 180 * (r3 * r3) = 1 ->
  28 * (r4 * r4) = 1 -> 252 * (r5 * r5) = 1 ->
  svd_spec (constraint_matrix 6) (U_6, S_6, VT_6 r2 r3 r4 r5).
Proof.
  intros H2 H3 H4 H5.
  pose proof disc6_sqr as D. pose proof sigma6p_sqr as Sp.
  pose proof sigma6m_sqr as Sm. pose proof c6p_sqr as Cp.
  pose proof c6m_sqr as Cm.
  unfold svd_spec, orthogonal, U_6, VT_6, S_6.
  repeat split; try (repeat constructor).
  all: tensor_compute; rows_eq.
  all: nsatz.
Qed.

Definition svd_6 (_ : Tensor) : Tensor * list R * Tensor :=
  (U_6, S_6, VT_6 (/ sqrt 84) (/ sqrt 180) (/ sqrt 28) (/ sqrt 252)).

(** The same decomposition with the opposite basis of the kernel. *)
Definition svd_6_opposite (_ : Tensor) : Tensor * list R * Tensor :=
  (U_6, S_6, VT_6 (- / sqrt 84) (- / sqrt 180) (- / sqrt 28) (- / sqrt 252)).

Lemma inv_sqrt_sqr x : 0 < x -> x * (/ sqrt x * / sqrt x) = 1.
Proof.
  intros Hx. assert (E : sqrt x * sqrt x = x) by (apply sqrt_sqrt; lra).
  assert (N : sqrt x <> 0) by (intros Z; rewrite Z in E; lra).
  rewrite <- E at 1. field. assumption.
Qed.

Lemma svd_6_ok : svd_spec (constraint_matrix 6) (svd_6 (constraint_matrix 6)).
Proof. apply svd_6_spec; apply inv_sqrt_sqr; lra. Qed.

Lemma svd_6_opposite_ok :
  svd_spec (constraint_matrix 6) (svd_6_opposite (constraint_matrix 6)).
Proof.
  apply svd_6_spec.
  all: rewrite Rmult_opp_opp; apply inv_sqrt_sqr; lra.
Qed.

(** The model of the notebook as [__init__] leaves it. *)
Definition dice_6 : MaxEntropyDice :=
  mkDice 6 (9 / 2)
    (mkProjector
       (kernel_projector
          (VT_6 (/ sqrt 84) (/ sqrt 180) (/ sqrt 28) (/ sqrt 252)) 2)
       v_6)
    (ones 6) None.

Lemma init_dice_6 : __init__ svd_6 lstsq_6 6 (9 / 2) = Ok dice_6.
Proof. rewrite init_eq. reflexivity. Qed.

Lemma dice_6_well_shaped : well_shaped dice_6.
Proof.
  apply (init_well_shaped svd_6 lstsq_6 6 (9 / 2)).
  - apply (svd_spec_shape _ U_6 _ S_6). exact svd_6_ok.
  - exact has_shape_v_6.
  - exact init_dice_6.
Qed.

(** ** Six faces: further instances *)

(** The least-squares solution for a target mean of 11/2, which is beyond
    three quarters of 7. *)
Definition lstsq_6_mean_high : Tensor -> Tensor -> Tensor :=
  fun _ _ => particular_solution 6 (11 / 2).

(** The die whose parameter is the least-squares solution. *)
Definition dice_6_particular : MaxEntropyDice := set_p dice_6 (flatten v_6).

Lemma v_6_solves :
  mm (constraint_matrix 6) v_6 = Ok (constraint_rhs (9 / 2)).
Proof.
  apply lstsq_solves.
  - apply has_shape_constraint_rhs.
  - exact lstsq_6_spec.
  - apply constraint_system_consistent. lia.
Qed.

Lemma v_6_positive : Forall (fun x => 0 < x) (flatten v_6).
Proof. unfold v_6, flatten. simpl. repeat constructor; lra. Qed.

Lemma dice_6_particular_feasible :
  mm (constraint_matrix 6) (reshape_col (p dice_6_particular)) =
  Ok (constraint_rhs (9 / 2)).
Proof.
  unfold dice_6_particular. cbn [p set_p].
  rewrite (reshape_col_flatten v_6 6) by exact has_shape_v_6.
  exact v_6_solves.
Qed.

Lemma dice_6_particular_frame : same_frame dice_6 dice_6_particular.
Proof. repeat split. Qed.

(** The fair die: a target mean of 7/2, written as [(6 + 1) / 2]. *)
Definition lstsq_6_fair : Tensor -> Tensor -> Tensor :=
  fun _ _ => particular_solution 6 ((INR 6 + 1) / 2).






(** * Part IV: the claims *)

(** C1.  Whatever decomposition and least-squares solution the two
    primitives return within their contracts, the projector that
    [_compute_constraint_projector] builds sends every column [x] of
    length [num_faces] to a solution of the constraint system, provided
    the system has a solution at all:
    [A (v + P (x - v)) = b] for the matrix [A] with rows [(1, ..., 1)] and
    [(1, ..., n)] and [b = (1, mean)]. *)
Theorem project_satisfies_constraints svd lstsq n mean :
  svd_spec (constraint_matrix n) (svd (constraint_matrix n)) ->
  lstsq_spec (constraint_matrix n) (constraint_rhs mean)
             (lstsq (constraint_matrix n) (constraint_rhs mean)) ->
  consistent (constraint_matrix n) (constraint_rhs mean) ->
  exists project,
    _compute_constraint_projector svd lstsq n mean = Ok project /\
    forall x, has_shape x n 1 ->
      exists y, call_projector project x = Ok y /\
                mm (constraint_matrix n) y = Ok (constraint_rhs mean).
Proof.
  intros Hsvd Hls Hcons. rewrite compute_constraint_projector_eq.
  eexists; split; [reflexivity|]. intros x Hx.
  destruct (svd (constraint_matrix n)) as [[U Sv] VT]. simpl.
  pose proof (has_shape_constraint_matrix n) as HA.
  pose proof (svd_VT_shape 2 n _ U VT Sv HA Hsvd) as HVT.
  pose proof (has_shape_kernel_projector n (length Sv) VT HVT) as HP.
  assert (Hv : has_shape (lstsq (constraint_matrix n) (constraint_rhs mean)) n 1)
    by apply Hls.
  rewrite (call_projector_eq n) by assumption.
  eexists; split; [reflexivity|].
  apply (mm_projected 2 n); trivial.
  - apply has_shape_constraint_rhs.
  - apply lstsq_solves; trivial. apply has_shape_constraint_rhs.
  - apply (A_kernel_projector 2 n _ U VT Sv HA Hsvd).
Qed.

Lemma project_satisfies_constraints_witness :
  exists project,
    _compute_constraint_projector svd_6 lstsq_6 6 (9 / 2) = Ok project /\
    forall x, has_shape x 6 1 ->
      exists y, call_projector project x = Ok y /\
                mm (constraint_matrix 6) y = Ok (constraint_rhs (9 / 2)).
Proof.
  apply (project_satisfies_constraints svd_6 lstsq_6 6 (9 / 2)).
  - exact svd_6_ok.
  - exact lstsq_6_spec.
  - apply constraint_system_consistent. lia.
Defined.

(** C3.  The projector is idempotent: projecting a projected column
    returns it unchanged.  This needs the orthonormality that the
    decomposition guarantees and the shape of the least-squares solution;
    neither the rank of [A] nor the consistency of the system is used. *)
Theorem project_idempotent svd lstsq n mean :
  svd_spec (constraint_matrix n) (svd (constraint_matrix n)) ->
  lstsq_shape (constraint_matrix n) (constraint_rhs mean)
              (lstsq (constraint_matrix n) (constraint_rhs mean)) ->
  exists project,
    _compute_constraint_projector svd lstsq n mean = Ok project /\
    forall x, has_shape x n 1 ->
      exists y, call_projector project x = Ok y /\
                call_projector project y = Ok y.
Proof.
  intros Hsvd Hv. rewrite compute_constraint_projector_eq.
  eexists; split; [reflexivity|]. intros x Hx.
  destruct (svd (constraint_matrix n)) as [[U Sv] VT]. simpl.
  pose proof (has_shape_constraint_matrix n) as HA.
  pose proof (svd_VT_shape 2 n _ U VT Sv HA Hsvd) as HVT.
  pose proof (has_shape_kernel_projector n (length Sv) VT HVT) as HP.
  rewrite (call_projector_eq n) by assumption.
  eexists; split; [reflexivity|].
  rewrite (call_projector_eq n); trivial using has_shape_projected.
  f_equal. apply projected_idempotent; trivial.
  apply kernel_projector_idempotent with (n := n); trivial.
  apply (svd_VT_rows 2 n _ U VT Sv HA Hsvd).
Qed.

Lemma project_idempotent_witness :
  exists project,
    _compute_constraint_projector svd_6 lstsq_6 6 (9 / 2) = Ok project /\
    forall x, has_shape x 6 1 ->
      exists y, call_projector project x = Ok y /\
                call_projector project y = Ok y.
Proof.
  apply (project_idempotent svd_6 lstsq_6 6 (9 / 2)).
  - exact svd_6_ok.
  - exact has_shape_v_6.
Defined.

(** C4.  The matrix [P = K K^T] that [_compute_constraint_projector]
    builds from the columns of [V] beyond the singular values is symmetric
    and idempotent, and [A P = 0]; the training loop never changes it. *)
Theorem kernel_projector_invariant svd lstsq n mean :
  svd_spec (constraint_matrix n) (svd (constraint_matrix n)) ->
  exists P v,
    _compute_constraint_projector svd lstsq n mean = Ok (mkProjector P v) /\
    transpose P = P /\
    mm P P = Ok P /\
    mm (constraint_matrix n) P = Ok (zeros 2 n) /\
    forall model lr k u model',
      __init__ svd lstsq n mean = Ok model ->
      training_loop k lr model = Ok (u, model') ->
      proj_P (constraint_projector model') = P.
Proof.
  intros Hsvd. rewrite compute_constraint_projector_eq.
  do 2 eexists; split; [reflexivity|].
  pose proof (init_eq svd lstsq n mean) as Hinit.
  destruct (svd (constraint_matrix n)) as [[U Sv] VT]. simpl in *.
  pose proof (has_shape_constraint_matrix n) as HA.
  pose proof (svd_VT_shape 2 n _ U VT Sv HA Hsvd) as HVT.
  repeat split.
  - now apply kernel_projector_symmetric with (n := n).
  - apply kernel_projector_idempotent with (n := n); trivial.
    apply (svd_VT_rows 2 n _ U VT Sv HA Hsvd).
  - apply (A_kernel_projector 2 n _ U VT Sv HA Hsvd).
  - intros model lr k u model' Hm Hloop. rewrite Hinit in Hm.
    injection Hm as <-. apply training_loop_frame in Hloop.
    destruct Hloop as (_ & _ & -> & _). reflexivity.
Qed.

Lemma kernel_projector_invariant_witness :
  exists P v,
    _compute_constraint_projector svd_6 lstsq_6 6 (9 / 2) =
      Ok (mkProjector P v) /\
    transpose P = P /\
    mm P P = Ok P /\
    mm (constraint_matrix 6) P = Ok (zeros 2 6) /\
    forall model lr k u model',
      __init__ svd_6 lstsq_6 6 (9 / 2) = Ok model ->
      training_loop k lr model = Ok (u, model') ->
      proj_P (constraint_projector model') = P.
Proof.
  apply (kernel_projector_invariant svd_6 lstsq_6 6 (9 / 2)).
  exact svd_6_ok.
Defined.

(** C5.  On a parameter with positive entries, back-propagation through
    [loss = -(-sum(p * log p))] followed by [optimizer.step()] leaves in
    [p.grad] the gradient [log p_i + 1] and in [p] the closed-form update
    [p_i - lr * (log p_i + 1)]; the notebook runs it with [lr = 1e-3]. *)
Theorem gradient_step_closed_form lr self :
  Forall (fun p_i => 0 < p_i) (p self) ->
  exists self',
    gradient_step lr self = Ok (tt, self') /\
    p_grad self' = Some (map (fun p_i => ln p_i + 1) (p self)) /\
    p self' = closed_form_update lr (p self).
Proof.
  intros Hpos. rewrite gradient_step_eq by assumption.
  eexists. split; [reflexivity|]. split; reflexivity.
Qed.

Lemma gradient_step_closed_form_witness :
  exists self',
    gradient_step (1 / 1000) dice_6 = Ok (tt, self') /\
    p_grad self' = Some (map (fun p_i => ln p_i + 1) (ones 6)) /\
    p self' = closed_form_update (1 / 1000) (ones 6).
Proof.
  apply (gradient_step_closed_form (1 / 1000) dice_6).
  unfold dice_6. cbn [p ones repeat]. repeat constructor; lra.
Defined.

(** C6, as the specification states it, fails on the one-faced die with
    target mean [9/2]: the rows of the constraint matrix are dependent and
    the system has no solution, the two primitives are within their
    contracts, and the construction returns a projector, the constant
    function [x |-> 11/4]. *)
Lemma construction_accepts_deficient_system :
  row_rank_deficient (constraint_matrix 1) /\
  ~ consistent (constraint_matrix 1) (constraint_rhs (9 / 2)) /\
  svd_spec (constraint_matrix 1) (svd_1 (constraint_matrix 1)) /\
  lstsq_spec (constraint_matrix 1) (constraint_rhs (9 / 2))
             (lstsq_1 (constraint_matrix 1) (constraint_rhs (9 / 2))) /\
  _compute_constraint_projector svd_1 lstsq_1 1 (9 / 2) =
    Ok (mkProjector (zeros 1 1) (mkTensor [[11 / 4]] 1)) /\
  ~ raises (_compute_constraint_projector svd_1 lstsq_1 1 (9 / 2)) /\
  forall x, call_projector (mkProjector (zeros 1 1) (mkTensor [[11 / 4]] 1))
                           (mkTensor [[x]] 1) = Ok (mkTensor [[11 / 4]] 1).
Proof.
  split; [exact constraint_matrix_1_deficient|].
  split; [exact constraint_system_1_inconsistent|].
  split; [exact svd_1_spec|].
  split; [exact lstsq_1_spec|].
  assert (E : _compute_constraint_projector svd_1 lstsq_1 1 (9 / 2) =
              Ok (mkProjector (zeros 1 1) (mkTensor [[11 / 4]] 1)))
    by (rewrite compute_constraint_projector_eq; reflexivity).
  split; [exact E|]. split.
  - rewrite E. unfold raises. discriminate.
  - intros x. unfold call_projector, sub, add, pointwise. simpl.
    tensor_compute. simpl. rows_eq. lra.
Qed.

(** C6, amended.  The construction never raises: whatever the number of
    faces and the target mean, and whatever the two primitives return,
    [_compute_constraint_projector] returns a projector and [__init__] a
    model; neither the rank of the constraint matrix nor the consistency
    of the system is examined. *)
Theorem construction_never_raises svd lstsq n mean :
  (exists project, _compute_constraint_projector svd lstsq n mean = Ok project) /\
  (exists model, __init__ svd lstsq n mean = Ok model /\
                 num_faces model = n /\ mean_constraint model = mean /\
                 p model = ones n).
Proof.
  split.
  - rewrite compute_constraint_projector_eq. eexists. reflexivity.
  - rewrite init_eq. eexists. split; [reflexivity|]. now repeat split.
Qed.

(** C7.  For six faces and target mean 4.5 the particular solution that
    the least-squares solve returns is [(12 i - 7) / 210], that is
    [(0.0238, 0.0810, 0.1381, 0.1952, 0.2524, 0.3095)] to four decimal
    places, and the projector maps it to itself. *)
Theorem six_faces_particular_solution svd lstsq :
  svd_shape (constraint_matrix 6) (svd (constraint_matrix 6)) ->
  lstsq_spec (constraint_matrix 6) (constraint_rhs (9 / 2))
             (lstsq (constraint_matrix 6) (constraint_rhs (9 / 2))) ->
  exists P v,
    _compute_constraint_projector svd lstsq 6 (9 / 2) = Ok (mkProjector P v) /\
    flatten v = [5 / 210; 17 / 210; 29 / 210; 41 / 210; 53 / 210; 65 / 210] /\
    Forall2 (fun v_i decimal => Rabs (v_i - decimal) <= 0.00005)
            (flatten v) [0.0238; 0.0810; 0.1381; 0.1952; 0.2524; 0.3095] /\
    call_projector (mkProjector P v) v = Ok v.
Proof.
  intros Hsvd Hls.
  assert (Ev : lstsq (constraint_matrix 6) (constraint_rhs (9 / 2)) = v_6).
  { apply (lstsq_unique 2 6 (constraint_matrix 6) (constraint_rhs (9 / 2)));
      trivial using has_shape_constraint_matrix, has_shape_constraint_rhs.
    exact lstsq_6_spec. }
  rewrite compute_constraint_projector_eq. do 2 eexists.
  split; [reflexivity|]. rewrite Ev.
  destruct (svd (constraint_matrix 6)) as [[U Sv] VT]. simpl in Hsvd.
  destruct Hsvd as [HVT _]. cbn [fst snd].
  split; [reflexivity|]. split.
  - simpl. repeat (apply Forall2_cons; [apply Rabs_le; split; lra|]).
    apply Forall2_nil.
  - pose proof (has_shape_kernel_projector 6 (length Sv) VT HVT) as HP.
    rewrite (call_projector_eq 6) by (trivial; exact has_shape_v_6).
    f_equal. apply projected_fixes_v. exact has_shape_v_6.
Qed.

Lemma six_faces_particular_solution_witness :
  exists P v,
    _compute_constraint_projector svd_6 lstsq_6 6 (9 / 2) =
      Ok (mkProjector P v) /\
    flatten v = [5 / 210; 17 / 210; 29 / 210; 41 / 210; 53 / 210; 65 / 210] /\
    Forall2 (fun v_i decimal => Rabs (v_i - decimal) <= 0.00005)
            (flatten v) [0.0238; 0.0810; 0.1381; 0.1952; 0.2524; 0.3095] /\
    call_projector (mkProjector P v) v = Ok v.
Proof.
  apply (six_faces_particular_solution svd_6 lstsq_6).
  - apply (svd_spec_shape _ U_6 _ S_6). exact svd_6_ok.
  - exact lstsq_6_spec.
Defined.

(** C8.  For two faces and target mean 1.5 the rows of the constraint
    matrix are independent and its kernel is trivial; the matrix [P] is
    zero; the particular solution is [(1/2, 1/2)]; the projector returns it
    whatever its argument; and after every pass through the loop the
    probability vector is [(1/2, 1/2)]. *)
Theorem two_faces_constant_projector svd lstsq lr :
  svd_shape (constraint_matrix 2) (svd (constraint_matrix 2)) ->
  lstsq_spec (constraint_matrix 2) (constraint_rhs (3 / 2))
             (lstsq (constraint_matrix 2) (constraint_rhs (3 / 2))) ->
  full_row_rank (constraint_matrix 2) /\
  (forall x, has_shape x 2 1 ->
             mm (constraint_matrix 2) x = Ok (zeros 2 1) -> x = zeros 2 1) /\
  exists v,
    _compute_constraint_projector svd lstsq 2 (3 / 2) =
      Ok (mkProjector (zeros 2 2) v) /\
    v = mkTensor [[1 / 2]; [1 / 2]] 1 /\
    (forall x, has_shape x 2 1 ->
               call_projector (mkProjector (zeros 2 2) v) x = Ok v) /\
    forall k, exists model,
      train svd lstsq 2 (3 / 2) lr (S k) = Ok model /\
      p model = [1 / 2; 1 / 2].
Proof.
  intros Hsvd Hls.
  split; [apply constraint_matrix_full_row_rank; lia|].
  split; [exact constraint_matrix_2_kernel|].
  assert (Ev : lstsq (constraint_matrix 2) (constraint_rhs (3 / 2)) =
               mkTensor [[1 / 2]; [1 / 2]] 1).
  { apply (lstsq_unique 2 2 (constraint_matrix 2) (constraint_rhs (3 / 2)));
      trivial using has_shape_constraint_matrix, has_shape_constraint_rhs.
    exact lstsq_2_spec. }
  assert (Hv : has_shape (mkTensor [[1 / 2]; [1 / 2]] 1) 2 1)
    by (repeat split; repeat constructor).
  eexists. unfold train.
  rewrite init_eq, compute_constraint_projector_eq.
  destruct (svd (constraint_matrix 2)) as [[U Sv] VT].
  simpl in Hsvd. cbn [fst snd bind].
  destruct Hsvd as [HVT HS].
  rewrite (kernel_projector_zero 2) by (trivial; rewrite HS; simpl; lia).
  rewrite Ev.
  split; [reflexivity|]. split; [reflexivity|]. split.
  - intros x Hx. rewrite (call_projector_eq 2); trivial.
    + now rewrite projected_zero.
    + apply has_shape_tabulate.
  - intros k.
    edestruct (constant_projector_loop lr k) as (self' & E & Hp);
      [| | | | rewrite E; exists self'; split; [reflexivity | exact Hp]].
    + unfold well_shaped; simpl. split; [|split]; trivial.
      apply has_shape_tabulate.
    + reflexivity.
    + simpl. repeat constructor; lra.
    + simpl. repeat constructor; lra.
Qed.

Lemma two_faces_constant_projector_witness :
  full_row_rank (constraint_matrix 2) /\
  (forall x, has_shape x 2 1 ->
             mm (constraint_matrix 2) x = Ok (zeros 2 1) -> x = zeros 2 1) /\
  exists v,
    _compute_constraint_projector svd_2 lstsq_2 2 (3 / 2) =
      Ok (mkProjector (zeros 2 2) v) /\
    v = mkTensor [[1 / 2]; [1 / 2]] 1 /\
    (forall x, has_shape x 2 1 ->
               call_projector (mkProjector (zeros 2 2) v) x = Ok v) /\
    forall k, exists model,
      train svd_2 lstsq_2 2 (3 / 2) (1 / 1000) (S k) = Ok model /\
      p model = [1 / 2; 1 / 2].
Proof.
  apply (two_faces_constant_projector svd_2 lstsq_2 (1 / 1000)).
  - apply (svd_spec_shape _ U_2 VT_2 S_2). exact svd_2_spec.
  - exact lstsq_2_spec.
Defined.

(** C9.  The notebook reads no input and draws no random number: its
    result is a function of [num_faces], [mean_constraint], the learning
    rate and the number of passes.  The only freedom is in what the two
    primitives return, a singular value decomposition being determined
    only up to the choice of the bases, and it does not show: two runs
    whose decompositions and least-squares solutions are within the
    contracts end with the same model, hence the same probability vector
    and the same entropy, after any number of passes. *)
Theorem training_deterministic svd lstsq svd' lstsq' n mean lr k :
  svd_spec (constraint_matrix n) (svd (constraint_matrix n)) ->
  svd_spec (constraint_matrix n) (svd' (constraint_matrix n)) ->
  lstsq_spec (constraint_matrix n) (constraint_rhs mean)
             (lstsq (constraint_matrix n) (constraint_rhs mean)) ->
  lstsq_spec (constraint_matrix n) (constraint_rhs mean)
             (lstsq' (constraint_matrix n) (constraint_rhs mean)) ->
  train svd lstsq n mean lr k = train svd' lstsq' n mean lr k /\
  entropy_of (train svd lstsq n mean lr k) =
  entropy_of (train svd' lstsq' n mean lr k).
Proof.
  intros H H' L L'.
  assert (E : train svd lstsq n mean lr k = train svd' lstsq' n mean lr k).
  { unfold train, __init__.
    now rewrite (compute_constraint_projector_unique svd lstsq svd' lstsq'). }
  split; [exact E | now rewrite E].
Qed.

Lemma training_deterministic_witness :
  train svd_6 lstsq_6 6 (9 / 2) (1 / 1000) 2000 =
  train svd_6_opposite lstsq_6 6 (9 / 2) (1 / 1000) 2000 /\
  entropy_of (train svd_6 lstsq_6 6 (9 / 2) (1 / 1000) 2000) =
  entropy_of (train svd_6_opposite lstsq_6 6 (9 / 2) (1 / 1000) 2000).
Proof.
  apply (training_deterministic svd_6 lstsq_6 svd_6_opposite lstsq_6).
  - exact svd_6_ok.
  - exact svd_6_opposite_ok.
  - exact lstsq_6_spec.
  - exact lstsq_6_spec.
Defined.

(** C10.  A call of [enforce_constraint] that returns has changed nothing
    but [p], whose length it keeps; a call of [forward] changes nothing;
    and on a model whose tensors have the shapes of [num_faces] the call of
    [enforce_constraint] does return, with [p] of length [num_faces]. *)
Theorem enforce_constraint_changes_only_p self :
  (forall u self',
     enforce_constraint self = Ok (u, self') ->
     num_faces self' = num_faces self /\
     mean_constraint self' = mean_constraint self /\
     constraint_projector self' = constraint_projector self /\
     p_grad self' = p_grad self /\
     length (p self') = length (p self)) /\
  (forall entropy self', forward self = Ok (entropy, self') -> self' = self) /\
  (well_shaped self ->
   exists self', enforce_constraint self = Ok (tt, self') /\
                 length (p self') = num_faces self').
Proof.
  split; [|split].
  - intros u self' H. apply enforce_constraint_frame in H.
    destruct H as [E L]. rewrite E at 1 2 3 4. simpl. auto.
  - apply forward_frame.
  - intros Hw. rewrite enforce_constraint_eq by assumption.
    eexists. split; [reflexivity|]. simpl.
    apply length_flatten_column, has_shape_projected.
Qed.

Lemma enforce_constraint_changes_only_p_witness :
  well_shaped dice_6 /\
  exists self', enforce_constraint dice_6 = Ok (tt, self') /\
                length (p self') = num_faces self'.
Proof.
  split; [exact dice_6_well_shaped|].
  exact (proj2 (proj2 (enforce_constraint_changes_only_p dice_6))
               dice_6_well_shaped).
Defined.

(** * Part V: further lemmas on the projector and on the loop *)

(** ** A symmetric idempotent matrix acting on vectors *)

Section SymmetricIdempotent.

Variables (n : nat) (P : Tensor).
Hypothesis P_sym :
  forall i j, (i < n)%nat -> (j < n)%nat -> entry P i j = entry P j i.
Hypothesis P_idem :
  forall i j, (i < n)%nat -> (j < n)%nat ->
    Rsum n (fun k => entry P i k * entry P k j) = entry P i j.

Lemma Pmul_self_adjoint x y :
  Rsum n (fun i => Pmul n P x i * y i) = Rsum n (fun i => x i * Pmul n P y i).
Proof.
  unfold Pmul.
  transitivity (Rsum n (fun i => Rsum n (fun k => entry P i k * x k * y i))).
  { apply Rsum_ext. intros i _. now rewrite Rsum_scal_r. }
  rewrite Rsum_swap. apply Rsum_ext. intros k Hk.
  rewrite <- Rsum_scal_l. apply Rsum_ext. intros i Hi.
  rewrite (P_sym i k) by assumption. ring.
Qed.

Lemma Pmul_idempotent x i :
  (i < n)%nat -> Pmul n P (Pmul n P x) i = Pmul n P x i.
Proof.
  intros Hi. unfold Pmul.
  transitivity (Rsum n (fun l =>
                  Rsum n (fun k => entry P i k * entry P k l) * x l)).
  - transitivity (Rsum n (fun k => Rsum n (fun l =>
                    entry P i k * entry P k l * x l))).
    { apply Rsum_ext. intros k _. rewrite <- Rsum_scal_l.
      apply Rsum_ext. intros l _. ring. }
    rewrite Rsum_swap. apply Rsum_ext. intros l _.
    now rewrite Rsum_scal_r.
  - apply Rsum_ext. intros l Hl. now rewrite P_idem.
Qed.

(** [x - P x] is orthogonal to the range of [P]. *)
Lemma Pmul_orthogonal x y :
  Rsum n (fun i => (x i - Pmul n P x i) * Pmul n P y i) = 0.
Proof.
  rewrite (Rsum_ext n _ (fun i => x i * Pmul n P y i -
                                  Pmul n P x i * Pmul n P y i))
    by (intros; ring).
  rewrite Rsum_minus.
  rewrite (Pmul_self_adjoint x (Pmul n P y)).
  rewrite (Rsum_ext n (fun i => x i * Pmul n P (Pmul n P y) i)
                      (fun i => x i * Pmul n P y i))
    by (intros; now rewrite Pmul_idempotent).
  ring.
Qed.

(** [|P x|^2 = <x, P x>]. *)
Lemma Pmul_norm x :
  Rsum n (fun i => Pmul n P x i * Pmul n P x i) =
  Rsum n (fun i => x i * Pmul n P x i).
Proof.
  rewrite (Pmul_self_adjoint x (Pmul n P x)).
  apply Rsum_ext. intros i Hi. now rewrite Pmul_idempotent.
Qed.

End SymmetricIdempotent.

(** ** The projector of the constraint system, entry by entry *)

Lemma constraint_projector_facts n U Sv VT :
  svd_spec (constraint_matrix n) (U, Sv, VT) ->
  projector_facts n (kernel_projector VT (length Sv)).
Proof.
  intros H.
  pose proof (has_shape_constraint_matrix n) as HA.
  pose proof (svd_VT_shape 2 n _ U VT Sv HA H) as HVT.
  pose proof (svd_VT_rows 2 n _ U VT Sv HA H) as Hrows.
  pose proof (has_shape_kernel_projector n (length Sv) VT HVT) as HP.
  constructor; trivial.
  - now apply kernel_projector_idempotent with (n := n).
  - apply (A_kernel_projector 2 n _ U VT Sv HA H).
  - intros i j Hi Hj.
    rewrite !(entry_kernel_projector n _ VT HVT) by assumption.
    apply Rsum_ext. intros; ring.
  - intros i j Hi Hj.
    pose proof (kernel_projector_idempotent n (length Sv) VT HVT Hrows) as E.
    apply mm_inv in E. destruct E as [_ E].
    assert (E' := f_equal (fun T => entry T i j) E). cbv beta in E'.
    destruct HP as (_ & Hr & Hc).
    rewrite entry_mm_raw in E' by lia. rewrite Hc in E'. now symmetry.
  - intros i j Hi Hj.
    pose proof (A_kernel_projector 2 n _ U VT Sv HA H) as Z.
    apply mm_inv in Z. destruct Z as [_ Z].
    assert (E := f_equal (fun T => entry T i j) Z). cbv beta in E.
    unfold zeros in E. rewrite entry_tabulate in E by assumption.
    destruct HA as (_ & HAr & HAc). destruct HP as (_ & Hr & Hc).
    rewrite entry_mm_raw in E by lia. rewrite HAc in E. now symmetry.
  - intros x Hx i Hi. destruct (Nat.lt_ge_cases n 2) as [Hn|Hn].
    + (* a single face: the kernel is trivial *)
      assert (i = 0%nat) as -> by lia. assert (n = 1%nat) as -> by lia.
      pose proof (Hx 0%nat ltac:(lia)) as E. simpl in E.
      rewrite entry_constraint_matrix_0 in E by lia.
      pose proof (svd_length 2 1 _ U VT Sv HA H) as Hs.
      rewrite (kernel_projector_zero 1) by (trivial; rewrite Hs; simpl; lia).
      unfold Pmul, zeros. simpl. rewrite entry_tabulate by lia. lra.
    + apply (kernel_projector_fixes_kernel 2 n _ U VT Sv HA H); trivial.
      intros a. now apply (constraint_singular_values n U Sv VT a).
Qed.

Lemma entry_projected_Pmul n P v x i :
  (i < n)%nat ->
  entry (projected n P v x) i 0 =
  entry v i 0 + Pmul n P (fun k => entry x k 0 - entry v k 0) i.
Proof. apply entry_projected. Qed.

(** The rows of [A v = b] as sums. *)
Lemma mm_rows_column m n A x b i :
  has_shape A m n -> has_shape x n 1 -> mm A x = Ok b -> (i < m)%nat ->
  Rsum n (fun k => entry A i k * entry x k 0) = entry b i 0.
Proof.
  intros (_ & HAr & HAc) (_ & Hxr & Hxc) H Hi.
  apply mm_inv in H. destruct H as [_ ->].
  rewrite entry_mm_raw by lia. now rewrite HAc.
Qed.

(** The least-squares solution of least norm has no component in the
    range of [P]: it lies in the row space of [A]. *)
Lemma lstsq_orthogonal_to_kernel n mean P v :
  projector_facts n P ->
  lstsq_spec (constraint_matrix n) (constraint_rhs mean) v ->
  forall i, (i < n)%nat -> Pmul n P (fun k => entry v k 0) i = 0.
Proof.
  intros F (Hv & _ & Hnorm).
  pose proof (has_shape_constraint_matrix n) as HA.
  pose proof (has_shape_constraint_rhs mean) as Hb.
  change (ncols (constraint_matrix n)) with n in Hv, Hnorm.
  change (ncols (constraint_rhs mean)) with 1%nat in Hv, Hnorm.
  set (vv := fun k => entry v k 0).
  set (u := tabulate n 1 (fun i _ => vv i - Pmul n P vv i)).
  assert (Hu : has_shape u n 1) by apply has_shape_tabulate.
  assert (Eu : forall k, (k < n)%nat -> entry u k 0 = vv k - Pmul n P vv k)
    by (intros; unfold u; now rewrite entry_tabulate by lia).
  assert (Er : forall i, (i < 2)%nat ->
            resid n (constraint_matrix n) (constraint_rhs mean) u i =
            resid n (constraint_matrix n) (constraint_rhs mean) v i).
  { intros i Hi. unfold resid. f_equal.
    rewrite (Rsum_ext n _ (fun k =>
               entry (constraint_matrix n) i k * vv k -
               entry (constraint_matrix n) i k * Pmul n P vv k))
      by (intros k Hk; rewrite Eu by assumption; ring).
    rewrite Rsum_minus.
    assert (Z : Rsum n (fun k => entry (constraint_matrix n) i k *
                                 Pmul n P vv k) = 0).
    { unfold Pmul.
      transitivity (Rsum n (fun l => Rsum n (fun k =>
                      entry (constraint_matrix n) i k * entry P k l) * vv l)).
      - transitivity (Rsum n (fun k => Rsum n (fun l =>
                        entry (constraint_matrix n) i k * entry P k l * vv l))).
        { apply Rsum_ext. intros k _. rewrite <- Rsum_scal_l.
          apply Rsum_ext. intros l _. ring. }
        rewrite Rsum_swap. apply Rsum_ext. intros l _.
        now rewrite Rsum_scal_r.
      - apply Rsum_zero. intros l Hl.
        rewrite (pf_kernel n P F) by assumption. ring. }
    rewrite Z. unfold vv. ring. }
  assert (Rle : residual (constraint_matrix n) (constraint_rhs mean) u <=
                residual (constraint_matrix n) (constraint_rhs mean) v).
  { rewrite !(residual_column 2 n _ _ HA) by assumption.
    right. apply Rsum_ext. intros i Hi. now rewrite Er. }
  pose proof (Hnorm u Hu Rle) as N.
  rewrite !(sumsq_column n) in N by assumption.
  rewrite (Rsum_ext n (fun k => entry u k 0 * entry u k 0)
             (fun k => vv k * vv k - 2 * (vv k * Pmul n P vv k) +
                       Pmul n P vv k * Pmul n P vv k)) in N
    by (intros k Hk; rewrite Eu by assumption; ring).
  rewrite Rsum_plus, Rsum_minus, Rsum_scal_l in N.
  rewrite <- (Pmul_norm n P (pf_sym n P F) (pf_idem n P F) vv) in N.
  change (fun k => entry v k 0 * entry v k 0)
    with (fun k => vv k * vv k) in N.
  intros i Hi.
  assert (Q : Pmul n P vv i * Pmul n P vv i = 0).
  { apply (Rsum_nonneg_zero n (fun i => Pmul n P vv i * Pmul n P vv i));
      trivial; [intros; apply Rle_0_sqr | lra]. }
  apply Rmult_integral in Q. now destruct Q.
Qed.


(** ** Lists and finite sums *)

Lemma Rsum_shift n f : Rsum (S n) f = f 0%nat + Rsum n (fun k => f (S k)).
Proof.
  change (S n) with (1 + n)%nat. rewrite Rsum_app. simpl. ring.
Qed.

Lemma Rlist_sum_Rsum q : Rlist_sum q = Rsum (length q) (fun k => nth k q 0).
Proof.
  induction q as [|x q IH]; [reflexivity|].
  simpl length. rewrite Rsum_shift. simpl. now rewrite IH.
Qed.

Lemma nth_zip_with op a b k :
  (k < length a)%nat -> (k < length b)%nat ->
  nth k (zip_with op a b) 0 = op (nth k a 0) (nth k b 0).
Proof.
  revert b k. induction a as [|x a IH]; intros [|y b] [|k]; simpl;
    try lia; trivial.
  intros. apply IH; lia.
Qed.

Lemma nth_arange lo hi k :
  (k < hi - lo)%nat -> nth k (arange lo hi) 0 = INR (lo + k).
Proof.
  intros H. unfold arange.
  rewrite (nth_indep _ 0 (INR 0)) by now rewrite length_map, length_seq.
  rewrite map_nth. now rewrite seq_nth.
Qed.

Lemma nth_flatten_column T n k :
  has_shape T n 1 -> nth k (flatten T) 0 = entry T k 0.
Proof.
  intros H. rewrite <- entry_reshape_col.
  now rewrite (reshape_col_flatten T n).
Qed.

(** The two constraints on a list of [n] numbers, as the rows of
    [A q = b]. *)
Lemma constraint_rows n mean q :
  length q = n ->
  mm (constraint_matrix n) (reshape_col q) = Ok (constraint_rhs mean) ->
  Rlist_sum q = 1 /\
  Rlist_sum (zip_with Rmult (arange 1 (n + 1)) q) = mean.
Proof.
  intros Hq H.
  assert (Hx : has_shape (reshape_col q) n 1)
    by (rewrite <- Hq; apply has_shape_reshape_col).
  pose proof (has_shape_constraint_matrix n) as HA.
  pose proof (mm_rows_column 2 n _ _ _ 0%nat HA Hx H ltac:(lia)) as R0.
  pose proof (mm_rows_column 2 n _ _ _ 1%nat HA Hx H ltac:(lia)) as R1.
  assert (La : length (arange 1 (n + 1)) = n)
    by (unfold arange; rewrite length_map, length_seq; lia).
  split.
  - rewrite Rlist_sum_Rsum, Hq.
    transitivity (entry (constraint_rhs mean) 0 0); [|reflexivity].
    rewrite <- R0. apply Rsum_ext. intros k Hk.
    rewrite entry_constraint_matrix_0, entry_reshape_col by assumption. ring.
  - rewrite Rlist_sum_Rsum.
    assert (Lz : length (zip_with Rmult (arange 1 (n + 1)) q) = n)
      by (rewrite length_zip_with; congruence).
    rewrite Lz.
    transitivity (entry (constraint_rhs mean) 1 0); [|reflexivity].
    rewrite <- R1. apply Rsum_ext. intros k Hk.
    rewrite nth_zip_with by lia. rewrite nth_arange by lia.
    rewrite entry_constraint_matrix_1, entry_reshape_col by assumption.
    now rewrite Nat.add_comm.
Qed.

(** ** The projector of the constructor, acting on columns *)

Lemma Pmul_minus n P x y i :
  Pmul n P (fun k => x k - y k) i = Pmul n P x i - Pmul n P y i.
Proof.
  unfold Pmul. rewrite <- Rsum_minus. apply Rsum_ext. intros; ring.
Qed.

Lemma Pmul_scal n P c x i :
  Pmul n P (fun k => c * x k) i = c * Pmul n P x i.
Proof.
  unfold Pmul. rewrite <- Rsum_scal_l. apply Rsum_ext. intros; ring.
Qed.

(** [P] annihilates the rows of the constraint matrix. *)
Lemma Pmul_row n P r i :
  projector_facts n P -> (r < 2)%nat -> (i < n)%nat ->
  Pmul n P (fun k => entry (constraint_matrix n) r k) i = 0.
Proof.
  intros F Hr Hi. unfold Pmul. rewrite <- (pf_kernel n P F r i Hr Hi).
  apply Rsum_ext. intros k Hk. rewrite (pf_sym n P F i k Hi Hk). ring.
Qed.

Lemma Pmul_constant n P c i :
  projector_facts n P -> (i < n)%nat -> Pmul n P (fun _ => c) i = 0.
Proof.
  intros F Hi.
  rewrite <- (Rmult_0_r c), <- (Pmul_row n P 0 i F ltac:(lia) Hi).
  rewrite <- Pmul_scal. unfold Pmul. apply Rsum_ext. intros k Hk.
  rewrite entry_constraint_matrix_0 by assumption. ring.
Qed.

Section ConstraintProjector.

Variables (n : nat) (mean : R) (P v : Tensor).
Hypothesis P_facts : projector_facts n P.
Hypothesis v_spec : lstsq_spec (constraint_matrix n) (constraint_rhs mean) v.

Lemma particular_shape : has_shape v n 1.
Proof. apply v_spec. Qed.

(** Since [P v = 0], the projector is [x |-> v + P x]. *)
Lemma entry_projected_affine x i :
  (i < n)%nat ->
  entry (projected n P v x) i 0 =
  entry v i 0 + Pmul n P (fun k => entry x k 0) i.
Proof.
  intros Hi. rewrite entry_projected_Pmul by assumption.
  rewrite Pmul_minus.
  rewrite (lstsq_orthogonal_to_kernel n mean P v P_facts v_spec i Hi). ring.
Qed.

Lemma projected_constant c : projected n P v (reshape_col (repeat c n)) = v.
Proof.
  pose proof particular_shape as Hv.
  destruct (has_shape_projected n P v (reshape_col (repeat c n)))
    as (Hw & Hr & Hc).
  destruct Hv as (Hvw & Hvr & Hvc).
  apply tensor_ext; trivial; try congruence.
  intros i j Hi Hj. rewrite Hr in Hi. rewrite Hc in Hj.
  assert (j = 0%nat) as -> by lia.
  rewrite entry_projected_affine by assumption.
  assert (E : Pmul n P (fun k => entry (reshape_col (repeat c n)) k 0) i =
              Pmul n P (fun _ => c) i).
  { unfold Pmul. apply Rsum_ext. intros k Hk. rewrite entry_reshape_col.
    now rewrite nth_repeat_lt. }
  rewrite E, Pmul_constant by assumption. ring.
Qed.

Lemma particular_solves :
  consistent (constraint_matrix n) (constraint_rhs mean) ->
  mm (constraint_matrix n) v = Ok (constraint_rhs mean).
Proof.
  intros C. apply lstsq_solves; trivial. apply has_shape_constraint_rhs.
Qed.

Lemma projected_feasible x :
  consistent (constraint_matrix n) (constraint_rhs mean) ->
  mm (constraint_matrix n) (projected n P v x) = Ok (constraint_rhs mean).
Proof.
  intros C. apply (mm_projected 2 n).
  - apply has_shape_constraint_matrix.
  - apply P_facts.
  - apply particular_shape.
  - apply has_shape_constraint_rhs.
  - now apply particular_solves.
  - apply P_facts.
Qed.

(** The difference of a solution and [v] lies in the kernel of [A], where
    [P] is the identity. *)
Lemma Pmul_solution_minus_particular x i :
  has_shape x n 1 ->
  mm (constraint_matrix n) x = Ok (constraint_rhs mean) -> (i < n)%nat ->
  Pmul n P (fun k => entry x k 0 - entry v k 0) i = entry x i 0 - entry v i 0.
Proof.
  intros Hx Ex Hi.
  assert (C : consistent (constraint_matrix n) (constraint_rhs mean))
    by (exists x; split; trivial).
  pose proof (has_shape_constraint_matrix n) as HA.
  apply (pf_fix n P P_facts); trivial.
  intros r Hr.
  rewrite (Rsum_ext n _ (fun k =>
             entry (constraint_matrix n) r k * entry x k 0 -
             entry (constraint_matrix n) r k * entry v k 0))
    by (intros; ring).
  rewrite Rsum_minus.
  rewrite (mm_rows_column 2 n _ x (constraint_rhs mean) r HA Hx Ex Hr).
  rewrite (mm_rows_column 2 n _ v (constraint_rhs mean) r HA particular_shape
             (particular_solves C) Hr).
  ring.
Qed.

Lemma projected_fixes_solutions x :
  has_shape x n 1 ->
  mm (constraint_matrix n) x = Ok (constraint_rhs mean) ->
  projected n P v x = x.
Proof.
  intros Hx Ex.
  destruct (has_shape_projected n P v x) as (Hw & Hr & Hc).
  destruct Hx as (Hxw & Hxr & Hxc).
  apply tensor_ext; trivial; try congruence.
  intros i j Hi Hj. rewrite Hr in Hi. rewrite Hc in Hj.
  assert (j = 0%nat) as -> by lia.
  rewrite entry_projected_Pmul by assumption.
  rewrite Pmul_solution_minus_particular; trivial; [ring | now split].
Qed.

(** Pythagoras: the displacement [x - project x] is orthogonal to the
    solution set. *)
Lemma projected_pythagoras x y :
  has_shape y n 1 ->
  mm (constraint_matrix n) y = Ok (constraint_rhs mean) ->
  sqdist n x y = sqdist n x (projected n P v x) + sqdist n (projected n P v x) y.
Proof.
  intros Hy Ey. unfold sqdist.
  set (z := fun k => entry x k 0 - entry v k 0).
  set (w := fun k => entry x k 0 - entry y k 0).
  assert (Ea : forall k, (k < n)%nat ->
            entry x k 0 - entry (projected n P v x) k 0 = z k - Pmul n P z k).
  { intros k Hk. rewrite entry_projected_Pmul by assumption. unfold z. ring. }
  assert (Eb : forall k, (k < n)%nat ->
            entry (projected n P v x) k 0 - entry y k 0 = Pmul n P w k).
  { intros k Hk. rewrite entry_projected_Pmul by assumption.
    pose proof (Pmul_solution_minus_particular y k Hy Ey Hk) as E.
    rewrite Pmul_minus in E.
    unfold w. rewrite !Pmul_minus. lra. }
  rewrite (Rsum_ext n (fun k => (entry x k 0 - entry y k 0) *
                                (entry x k 0 - entry y k 0))
             (fun k => (z k - Pmul n P z k) * (z k - Pmul n P z k) +
                       Pmul n P w k * Pmul n P w k +
                       2 * ((z k - Pmul n P z k) * Pmul n P w k))).
  2:{ intros k Hk.
      replace (entry x k 0 - entry y k 0)
        with ((entry x k 0 - entry (projected n P v x) k 0) +
              (entry (projected n P v x) k 0 - entry y k 0)) by ring.
      rewrite Ea, Eb by assumption. ring. }
  rewrite !Rsum_plus, Rsum_scal_l.
  rewrite (Pmul_orthogonal n P (pf_sym n P P_facts) (pf_idem n P P_facts)).
  rewrite Rmult_0_r, Rplus_0_r. f_equal; apply Rsum_ext; intros k Hk.
  - now rewrite Ea.
  - now rewrite Eb.
Qed.

End ConstraintProjector.

(** ** States of the loop *)

Lemma carries_well_shaped n P v self :
  has_shape P n n -> has_shape v n 1 -> carries n P v self -> well_shaped self.
Proof.
  intros HP Hv (Hn & Hc & Hl). unfold well_shaped. rewrite Hc, Hn. simpl.
  now split; [|split].
Qed.

Lemma init_carries svd lstsq n mean :
  exists model,
    __init__ svd lstsq n mean = Ok model /\
    p model = ones n /\
    carries n (kernel_projector (snd (svd (constraint_matrix n)))
                 (length (snd (fst (svd (constraint_matrix n))))))
              (lstsq (constraint_matrix n) (constraint_rhs mean)) model.
Proof.
  rewrite init_eq. eexists. split; [reflexivity|]. split; [reflexivity|].
  unfold carries. simpl. split; [|split]; trivial. apply repeat_length.
Qed.

Lemma not_positive_forallb q :
  ~ Forall (fun x => 0 < x) q -> forallb positive q = false.
Proof.
  intros H. destruct (forallb positive q) eqn:E; trivial.
  exfalso. apply H. now apply forallb_positive.
Qed.

(** A pass that meets an entry that is not positive ends in [NotReal],
    at the logarithm of [forward]. *)
Lemma iteration_not_real lr self :
  ~ Forall (fun x => 0 < x) (p self) -> iteration lr self = NotReal.
Proof.
  intros H. unfold iteration, gradient_step, zero_grad, forward, torch_log.
  simpl. now rewrite (not_positive_forallb _ H).
Qed.

Lemma iteration_carries lr n P v self :
  has_shape P n n -> has_shape v n 1 -> carries n P v self ->
  Forall (fun x => 0 < x) (p self) ->
  exists self',
    iteration lr self = Ok (tt, self') /\
    carries n P v self' /\
    p self' =
    flatten (projected n P v (reshape_col (closed_form_update lr (p self)))).
Proof.
  intros HP Hv C Hpos.
  rewrite iteration_eq; trivial; [|now apply (carries_well_shaped n P v)].
  destruct C as (Hn & Hc & Hl). rewrite Hc, Hn. simpl.
  eexists. split; [reflexivity|]. split; [|reflexivity].
  unfold carries. simpl. split; [|split]; trivial.
  apply length_flatten_column. apply has_shape_projected.
Qed.

Lemma training_loop_S k lr self :
  training_loop (S k) lr self =
  ('(_, s) <- iteration lr self ;; training_loop k lr s).
Proof. reflexivity. Qed.

Lemma training_loop_no_runtime_error lr n P v k : forall self,
  has_shape P n n -> has_shape v n 1 -> carries n P v self ->
  training_loop k lr self <> RuntimeError.
Proof.
  induction k as [|k IH]; intros self HP Hv C; [discriminate|].
  rewrite training_loop_S.
  destruct (forallb positive (p self)) eqn:E.
  - apply forallb_positive in E.
    destruct (iteration_carries lr n P v self HP Hv C E) as (s & -> & Cs & _).
    cbn [bind]. now apply IH.
  - rewrite iteration_not_real; [discriminate|].
    intros H. apply forallb_positive in H. congruence.
Qed.

Section LoopInvariant.

Variables (n : nat) (mean : R) (P v : Tensor).
Hypothesis P_facts : projector_facts n P.
Hypothesis v_spec : lstsq_spec (constraint_matrix n) (constraint_rhs mean) v.

Lemma iteration_inv lr self u self' :
  carries n P v self -> iteration lr self = Ok (u, self') ->
  carries n P v self' /\
  Forall (fun x => 0 < x) (p self) /\
  p self' =
  flatten (projected n P v (reshape_col (closed_form_update lr (p self)))).
Proof.
  intros C E.
  assert (Hpos : Forall (fun x => 0 < x) (p self)).
  { unfold iteration in E.
    destruct (gradient_step lr self) as [r| |] eqn:G; try discriminate.
    apply (gradient_step_positive _ _ _ G). }
  destruct (iteration_carries lr n P v self (pf_shape n P P_facts)
              (particular_shape n mean v v_spec) C Hpos) as (s & Es & Cs & Ep).
  rewrite Es in E. injection E as _ <-. now split; [|split].
Qed.

(** The first pass starts from a constant vector, which the projector
    sends to [v]. *)
Lemma first_pass lr self :
  carries n P v self -> p self = ones n ->
  exists self',
    iteration lr self = Ok (tt, self') /\ carries n P v self' /\
    p self' = flatten v.
Proof.
  intros C Hp.
  assert (Hpos : Forall (fun x => 0 < x) (p self)).
  { rewrite Hp. unfold ones. apply Forall_forall. intros x Hx.
    apply repeat_spec in Hx. subst. lra. }
  destruct (iteration_carries lr n P v self (pf_shape n P P_facts)
              (particular_shape n mean v v_spec) C Hpos) as (s & Es & Cs & Ep).
  exists s. split; [|split]; trivial.
  rewrite Ep, Hp. unfold closed_form_update, ones. rewrite map_repeat.
  now rewrite (projected_constant n mean P v P_facts v_spec).
Qed.

Lemma training_loop_feasible lr k : forall self u self',
  consistent (constraint_matrix n) (constraint_rhs mean) ->
  carries n P v self ->
  training_loop (S k) lr self = Ok (u, self') ->
  carries n P v self' /\
  mm (constraint_matrix n) (reshape_col (p self')) = Ok (constraint_rhs mean).
Proof.
  induction k as [|k IH]; intros self u self' Cons C E;
    rewrite training_loop_S in E;
    destruct (iteration lr self) as [[u1 s1]| |] eqn:E1; try discriminate;
    cbn [bind] in E;
    destruct (iteration_inv lr self u1 s1 C E1) as (C1 & _ & Ep).
  - simpl in E. injection E as _ <-. split; trivial.
    rewrite Ep, (reshape_col_flatten _ n) by apply has_shape_projected.
    now apply (projected_feasible n mean P v P_facts v_spec).
  - now apply (IH s1 u self').
Qed.

End LoopInvariant.

(** ** The least-squares solution in closed form *)

Lemma Rsum_const n c : Rsum n (fun _ => c) = INR n * c.
Proof.
  induction n as [|n IH]; [simpl; ring|].
  cbn [Rsum]. rewrite IH, S_INR. ring.
Qed.

Lemma Rsum_faces n : 2 * Rsum n (fun k => INR (k + 1)) = INR n * (INR n + 1).
Proof.
  induction n as [|n IH]; [simpl; ring|].
  cbn [Rsum]. rewrite Rmult_plus_distr_l, IH.
  rewrite Nat.add_1_r, !S_INR. ring.
Qed.

Lemma Rsum_faces_sqr n :
  6 * Rsum n (fun k => INR (k + 1) * INR (k + 1)) =
  INR n * (INR n + 1) * (2 * INR n + 1).
Proof.
  induction n as [|n IH]; [simpl; ring|].
  cbn [Rsum]. rewrite Rmult_plus_distr_l, IH.
  rewrite Nat.add_1_r, !S_INR. ring.
Qed.

Lemma INR_faces_pos n : (2 <= n)%nat -> 2 <= INR n.
Proof. intros H. apply le_INR in H. simpl in H. lra. Qed.

Lemma particular_solution_rows n mean :
  (2 <= n)%nat ->
  Rsum n (fun k => entry (particular_solution n mean) k 0) = 1 /\
  Rsum n (fun k => INR (k + 1) * entry (particular_solution n mean) k 0) = mean.
Proof.
  intros Hn. pose proof (INR_faces_pos n Hn) as HN.
  pose proof (Rsum_faces n) as S1. pose proof (Rsum_faces_sqr n) as S2.
  set (N := INR n) in *. set (w := particular_slope n mean).
  assert (Hw : w * (N * (N * N - 1)) = 12 * (mean - (N + 1) / 2)).
  { unfold w, particular_slope. fold N. field. split; nra. }
  split.
  - rewrite (Rsum_ext n _ (fun k => (/ N - w * ((N + 1) / 2)) + w * INR (k + 1))).
    2:{ intros k Hk. unfold particular_solution.
        rewrite entry_tabulate by lia. fold N w. ring. }
    rewrite Rsum_plus, Rsum_const, Rsum_scal_l. fold N.
    set (s1 := Rsum n (fun k => INR (k + 1))) in *.
    assert (s1 = N * (N + 1) / 2) as -> by lra. field. lra.
  - rewrite (Rsum_ext n _ (fun k => (/ N - w * ((N + 1) / 2)) * INR (k + 1) +
                                    w * (INR (k + 1) * INR (k + 1)))).
    2:{ intros k Hk. unfold particular_solution.
        rewrite entry_tabulate by lia. fold N w. ring. }
    rewrite Rsum_plus, !Rsum_scal_l.
    set (s1 := Rsum n (fun k => INR (k + 1))) in *.
    set (s2 := Rsum n (fun k => INR (k + 1) * INR (k + 1))) in *.
    assert (s1 = N * (N + 1) / 2) as -> by lra.
    assert (s2 = N * (N + 1) * (2 * N + 1) / 6) as -> by lra.
    assert (E : w * (N * (N + 1) * (N - 1)) = 12 * (mean - (N + 1) / 2))
      by (rewrite <- Hw; ring).
    transitivity ((N + 1) / 2 + (w * (N * (N + 1) * (N - 1))) / 12);
      [field; lra|].
    rewrite E. field.
Qed.

Lemma Rsum_two f : Rsum 2 f = f 0%nat + f 1%nat.
Proof. simpl. ring. Qed.

Lemma particular_solution_spec n mean :
  (2 <= n)%nat ->
  lstsq_spec (constraint_matrix n) (constraint_rhs mean)
             (particular_solution n mean).
Proof.
  intros Hn. destruct (particular_solution_rows n mean Hn) as [R0 R1].
  apply (lstsq_spec_intro 2 n) with
    (w := fun i => match i with
                   | O => / INR n - particular_slope n mean * ((INR n + 1) / 2)
                   | _ => particular_slope n mean
                   end).
  - apply has_shape_constraint_matrix.
  - apply has_shape_constraint_rhs.
  - apply has_shape_tabulate.
  - assert (Z : forall i, (i < 2)%nat ->
              resid n (constraint_matrix n) (constraint_rhs mean)
                    (particular_solution n mean) i = 0).
    { intros i Hi. unfold resid.
      destruct i as [|[|i]]; [| |lia].
      - rewrite (Rsum_ext n _ (fun k => entry (particular_solution n mean) k 0))
          by (intros k Hk; rewrite entry_constraint_matrix_0 by assumption;
              ring).
        rewrite R0. unfold constraint_rhs, column2, entry. simpl. ring.
      - rewrite (Rsum_ext n _ (fun k => INR (k + 1) *
                                        entry (particular_solution n mean) k 0))
          by (intros k Hk; now rewrite entry_constraint_matrix_1 by assumption).
        rewrite R1. unfold constraint_rhs, column2, entry. simpl. ring. }
    intros k Hk. apply Rsum_zero. intros i Hi. rewrite Z by assumption. ring.
  - intros k Hk. rewrite Rsum_two.
    rewrite entry_constraint_matrix_0, entry_constraint_matrix_1 by assumption.
    unfold particular_solution. rewrite entry_tabulate by lia. ring.
Qed.

(** Whatever the least-squares primitive returns within its contract is
    this solution. *)
Lemma lstsq_particular_solution n mean v :
  (2 <= n)%nat ->
  lstsq_spec (constraint_matrix n) (constraint_rhs mean) v ->
  v = particular_solution n mean.
Proof.
  intros Hn Hv.
  apply (lstsq_unique 2 n (constraint_matrix n) (constraint_rhs mean));
    trivial.
  - apply has_shape_constraint_matrix.
  - apply has_shape_constraint_rhs.
  - now apply particular_solution_spec.
Qed.

(** The smallest entry of [v] is the first or the last one: [v] is
    positive exactly when the mean lies strictly between a third and two
    thirds of [n + 1]. *)
Lemma particular_solution_first n mean :
  (2 <= n)%nat ->
  entry (particular_solution n mean) 0 0 =
  2 * (2 * (INR n + 1) - 3 * mean) / (INR n * (INR n + 1)).
Proof.
  intros Hn. pose proof (INR_faces_pos n Hn) as HN.
  unfold particular_solution. rewrite entry_tabulate by lia.
  unfold particular_slope. simpl (INR (0 + 1)). field. repeat split; nra.
Qed.

Lemma particular_solution_last n mean :
  (2 <= n)%nat ->
  entry (particular_solution n mean) (n - 1) 0 =
  2 * (3 * mean - (INR n + 1)) / (INR n * (INR n + 1)).
Proof.
  intros Hn. pose proof (INR_faces_pos n Hn) as HN.
  unfold particular_solution. rewrite entry_tabulate by lia.
  replace (n - 1 + 1)%nat with n by lia.
  unfold particular_slope. field. repeat split; nra.
Qed.

Lemma particular_solution_positive n mean :
  (2 <= n)%nat ->
  (INR n + 1) / 3 < mean < 2 * (INR n + 1) / 3 ->
  Forall (fun x => 0 < x) (flatten (particular_solution n mean)).
Proof.
  intros Hn [Hlo Hhi]. pose proof (INR_faces_pos n Hn) as HN.
  unfold particular_solution. rewrite flatten_column.
  apply Forall_forall. intros x Hx. apply in_map_iff in Hx.
  destruct Hx as (k & <- & Hk). apply in_seq in Hk.
  assert (Hk1 : 1 <= INR (k + 1) <= INR n).
  { split; [change 1 with (INR 1)|]; apply le_INR; lia. }
  set (N := INR n) in *. set (t := INR (k + 1)) in *.
  unfold particular_slope. fold N.
  assert (HD : 0 < N * (N * N - 1)) by nra.
  replace (/ N + 12 * (mean - (N + 1) / 2) / (N * (N * N - 1)) *
                 (t - (N + 1) / 2))
    with ((N * N - 1 + 12 * (mean - (N + 1) / 2) * (t - (N + 1) / 2)) /
          (N * (N * N - 1))) by (field; split; nra).
  apply Rdiv_lt_0_compat; trivial.
  (* an affine function of [t] on [1, N], positive at both ends *)
  assert (E1 : 0 < N * N - 1 + 12 * (mean - (N + 1) / 2) * (1 - (N + 1) / 2))
    by nra.
  assert (E2 : 0 < N * N - 1 + 12 * (mean - (N + 1) / 2) * (N - (N + 1) / 2))
    by nra.
  destruct (Rle_lt_dec ((N + 1) / 2) mean); nra.
Qed.

Lemma particular_solution_not_positive n mean :
  (2 <= n)%nat ->
  mean <= (INR n + 1) / 3 \/ 2 * (INR n + 1) / 3 <= mean ->
  ~ Forall (fun x => 0 < x) (flatten (particular_solution n mean)).
Proof.
  intros Hn Hm Hpos. pose proof (INR_faces_pos n Hn) as HN.
  assert (Hs : has_shape (particular_solution n mean) n 1)
    by apply has_shape_tabulate.
  assert (Hall : forall k, (k < n)%nat ->
            0 < entry (particular_solution n mean) k 0).
  { intros k Hk. rewrite <- (nth_flatten_column _ n) by assumption.
    rewrite Forall_forall in Hpos. apply Hpos. apply nth_In.
    now rewrite (length_flatten_column _ n). }
  assert (HD : 0 < INR n * (INR n + 1)) by nra.
  destruct Hm as [Hm|Hm].
  - pose proof (Hall (n - 1)%nat ltac:(lia)) as H.
    rewrite particular_solution_last in H by assumption.
    assert (2 * (3 * mean - (INR n + 1)) / (INR n * (INR n + 1)) <= 0); [|lra].
    pose proof (Rinv_0_lt_compat _ HD). unfold Rdiv. nra.
  - pose proof (Hall 0%nat ltac:(lia)) as H.
    rewrite particular_solution_first in H by assumption.
    assert (2 * (2 * (INR n + 1) - 3 * mean) / (INR n * (INR n + 1)) <= 0);
      [|lra].
    pose proof (Rinv_0_lt_compat _ HD). unfold Rdiv. nra.
Qed.

(** ** The logarithm on positive numbers *)

Lemma ln_le_sub1 x : 0 < x -> ln x <= x - 1.
Proof.
  intros Hx. pose proof (exp_ineq1_le (ln x)) as H.
  rewrite exp_ln in H by assumption. lra.
Qed.

(** One step of descent on [x ln x] with a rate below one keeps a positive
    number positive. *)
Lemma closed_form_update_positive lr x :
  0 < lr < 1 -> 0 < x -> 0 < x - lr * (ln x + 1).
Proof.
  intros [H0 H1] Hx.
  assert (Hq : 0 < x * / lr) by (apply Rmult_lt_0_compat; trivial;
                                 now apply Rinv_0_lt_compat).
  pose proof (ln_le_sub1 (x * / lr) Hq) as E.
  rewrite ln_mult, ln_Rinv in E by (trivial; now apply Rinv_0_lt_compat).
  pose proof (ln_le_sub1 lr H0) as El.
  assert (E' : lr * (ln x + - ln lr) <= lr * (x * / lr - 1))
    by (apply Rmult_le_compat_l; lra).
  replace (lr * (x * / lr - 1)) with (x - lr) in E' by (field; lra).
  assert (0 < lr * - ln lr) by (apply Rmult_lt_0_compat; lra).
  lra.
Qed.

Lemma Forall_closed_form_update lr q :
  0 < lr < 1 -> Forall (fun x => 0 < x) q ->
  Forall (fun x => 0 < x) (closed_form_update lr q).
Proof.
  intros Hlr H. unfold closed_form_update. apply Forall_map.
  eapply Forall_impl; [|exact H]. intros x Hx.
  now apply closed_form_update_positive.
Qed.

(** ** The value of [forward] on a probability vector *)

Lemma Rlist_sum_nonneg q : Forall (fun x => 0 < x) q -> 0 <= Rlist_sum q.
Proof.
  induction 1 as [|x q Hx _ IH]; simpl; lra.
Qed.

Lemma Forall_le_sum q :
  Forall (fun x => 0 < x) q -> Forall (fun x => x <= Rlist_sum q) q.
Proof.
  induction 1 as [|x q Hx Hq IH]; constructor; simpl.
  - pose proof (Rlist_sum_nonneg q Hq). lra.
  - eapply Forall_impl; [|exact IH]. intros y Hy. cbv beta in Hy. lra.
Qed.

Lemma p_log_p_nonpos q :
  Forall (fun x => 0 < x <= 1) q ->
  Rlist_sum (zip_with Rmult q (map ln q)) <= 0.
Proof.
  induction 1 as [|x q [Hx Hx1] _ IH]; simpl; [lra|].
  pose proof (ln_le_sub1 x Hx). nra.
Qed.

(** Gibbs' inequality against the uniform distribution on [N] points. *)
Lemma p_log_p_lower N q :
  0 < N -> Forall (fun x => 0 < x) q ->
  (1 - ln N) * Rlist_sum q - INR (length q) * / N <=
  Rlist_sum (zip_with Rmult q (map ln q)).
Proof.
  intros HN. induction 1 as [|x q Hx _ IH]; [simpl; lra|].
  cbn [Rlist_sum fold_right zip_with map length]. fold (Rlist_sum q).
  fold (Rlist_sum (zip_with Rmult q (map ln q))). rewrite S_INR.
  assert (HNi : 0 < / N) by now apply Rinv_0_lt_compat.
  assert (Hq : 0 < / (N * x))
    by (apply Rinv_0_lt_compat; now apply Rmult_lt_0_compat).
  pose proof (ln_le_sub1 (/ (N * x)) Hq) as E.
  rewrite ln_Rinv, ln_mult in E by (trivial; now apply Rmult_lt_0_compat).
  assert (E' : x * (- (ln N + ln x)) <= x * (/ (N * x) - 1))
    by (apply Rmult_le_compat_l; lra).
  replace (x * (/ (N * x) - 1)) with (/ N - x) in E' by (field; lra).
  lra.
Qed.

Lemma entropy_bounds q :
  Forall (fun x => 0 < x) q -> Rlist_sum q = 1 ->
  0 <= - Rlist_sum (zip_with Rmult q (map ln q)) <= ln (INR (length q)).
Proof.
  intros Hq Hs. split.
  - assert (Rlist_sum (zip_with Rmult q (map ln q)) <= 0); [|lra].
    apply p_log_p_nonpos. pose proof (Forall_le_sum q Hq) as Hle.
    rewrite Hs in Hle. rewrite Forall_forall in *. intros x Hx.
    split; [now apply Hq | now apply Hle].
  - assert (HN : 0 < INR (length q)).
    { destruct q; [simpl in Hs; lra|]. apply lt_0_INR. simpl. lia. }
    pose proof (p_log_p_lower _ q HN Hq) as E. rewrite Hs in E.
    rewrite Rinv_r in E by lra. lra.
Qed.

(** ** Columns of the wrong length *)

Lemma call_projector_wrong_length n m P v x :
  has_shape P n n -> has_shape v n 1 -> has_shape x m 1 ->
  m <> n -> m <> 1%nat ->
  call_projector (mkProjector P v) x = RuntimeError.
Proof.
  intros (_ & HPr & HPc) (_ & Hvr & Hvc) (_ & Hxr & Hxc) Hn H1.
  unfold call_projector, sub, pointwise. simpl.
  rewrite Hxr, Hvr, Hxc, Hvc. unfold broadcast_dim.
  destruct (Nat.eqb_spec m n) as [|_]; [contradiction|].
  destruct (Nat.eqb_spec m 1) as [|_]; [contradiction|].
  destruct (Nat.eqb_spec n 1) as [->|_]; [|reflexivity].
  cbn [Nat.eqb bind]. unfold mm. rewrite HPc, nrows_tabulate.
  destruct (Nat.eqb_spec 1 m) as [E|_]; [congruence|reflexivity].
Qed.

(** ** A single face *)

Lemma particular_solution_1_spec mean :
  lstsq_spec (constraint_matrix 1) (constraint_rhs mean)
             (particular_solution_1 mean).
Proof.
  apply (lstsq_spec_intro 2 1) with
    (w := fun i => match i with O => (1 + mean) / 2 | _ => 0 end).
  - apply has_shape_constraint_matrix.
  - apply has_shape_constraint_rhs.
  - repeat split. repeat constructor.
  - intros k Hk. assert (k = 0%nat) as -> by lia.
    unfold particular_solution_1. tensor_compute. lra.
  - intros k Hk. assert (k = 0%nat) as -> by lia.
    unfold particular_solution_1. tensor_compute. lra.
Qed.

(** ** The kernel projector in closed form *)

Lemma Pmul_plus n P x y i :
  Pmul n P (fun k => x k + y k) i = Pmul n P x i + Pmul n P y i.
Proof.
  unfold Pmul. rewrite <- Rsum_plus. apply Rsum_ext. intros; ring.
Qed.

Lemma Pmul_ext n P x y i :
  (forall k, (k < n)%nat -> x k = y k) -> Pmul n P x i = Pmul n P y i.
Proof.
  intros H. unfold Pmul. apply Rsum_ext. intros k Hk. now rewrite H.
Qed.

(** [P] annihilates every affine function of the face value. *)
Lemma Pmul_affine n P a b i :
  projector_facts n P -> (i < n)%nat ->
  Pmul n P (fun k => a + b * INR (k + 1)) i = 0.
Proof.
  intros F Hi.
  rewrite (Pmul_ext n P _ (fun k => a * entry (constraint_matrix n) 0 k +
                                    b * entry (constraint_matrix n) 1 k)).
  2:{ intros k Hk.
      rewrite entry_constraint_matrix_0, entry_constraint_matrix_1
        by assumption. ring. }
  rewrite Pmul_plus, !Pmul_scal.
  rewrite !Pmul_row by (trivial; lia). ring.
Qed.

Lemma kernel_projector_entries n P i j :
  (2 <= n)%nat -> projector_facts n P -> (i < n)%nat -> (j < n)%nat ->
  entry P i j = entry (kernel_projector_closed_form n) i j.
Proof.
  intros Hn F Hi Hj. pose proof (INR_faces_pos n Hn) as HN.
  pose proof (Rsum_faces n) as S1. pose proof (Rsum_faces_sqr n) as S2.
  unfold kernel_projector_closed_form. rewrite entry_tabulate by assumption.
  set (N := INR n) in *. set (c := (N + 1) / 2).
  set (b := 12 * (INR (j + 1) - c) / (N * (N * N - 1))).
  set (a := / N - b * c).
  set (q := fun k => delta k j - (a + b * INR (k + 1))).
  assert (HD : N * (N * N - 1) <> 0) by nra.
  assert (Hb : b * (N * (N * N - 1)) = 12 * (INR (j + 1) - c))
    by (unfold b; field; split; nra).
  assert (Ed : forall f, Rsum n (fun k => f k * delta k j) = f j)
    by (intros f; now apply Rsum_delta_r).
  (* the column [q] of the closed form lies in the kernel of [A] *)
  assert (K : forall r, (r < 2)%nat ->
            Rsum n (fun k => entry (constraint_matrix n) r k * q k) = 0).
  { intros r Hr. destruct r as [|[|r]]; [| |lia].
    - rewrite (Rsum_ext n _ (fun k => (fun _ => 1) k * delta k j -
                                      (a + b * INR (k + 1))))
        by (intros k Hk; rewrite entry_constraint_matrix_0 by assumption;
            unfold q; ring).
      rewrite Rsum_minus, Ed, Rsum_plus, Rsum_const, Rsum_scal_l. fold N.
      set (s1 := Rsum n (fun k => INR (k + 1))) in *.
      assert (s1 = N * c) as -> by (unfold c; lra).
      unfold a. field. lra.
    - rewrite (Rsum_ext n _ (fun k => (fun k => INR (k + 1)) k * delta k j -
                                      (a * INR (k + 1) +
                                       b * (INR (k + 1) * INR (k + 1)))))
        by (intros k Hk; rewrite entry_constraint_matrix_1 by assumption;
            unfold q; ring).
      rewrite Rsum_minus, Ed, Rsum_plus, !Rsum_scal_l.
      set (s1 := Rsum n (fun k => INR (k + 1))) in *.
      set (s2 := Rsum n (fun k => INR (k + 1) * INR (k + 1))) in *.
      assert (s1 = N * c) as -> by (unfold c; lra).
      assert (s2 = N * (N + 1) * (2 * N + 1) / 6) as -> by lra.
      transitivity (INR (j + 1) - c - (b * (N * (N * N - 1))) / 12);
        [unfold a, c; field; lra|].
      rewrite Hb. field. }
  transitivity (Pmul n P (fun k => delta k j) i).
  { unfold Pmul. symmetry. apply (Rsum_delta_r n j (fun k => entry P i k) Hj). }
  rewrite (Pmul_ext n P _ (fun k => (a + b * INR (k + 1)) + q k))
    by (intros; unfold q; ring).
  rewrite Pmul_plus, Pmul_affine by assumption.
  rewrite (pf_fix n P F q K i Hi).
  unfold q, a, b, c. field. split; nra.
Qed.

(** ** The gradient that [backward] accumulates *)

Lemma Forall_replace_nth (Q : R -> Prop) q i t :
  Forall Q q -> Q t -> Forall Q (replace_nth q i t).
Proof.
  intros H Ht. revert i. induction H as [|x q Hx Hq IH]; intros [|i]; simpl;
    try constructor; trivial.
Qed.

Lemma p_log_p_replace_nth q i t :
  (i < length q)%nat ->
  Rlist_sum (zip_with Rmult (replace_nth q i t) (map ln (replace_nth q i t))) =
  Rlist_sum (zip_with Rmult q (map ln q)) - nth i q 0 * ln (nth i q 0) +
  t * ln t.
Proof.
  revert i. induction q as [|x q IH]; intros [|i] Hi; simpl in *; try lia.
  - ring.
  - rewrite IH by lia. ring.
Qed.

Lemma loss_along_positive self i t :
  Forall (fun x => 0 < x) (p self) -> (i < length (p self))%nat -> 0 < t ->
  loss_along self i t =
  Rlist_sum (zip_with Rmult (p self) (map ln (p self))) -
  nth i (p self) 0 * ln (nth i (p self) 0) + t * ln t.
Proof.
  intros Hpos Hi Ht. unfold loss_along.
  assert (Hpos' : Forall (fun x => 0 < x)
                    (p (set_p self (replace_nth (p self) i t))))
    by (simpl; now apply Forall_replace_nth).
  destruct (forward_eq _ Hpos') as (entropy & -> & Ed & _).
  simpl. rewrite Ed. simpl. rewrite p_log_p_replace_nth by assumption. ring.
Qed.

Lemma derivable_pt_lim_x_ln_x c x :
  0 < x -> derivable_pt_lim (fun t => c + t * ln t) x (ln x + 1).
Proof.
  intros Hx.
  replace (ln x + 1) with (0 + (1 * ln x + x * / x)) by (field; lra).
  apply (derivable_pt_lim_plus (fun _ => c) (fun t => t * ln t)).
  - apply derivable_pt_lim_const.
  - apply (derivable_pt_lim_mult id ln).
    + apply derivable_pt_lim_id.
    + now apply derivable_pt_lim_ln.
Qed.

(** A derivative at a positive point depends on the function on positive
    numbers only. *)
Lemma derivable_pt_lim_positive f g x l :
  (forall t, 0 < t -> f t = g t) -> 0 < x ->
  derivable_pt_lim g x l -> derivable_pt_lim f x l.
Proof.
  intros E Hx D eps Heps. destruct (D eps Heps) as [d Hd].
  assert (Hm : 0 < Rmin d x) by (apply Rmin_pos; [apply cond_pos | trivial]).
  exists (mkposreal _ Hm). intros h Hh Hlt. simpl in Hlt.
  assert (Hh1 : Rabs h < d) by (eapply Rlt_le_trans; [exact Hlt | apply Rmin_l]).
  assert (Hh2 : Rabs h < x) by (eapply Rlt_le_trans; [exact Hlt | apply Rmin_r]).
  rewrite !E; [now apply Hd | trivial |].
  apply Rabs_def2 in Hh2. lra.
Qed.

(** ** Runs of the whole program *)

Lemma train_eq svd lstsq n mean lr k model :
  __init__ svd lstsq n mean = Ok model ->
  train svd lstsq n mean lr k =
  ('(_, m) <- training_loop k lr model ;; Ok m).
Proof. intros E. unfold train. now rewrite E. Qed.

Lemma svd_projector_shape svd n :
  svd_shape (constraint_matrix n) (svd (constraint_matrix n)) ->
  has_shape (kernel_projector (snd (svd (constraint_matrix n)))
               (length (snd (fst (svd (constraint_matrix n)))))) n n.
Proof.
  destruct (svd (constraint_matrix n)) as [[U Sv] VT]. intros [HVT _].
  simpl. now apply has_shape_kernel_projector.
Qed.

Lemma svd_projector_facts svd n :
  svd_spec (constraint_matrix n) (svd (constraint_matrix n)) ->
  projector_facts n (kernel_projector (snd (svd (constraint_matrix n)))
                       (length (snd (fst (svd (constraint_matrix n)))))).
Proof.
  destruct (svd (constraint_matrix n)) as [[U Sv] VT]. intros H.
  simpl. now apply (constraint_projector_facts n U).
Qed.

(** From the second pass on, the parameter is [v] at the start of a pass
    when the first pass has returned. *)
Lemma train_first_pass svd lstsq n mean lr :
  svd_spec (constraint_matrix n) (svd (constraint_matrix n)) ->
  lstsq_spec (constraint_matrix n) (constraint_rhs mean)
             (lstsq (constraint_matrix n) (constraint_rhs mean)) ->
  exists model s1,
    __init__ svd lstsq n mean = Ok model /\
    iteration lr model = Ok (tt, s1) /\
    carries n (kernel_projector (snd (svd (constraint_matrix n)))
                 (length (snd (fst (svd (constraint_matrix n))))))
              (lstsq (constraint_matrix n) (constraint_rhs mean)) s1 /\
    p s1 = flatten (lstsq (constraint_matrix n) (constraint_rhs mean)).
Proof.
  intros Hsvd Hls.
  destruct (init_carries svd lstsq n mean) as (model & E & Hp & C).
  destruct (first_pass n mean _ _ (svd_projector_facts svd n Hsvd) Hls
              lr model C Hp) as (s1 & E1 & C1 & Hp1).
  now exists model, s1.
Qed.

Lemma train_not_real svd lstsq n mean lr k :
  svd_spec (constraint_matrix n) (svd (constraint_matrix n)) ->
  lstsq_spec (constraint_matrix n) (constraint_rhs mean)
             (lstsq (constraint_matrix n) (constraint_rhs mean)) ->
  ~ Forall (fun x => 0 < x)
      (flatten (lstsq (constraint_matrix n) (constraint_rhs mean))) ->
  train svd lstsq n mean lr (S (S k)) = NotReal.
Proof.
  intros Hsvd Hls Hneg.
  destruct (train_first_pass svd lstsq n mean lr Hsvd Hls)
    as (model & s1 & E & E1 & C1 & Hp1).
  rewrite (train_eq _ _ _ _ _ _ model E).
  rewrite training_loop_S, E1. cbn [bind].
  rewrite training_loop_S, iteration_not_real; [reflexivity|].
  now rewrite Hp1.
Qed.

Lemma train_second_pass svd lstsq n mean lr :
  svd_spec (constraint_matrix n) (svd (constraint_matrix n)) ->
  lstsq_spec (constraint_matrix n) (constraint_rhs mean)
             (lstsq (constraint_matrix n) (constraint_rhs mean)) ->
  Forall (fun x => 0 < x)
    (flatten (lstsq (constraint_matrix n) (constraint_rhs mean))) ->
  exists model, train svd lstsq n mean lr 2 = Ok model.
Proof.
  intros Hsvd Hls Hpos.
  destruct (train_first_pass svd lstsq n mean lr Hsvd Hls)
    as (model & s1 & E & E1 & C1 & Hp1).
  rewrite (train_eq _ _ _ _ _ _ model E).
  rewrite training_loop_S, E1. cbn [bind].
  rewrite <- Hp1 in Hpos.
  destruct (iteration_carries lr n _ _ s1
              (pf_shape _ _ (svd_projector_facts svd n Hsvd))
              (particular_shape n mean _ Hls) C1 Hpos) as (s2 & E2 & _).
  rewrite training_loop_S, E2. cbn [bind training_loop]. now exists s2.
Qed.

Lemma train_feasible svd lstsq n mean lr k model :
  svd_spec (constraint_matrix n) (svd (constraint_matrix n)) ->
  lstsq_spec (constraint_matrix n) (constraint_rhs mean)
             (lstsq (constraint_matrix n) (constraint_rhs mean)) ->
  consistent (constraint_matrix n) (constraint_rhs mean) ->
  train svd lstsq n mean lr (S k) = Ok model ->
  length (p model) = n /\
  mm (constraint_matrix n) (reshape_col (p model)) = Ok (constraint_rhs mean).
Proof.
  intros Hsvd Hls Hc E.
  destruct (init_carries svd lstsq n mean) as (m0 & E0 & _ & C0).
  rewrite (train_eq _ _ _ _ _ _ m0 E0) in E.
  destruct (training_loop (S k) lr m0) as [[u s]| |] eqn:El; try discriminate.
  cbn [bind] in E. injection E as <-.
  destruct (training_loop_feasible n mean _ _
              (svd_projector_facts svd n Hsvd) Hls lr k m0 u s Hc C0 El)
    as [C F].
  split; [apply C | exact F].
Qed.

(** One pass from a positive vector that satisfies the constraints is a
    step of projected gradient descent; the constant part of the gradient
    [ln p + 1] is annihilated. *)
Lemma iteration_projected_gradient_entries lr n mean P v self :
  projector_facts n P ->
  lstsq_spec (constraint_matrix n) (constraint_rhs mean) v ->
  carries n P v self ->
  Forall (fun x => 0 < x) (p self) ->
  mm (constraint_matrix n) (reshape_col (p self)) = Ok (constraint_rhs mean) ->
  exists self',
    iteration lr self = Ok (tt, self') /\
    length (p self') = n /\
    forall i, (i < n)%nat ->
      nth i (p self') 0 =
      nth i (p self) 0 -
      lr * Rsum n (fun k => entry P i k * ln (nth k (p self) 0)).
Proof.
  intros F Hv C Hpos Hfeas.
  destruct (iteration_carries lr n P v self (pf_shape n P F)
              (particular_shape n mean v Hv) C Hpos) as (s & Es & Cs & Ep).
  exists s. split; [exact Es|]. split; [apply Cs|].
  intros i Hi. rewrite Ep.
  rewrite (nth_flatten_column _ n) by apply has_shape_projected.
  rewrite entry_projected_Pmul by assumption.
  destruct C as (_ & _ & Hl).
  assert (Hx : has_shape (reshape_col (p self)) n 1)
    by (rewrite <- Hl; apply has_shape_reshape_col).
  pose proof (Pmul_solution_minus_particular n mean P v F Hv
                (reshape_col (p self)) i Hx Hfeas Hi) as E.
  rewrite entry_reshape_col in E.
  rewrite (Pmul_ext n P _ (fun k =>
             (entry (reshape_col (p self)) k 0 - entry v k 0) -
             (lr * ln (nth k (p self) 0) + lr))).
  2:{ intros k Hk. rewrite !entry_reshape_col.
      unfold closed_form_update.
      rewrite (nth_indep _ 0 ((fun x => x - lr * (ln x + 1)) 0))
        by (rewrite length_map; lia).
      rewrite (map_nth (fun x => x - lr * (ln x + 1))). ring. }
  rewrite Pmul_minus, E, Pmul_plus, Pmul_scal, Pmul_constant by assumption.
  unfold Pmul. ring.
Qed.

(** ** Stationary points of a pass *)



Section StationaryPoints.

Variables (n : nat) (mean : R) (P v : Tensor).
Hypothesis P_facts : projector_facts n P.
Hypothesis v_spec : lstsq_spec (constraint_matrix n) (constraint_rhs mean) v.

(** A positive solution of the constraints whose logarithm is affine in
    the face value is left unchanged by a pass. *)
Lemma iteration_stationary lr self a b :
  carries n P v self ->
  Forall (fun x => 0 < x) (p self) ->
  mm (constraint_matrix n) (reshape_col (p self)) = Ok (constraint_rhs mean) ->
  (forall k, (k < n)%nat -> ln (nth k (p self) 0) = a + b * INR (k + 1)) ->
  exists self',
    iteration lr self = Ok (tt, self') /\ carries n P v self' /\
    p self' = p self.
Proof.
  intros C Hpos Hfeas Hlog.
  destruct (iteration_projected_gradient_entries lr n mean P v self
              P_facts v_spec C Hpos Hfeas) as (s & Es & Hl & Hn).
  exists s. split; [exact Es|].
  destruct (iteration_inv n mean P v P_facts v_spec lr self tt s C Es)
    as (Cs & _ & _).
  split; [exact Cs|].
  destruct C as (_ & _ & Hlp).
  apply (nth_ext _ _ 0 0); [congruence|].
  intros i Hi. rewrite Hl in Hi. rewrite Hn by assumption.
  fold (Pmul n P (fun k => ln (nth k (p self) 0)) i).
  rewrite (Pmul_ext n P _ (fun k => a + b * INR (k + 1))) by exact Hlog.
  rewrite Pmul_affine by assumption. ring.
Qed.

Lemma training_loop_stationary lr a b k : forall self,
  carries n P v self ->
  Forall (fun x => 0 < x) (p self) ->
  mm (constraint_matrix n) (reshape_col (p self)) = Ok (constraint_rhs mean) ->
  (forall k, (k < n)%nat -> ln (nth k (p self) 0) = a + b * INR (k + 1)) ->
  exists self',
    training_loop k lr self = Ok (tt, self') /\ p self' = p self.
Proof.
  induction k as [|k IH]; intros self C Hpos Hfeas Hlog.
  - exists self. now split.
  - destruct (iteration_stationary lr self a b C Hpos Hfeas Hlog)
      as (s & Es & Cs & Hp).
    rewrite training_loop_S, Es. cbn [bind].
    destruct (IH s Cs) as (s' & Es' & Hp'); try (rewrite Hp; assumption).
    exists s'. split; [exact Es' | congruence].
Qed.


End StationaryPoints.

(** ** The fair mean *)

Lemma particular_solution_fair n :
  (1 <= n)%nat ->
  flatten (particular_solution n ((INR n + 1) / 2)) = repeat (/ INR n) n.
Proof.
  intros Hn. unfold particular_solution. rewrite flatten_column.
  unfold particular_slope.
  replace ((INR n + 1) / 2 - (INR n + 1) / 2) with 0 by ring.
  apply (nth_ext _ _ 0 0).
  - now rewrite length_map, length_seq, repeat_length.
  - intros k Hk. rewrite length_map, length_seq in Hk.
    rewrite nth_repeat_lt by assumption.
    rewrite (nth_indep _ 0 ((fun i =>
               / INR n + 12 * 0 / (INR n * (INR n * INR n - 1)) *
                         (INR (i + 1) - (INR n + 1) / 2)) 0%nat))
      by now rewrite length_map, length_seq.
    rewrite (map_nth (fun i =>
               / INR n + 12 * 0 / (INR n * (INR n * INR n - 1)) *
                         (INR (i + 1) - (INR n + 1) / 2))).
    unfold Rdiv. ring.
Qed.

Lemma p_log_p_repeat c n :
  Rlist_sum (zip_with Rmult (repeat c n) (map ln (repeat c n))) =
  INR n * (c * ln c).
Proof.
  induction n as [|n IH]; [simpl; ring|].
  cbn [repeat map zip_with Rlist_sum fold_right].
  fold (Rlist_sum (zip_with Rmult (repeat c n) (map ln (repeat c n)))).
  rewrite IH, S_INR. ring.
Qed.

Lemma train_fair_mean svd lstsq n lr k :
  (2 <= n)%nat ->
  svd_spec (constraint_matrix n) (svd (constraint_matrix n)) ->
  lstsq_spec (constraint_matrix n) (constraint_rhs ((INR n + 1) / 2))
             (lstsq (constraint_matrix n) (constraint_rhs ((INR n + 1) / 2))) ->
  exists model,
    train svd lstsq n ((INR n + 1) / 2) lr (S k) = Ok model /\
    p model = repeat (/ INR n) n.
Proof.
  intros Hn Hsvd Hls. pose proof (INR_faces_pos n Hn) as HN.
  set (mean := (INR n + 1) / 2) in *.
  destruct (train_first_pass svd lstsq n mean lr Hsvd Hls)
    as (model & s1 & E & E1 & C1 & Hp1).
  pose proof (svd_projector_facts svd n Hsvd) as F.
  assert (Hu : p s1 = repeat (/ INR n) n).
  { rewrite Hp1, (lstsq_particular_solution n mean _ Hn Hls).
    apply particular_solution_fair. lia. }
  assert (Hfeas : mm (constraint_matrix n) (reshape_col (p s1)) =
                  Ok (constraint_rhs mean)).
  { rewrite Hp1, (reshape_col_flatten _ n)
      by apply (particular_shape n mean _ Hls).
    apply (particular_solves n mean _ Hls).
    now apply constraint_system_consistent. }
  assert (Hpos : Forall (fun x => 0 < x) (p s1)).
  { rewrite Hu. apply Forall_forall. intros x Hx.
    apply repeat_spec in Hx. subst. apply Rinv_0_lt_compat. lra. }
  destruct (training_loop_stationary n mean _ _ F Hls lr (ln (/ INR n)) 0
              k s1 C1 Hpos Hfeas) as (s & Es & Hp).
  { intros i Hi. rewrite Hu, nth_repeat_lt by assumption. ring. }
  exists s. split; [|congruence].
  rewrite (train_eq _ _ _ _ _ _ model E), training_loop_S, E1. cbn [bind].
  now rewrite Es.
Qed.



(** ** The first pass of the notebook's run *)

(** Before the first pass [model()] is 0, the entropy formula on the vector
    of ones; after it, the entropy of the probability vector [v], which is
    not negative. *)
Lemma trajectory_first_pass svd lstsq n mean lr :
  svd_spec (constraint_matrix n) (svd (constraint_matrix n)) ->
  lstsq_spec (constraint_matrix n) (constraint_rhs mean)
             (lstsq (constraint_matrix n) (constraint_rhs mean)) ->
  consistent (constraint_matrix n) (constraint_rhs mean) ->
  Forall (fun x => 0 < x)
    (flatten (lstsq (constraint_matrix n) (constraint_rhs mean))) ->
  exists h h',
    entropy_of (train svd lstsq n mean lr 0) = Ok h /\
    entropy_of (train svd lstsq n mean lr 1) = Ok h' /\
    h = 0 /\ h <= h' <= ln (INR n).
Proof.
  intros Hsvd Hls Hc Hpos.
  destruct (train_first_pass svd lstsq n mean lr Hsvd Hls)
    as (model & s1 & E & E1 & C1 & Hp1).
  assert (E0 : train svd lstsq n mean lr 0 = Ok model)
    by (rewrite (train_eq _ _ _ _ _ _ model E); reflexivity).
  assert (Et : train svd lstsq n mean lr 1 = Ok s1)
    by (rewrite (train_eq _ _ _ _ _ _ model E), training_loop_S, E1;
        reflexivity).
  destruct (init_carries svd lstsq n mean) as (m0 & Em & Hones & _).
  rewrite E in Em. injection Em as <-.
  assert (Hpos0 : Forall (fun x => 0 < x) (p model)).
  { rewrite Hones. apply Forall_forall. intros x Hx.
    apply repeat_spec in Hx. subst. lra. }
  destruct (forward_eq model Hpos0) as (e0 & Ef0 & Ed0 & _).
  rewrite <- Hp1 in Hpos.
  destruct (forward_eq s1 Hpos) as (e1 & Ef1 & Ed1 & _).
  destruct (train_feasible svd lstsq n mean lr 0 s1 Hsvd Hls Hc Et)
    as [Hl Hfeas].
  destruct (constraint_rows n mean (p s1) Hl Hfeas) as [Hsum _].
  pose proof (entropy_bounds (p s1) Hpos Hsum) as B. rewrite Hl in B.
  exists (data0 e0), (data0 e1).
  assert (Z : data0 e0 = 0).
  { rewrite Ed0, Hones. unfold ones. rewrite p_log_p_repeat, ln_1. ring. }
  split; [unfold entropy_of; rewrite E0; cbn [bind]; now rewrite Ef0|].
  split; [unfold entropy_of; rewrite Et; cbn [bind]; now rewrite Ef1|].
  split; [exact Z|]. rewrite Z, Ed1. exact B.
Qed.

(** * Part VI: further properties *)

(** X1.  The fixed points of the projector are exactly the solutions of
    the constraint system: a column [x] of length [num_faces] is returned
    unchanged if and only if [A x = b]. *)
Theorem project_fixed_points svd lstsq n mean x :
  svd_spec (constraint_matrix n) (svd (constraint_matrix n)) ->
  lstsq_spec (constraint_matrix n) (constraint_rhs mean)
             (lstsq (constraint_matrix n) (constraint_rhs mean)) ->
  consistent (constraint_matrix n) (constraint_rhs mean) ->
  has_shape x n 1 ->
  exists project,
    _compute_constraint_projector svd lstsq n mean = Ok project /\
    (call_projector project x = Ok x <->
     mm (constraint_matrix n) x = Ok (constraint_rhs mean)).
Proof.
  intros Hsvd Hls Hcons Hx. rewrite compute_constraint_projector_eq.
  eexists; split; [reflexivity|].
  pose proof (svd_projector_facts svd n Hsvd) as F.
  rewrite (call_projector_eq n);
    [| apply F | apply (particular_shape n mean _ Hls) | exact Hx].
  split.
  - intros [= E]. rewrite <- E.
    now apply (projected_feasible n mean).
  - intros E. f_equal. now apply (projected_fixes_solutions n mean).
Qed.

Lemma project_fixed_points_witness :
  exists project,
    _compute_constraint_projector svd_6 lstsq_6 6 (9 / 2) = Ok project /\
    (call_projector project v_6 = Ok v_6 <->
     mm (constraint_matrix 6) v_6 = Ok (constraint_rhs (9 / 2))).
Proof.
  apply (project_fixed_points svd_6 lstsq_6 6 (9 / 2) v_6).
  - exact svd_6_ok.
  - exact lstsq_6_spec.
  - apply constraint_system_consistent. lia.
  - exact has_shape_v_6.
Defined.

(** X2.  The projector returns the solution nearest to its argument:
    [project x] solves [A (project x) = b], and for every solution [y] of
    [A y = b] the squared distances satisfy
    [|x - y|^2 = |x - project x|^2 + |project x - y|^2], so no solution is
    nearer to [x] than [project x]. *)
Theorem project_nearest_solution svd lstsq n mean x y :
  svd_spec (constraint_matrix n) (svd (constraint_matrix n)) ->
  lstsq_spec (constraint_matrix n) (constraint_rhs mean)
             (lstsq (constraint_matrix n) (constraint_rhs mean)) ->
  has_shape x n 1 -> has_shape y n 1 ->
  mm (constraint_matrix n) y = Ok (constraint_rhs mean) ->
  exists project px,
    _compute_constraint_projector svd lstsq n mean = Ok project /\
    call_projector project x = Ok px /\
    mm (constraint_matrix n) px = Ok (constraint_rhs mean) /\
    sqdist n x y = sqdist n x px + sqdist n px y /\
    sqdist n x px <= sqdist n x y.
Proof.
  intros Hsvd Hls Hx Hy Ey. rewrite compute_constraint_projector_eq.
  pose proof (svd_projector_facts svd n Hsvd) as F.
  eexists. eexists. split; [reflexivity|].
  rewrite (call_projector_eq n);
    [| apply F | apply (particular_shape n mean _ Hls) | exact Hx].
  split; [reflexivity|].
  split.
  { apply (projected_feasible n mean _ _ F Hls). exists y. now split. }
  pose proof (projected_pythagoras n mean _ _ F Hls x y Hy Ey) as E.
  split; [exact E|]. rewrite E.
  assert (0 <= sqdist n (projected n
            (kernel_projector (snd (svd (constraint_matrix n)))
               (length (snd (fst (svd (constraint_matrix n))))))
            (lstsq (constraint_matrix n) (constraint_rhs mean)) x) y); [|lra].
  unfold sqdist. apply Rsum_nonneg. intros k _. apply Rle_0_sqr.
Qed.

Lemma project_nearest_solution_witness :
  exists project px,
    _compute_constraint_projector svd_6 lstsq_6 6 (9 / 2) = Ok project /\
    call_projector project (reshape_col (ones 6)) = Ok px /\
    mm (constraint_matrix 6) px = Ok (constraint_rhs (9 / 2)) /\
    sqdist 6 (reshape_col (ones 6)) v_6 =
    sqdist 6 (reshape_col (ones 6)) px + sqdist 6 px v_6 /\
    sqdist 6 (reshape_col (ones 6)) px <= sqdist 6 (reshape_col (ones 6)) v_6.
Proof.
  apply (project_nearest_solution svd_6 lstsq_6 6 (9 / 2)
           (reshape_col (ones 6)) v_6).
  - exact svd_6_ok.
  - exact lstsq_6_spec.
  - apply (has_shape_reshape_col (ones 6)).
  - exact has_shape_v_6.
  - exact v_6_solves.
Defined.

(** X3.  For two or more faces and any target mean, the offset [v] of the
    projector is the affine function of the face value
    [v_k = 1/n + 12 (mean - c) (k + 1 - c) / (n (n^2 - 1))], [c = (n + 1) / 2],
    whatever least-squares solution of least norm the primitive returns. *)
Theorem particular_solution_closed_form svd lstsq n mean :
  (2 <= n)%nat ->
  lstsq_spec (constraint_matrix n) (constraint_rhs mean)
             (lstsq (constraint_matrix n) (constraint_rhs mean)) ->
  exists project,
    _compute_constraint_projector svd lstsq n mean = Ok project /\
    proj_v project = particular_solution n mean /\
    forall k, (k < n)%nat ->
      entry (proj_v project) k 0 =
      / INR n + 12 * (mean - (INR n + 1) / 2) / (INR n * (INR n * INR n - 1)) *
                (INR (k + 1) - (INR n + 1) / 2).
Proof.
  intros Hn Hls. rewrite compute_constraint_projector_eq.
  eexists; split; [reflexivity|]. cbn [proj_v].
  rewrite (lstsq_particular_solution n mean _ Hn Hls).
  split; [reflexivity|]. intros k Hk.
  unfold particular_solution. now rewrite entry_tabulate by lia.
Qed.

Lemma particular_solution_closed_form_witness :
  exists project,
    _compute_constraint_projector svd_6 lstsq_6 6 (9 / 2) = Ok project /\
    proj_v project = particular_solution 6 (9 / 2) /\
    forall k, (k < 6)%nat ->
      entry (proj_v project) k 0 =
      / INR 6 + 12 * (9 / 2 - (INR 6 + 1) / 2) / (INR 6 * (INR 6 * INR 6 - 1)) *
                (INR (k + 1) - (INR 6 + 1) / 2).
Proof.
  apply (particular_solution_closed_form svd_6 lstsq_6 6 (9 / 2)).
  - lia.
  - exact lstsq_6_spec.
Defined.

(** X4.  For two or more faces the matrix [P] of the projector is
    [P_ij = delta_ij - 1/n - 12 (i + 1 - c) (j + 1 - c) / (n (n^2 - 1))],
    [c = (n + 1) / 2], whatever decomposition the primitive returns. *)
Theorem kernel_projector_closed_form_eq svd lstsq n mean :
  (2 <= n)%nat ->
  svd_spec (constraint_matrix n) (svd (constraint_matrix n)) ->
  exists project,
    _compute_constraint_projector svd lstsq n mean = Ok project /\
    proj_P project = kernel_projector_closed_form n.
Proof.
  intros Hn Hsvd. rewrite compute_constraint_projector_eq.
  eexists; split; [reflexivity|]. cbn [proj_P].
  pose proof (svd_projector_facts svd n Hsvd) as F.
  destruct (pf_shape _ _ F) as (Hw & Hr & Hc).
  apply tensor_ext; trivial.
  - apply wf_tabulate.
  - rewrite Hr. unfold kernel_projector_closed_form.
    now rewrite nrows_tabulate.
  - intros i j Hi Hj. rewrite Hr in Hi. rewrite Hc in Hj.
    now apply kernel_projector_entries.
Qed.

Lemma kernel_projector_closed_form_eq_witness :
  exists project,
    _compute_constraint_projector svd_6 lstsq_6 6 (9 / 2) = Ok project /\
    proj_P project = kernel_projector_closed_form 6.
Proof.
  apply (kernel_projector_closed_form_eq svd_6 lstsq_6 6 (9 / 2)).
  - lia.
  - exact svd_6_ok.
Defined.

(** X5.  Whatever the learning rate and the target mean, the first pass of
    the loop leaves the parameter at the offset [v] of the projector: the
    gradient step keeps the initial vector of ones constant, and the
    projector sends every constant vector to [v]. *)
Theorem first_pass_reaches_particular_solution svd lstsq n mean lr :
  svd_spec (constraint_matrix n) (svd (constraint_matrix n)) ->
  lstsq_spec (constraint_matrix n) (constraint_rhs mean)
             (lstsq (constraint_matrix n) (constraint_rhs mean)) ->
  exists model,
    train svd lstsq n mean lr 1 = Ok model /\
    p model = flatten (lstsq (constraint_matrix n) (constraint_rhs mean)).
Proof.
  intros Hsvd Hls.
  destruct (train_first_pass svd lstsq n mean lr Hsvd Hls)
    as (model & s1 & E & E1 & _ & Hp1).
  exists s1. split; [|exact Hp1].
  rewrite (train_eq _ _ _ _ _ _ model E), training_loop_S, E1. reflexivity.
Qed.

Lemma first_pass_reaches_particular_solution_witness :
  exists model,
    train svd_6 lstsq_6 6 (9 / 2) (1 / 1000) 1 = Ok model /\
    p model = flatten v_6.
Proof.
  apply (first_pass_reaches_particular_solution svd_6 lstsq_6 6 (9 / 2)
           (1 / 1000)).
  - exact svd_6_ok.
  - exact lstsq_6_spec.
Defined.

(** X6.  For two or more faces, a target mean of at most a quarter or at
    least three quarters of [n + 1] makes every run of two or more passes
    end without a real value.  The first pass returns a parameter whose
    first and last entries are
    [2 (2 (n + 1) - 3 mean) / (n (n + 1))] and
    [2 (3 mean - (n + 1)) / (n (n + 1))]; one of them is negative, and the
    second pass takes its logarithm.  The two entries vanish at the means
    [2 (n + 1) / 3] and [(n + 1) / 3]; the bounds on the mean leave a
    margin to these values, near which the sign of the entry is decided
    by rounding. *)
Theorem mean_out_of_range_not_real svd lstsq n mean lr :
  (2 <= n)%nat ->
  svd_spec (constraint_matrix n) (svd (constraint_matrix n)) ->
  lstsq_spec (constraint_matrix n) (constraint_rhs mean)
             (lstsq (constraint_matrix n) (constraint_rhs mean)) ->
  mean <= (INR n + 1) / 4 \/ 3 * (INR n + 1) / 4 <= mean ->
  (exists model,
     train svd lstsq n mean lr 1 = Ok model /\
     nth 0 (p model) 0 =
     2 * (2 * (INR n + 1) - 3 * mean) / (INR n * (INR n + 1)) /\
     nth (n - 1) (p model) 0 =
     2 * (3 * mean - (INR n + 1)) / (INR n * (INR n + 1)) /\
     (nth 0 (p model) 0 < 0 \/ nth (n - 1) (p model) 0 < 0)) /\
  forall k, train svd lstsq n mean lr (S (S k)) = NotReal.
Proof.
  intros Hn Hsvd Hls Hm. pose proof (INR_faces_pos n Hn) as HN.
  pose proof (lstsq_particular_solution n mean _ Hn Hls) as Ev.
  split.
  - destruct (train_first_pass svd lstsq n mean lr Hsvd Hls)
      as (model & s1 & E & E1 & _ & Hp1).
    exists s1. split.
    { rewrite (train_eq _ _ _ _ _ _ model E), training_loop_S, E1.
      reflexivity. }
    assert (E0 : nth 0 (p s1) 0 =
                 2 * (2 * (INR n + 1) - 3 * mean) / (INR n * (INR n + 1))).
    { rewrite Hp1, Ev, (nth_flatten_column _ n) by apply has_shape_tabulate.
      now apply particular_solution_first. }
    assert (El : nth (n - 1) (p s1) 0 =
                 2 * (3 * mean - (INR n + 1)) / (INR n * (INR n + 1))).
    { rewrite Hp1, Ev, (nth_flatten_column _ n) by apply has_shape_tabulate.
      now apply particular_solution_last. }
    split; [exact E0|]. split; [exact El|].
    rewrite E0, El.
    assert (HD : 0 < / (INR n * (INR n + 1)))
      by (apply Rinv_0_lt_compat; nra).
    unfold Rdiv. destruct Hm as [Hm|Hm]; [right | left]; nra.
  - intros k. apply train_not_real; trivial.
    rewrite Ev. apply particular_solution_not_positive; trivial.
    destruct Hm as [Hm|Hm]; [left | right]; lra.
Qed.

Lemma mean_out_of_range_not_real_witness :
  (exists model,
     train svd_6 lstsq_6_mean_high 6 (11 / 2) (1 / 1000) 1 = Ok model /\
     nth 0 (p model) 0 =
     2 * (2 * (INR 6 + 1) - 3 * (11 / 2)) / (INR 6 * (INR 6 + 1)) /\
     nth (6 - 1) (p model) 0 =
     2 * (3 * (11 / 2) - (INR 6 + 1)) / (INR 6 * (INR 6 + 1)) /\
     (nth 0 (p model) 0 < 0 \/ nth (6 - 1) (p model) 0 < 0)) /\
  forall k,
    train svd_6 lstsq_6_mean_high 6 (11 / 2) (1 / 1000) (S (S k)) = NotReal.
Proof.
  apply (mean_out_of_range_not_real svd_6 lstsq_6_mean_high 6 (11 / 2)
           (1 / 1000)).
  - lia.
  - exact svd_6_ok.
  - apply (particular_solution_spec 6 (11 / 2)). lia.
  - right. simpl. lra.
Defined.

(** X7.  A run never raises: if the two primitives return tensors of the
    documented shapes, a run of any number of passes ends with a model or
    without a real value, never with a shape error. *)
Theorem training_never_raises svd lstsq n mean lr k :
  svd_shape (constraint_matrix n) (svd (constraint_matrix n)) ->
  lstsq_shape (constraint_matrix n) (constraint_rhs mean)
              (lstsq (constraint_matrix n) (constraint_rhs mean)) ->
  ~ raises (train svd lstsq n mean lr k).
Proof.
  intros Hsvd Hls. unfold raises.
  destruct (init_carries svd lstsq n mean) as (m0 & E0 & _ & C0).
  rewrite (train_eq _ _ _ _ _ _ m0 E0).
  pose proof (training_loop_no_runtime_error lr n _ _ k m0
                (svd_projector_shape svd n Hsvd) Hls C0) as H.
  destruct (training_loop k lr m0) as [[u s]| |]; cbn [bind];
    [discriminate | contradiction | discriminate].
Qed.

Lemma training_never_raises_witness :
  ~ raises (train svd_6 lstsq_6 6 (9 / 2) (1 / 1000) 2000).
Proof.
  apply (training_never_raises svd_6 lstsq_6 6 (9 / 2) (1 / 1000) 2000).
  - exact (svd_spec_shape _ _ _ _ svd_6_ok).
  - exact has_shape_v_6.
Defined.

(** X8.  Whenever a run of at least one pass returns a model, its
    parameter satisfies both constraints: the entries sum to 1 and their
    mean face value is the target mean. *)
Theorem trained_model_feasible svd lstsq n mean lr k model :
  svd_spec (constraint_matrix n) (svd (constraint_matrix n)) ->
  lstsq_spec (constraint_matrix n) (constraint_rhs mean)
             (lstsq (constraint_matrix n) (constraint_rhs mean)) ->
  consistent (constraint_matrix n) (constraint_rhs mean) ->
  train svd lstsq n mean lr (S k) = Ok model ->
  length (p model) = n /\
  Rlist_sum (p model) = 1 /\
  Rlist_sum (zip_with Rmult (arange 1 (n + 1)) (p model)) = mean.
Proof.
  intros Hsvd Hls Hc E.
  destruct (train_feasible svd lstsq n mean lr k model Hsvd Hls Hc E)
    as [Hl F].
  split; [exact Hl|]. now apply constraint_rows.
Qed.

Lemma trained_model_feasible_witness :
  exists model,
    train svd_6 lstsq_6 6 (9 / 2) (1 / 1000) 1 = Ok model /\
    length (p model) = 6%nat /\
    Rlist_sum (p model) = 1 /\
    Rlist_sum (zip_with Rmult (arange 1 (6 + 1)) (p model)) = 9 / 2.
Proof.
  destruct (train_first_pass svd_6 lstsq_6 6 (9 / 2) (1 / 1000)
              svd_6_ok lstsq_6_spec) as (m0 & s1 & E & E1 & _ & _).
  assert (Et : train svd_6 lstsq_6 6 (9 / 2) (1 / 1000) 1 = Ok s1)
    by (rewrite (train_eq _ _ _ _ _ _ m0 E), training_loop_S, E1;
        reflexivity).
  exists s1. split; [exact Et|].
  apply (trained_model_feasible svd_6 lstsq_6 6 (9 / 2) (1 / 1000) 0 s1).
  - exact svd_6_ok.
  - exact lstsq_6_spec.
  - apply constraint_system_consistent. lia.
  - exact Et.
Defined.

(** X9.  With a learning rate above 0 and at most 1/2, the gradient step
    (zero_grad, forward, backward, step) sends a parameter with positive
    entries to a parameter with positive entries.  A new entry
    [x - lr (ln x + 1)] is at least [- lr ln lr]; this bound tends to 0 as
    the rate tends to 1, where the entry 1 is sent to 0, and the
    hypothesis keeps the rate away from it. *)
Theorem gradient_step_keeps_positive lr self :
  0 < lr <= 1 / 2 ->
  Forall (fun x => 0 < x) (p self) ->
  exists self',
    gradient_step lr self = Ok (tt, self') /\
    Forall (fun x => 0 < x) (p self').
Proof.
  intros Hlr Hpos. rewrite gradient_step_eq by assumption.
  eexists. split; [reflexivity|]. cbn [p set_p].
  apply Forall_closed_form_update; [lra | assumption].
Qed.

Lemma gradient_step_keeps_positive_witness :
  exists self',
    gradient_step (1 / 1000) dice_6_particular = Ok (tt, self') /\
    Forall (fun x => 0 < x) (p self').
Proof.
  apply (gradient_step_keeps_positive (1 / 1000) dice_6_particular).
  - lra.
  - exact v_6_positive.
Defined.

(** X10.  On a parameter with positive entries that sum to 1, [forward]
    returns a value between 0 and the logarithm of the number of
    entries. *)
Theorem forward_entropy_bounds self :
  Forall (fun x => 0 < x) (p self) ->
  Rlist_sum (p self) = 1 ->
  exists entropy,
    forward self = Ok (entropy, self) /\
    0 <= data0 entropy <= ln (INR (length (p self))).
Proof.
  intros Hpos Hs. destruct (forward_eq self Hpos) as (entropy & E & Ed & _).
  exists entropy. split; [exact E|]. rewrite Ed.
  now apply entropy_bounds.
Qed.

Lemma forward_entropy_bounds_witness :
  exists entropy,
    forward dice_6_particular = Ok (entropy, dice_6_particular) /\
    0 <= data0 entropy <= ln (INR (length (p dice_6_particular))).
Proof.
  apply (forward_entropy_bounds dice_6_particular).
  - exact v_6_positive.
  - unfold dice_6_particular, v_6, flatten. simpl. lra.
Defined.

(** X11.  The projector rejects a column whose length is neither
    [num_faces] nor 1: the call raises, at the subtraction [x - v], or at
    the matrix product when [num_faces] is 1. *)
Theorem project_rejects_wrong_length svd lstsq n mean m x :
  svd_shape (constraint_matrix n) (svd (constraint_matrix n)) ->
  lstsq_shape (constraint_matrix n) (constraint_rhs mean)
              (lstsq (constraint_matrix n) (constraint_rhs mean)) ->
  has_shape x m 1 -> m <> n -> m <> 1%nat ->
  exists project,
    _compute_constraint_projector svd lstsq n mean = Ok project /\
    raises (call_projector project x).
Proof.
  intros Hsvd Hls Hx Hn H1. rewrite compute_constraint_projector_eq.
  eexists; split; [reflexivity|].
  apply (call_projector_wrong_length n m); trivial.
  now apply svd_projector_shape.
Qed.

Lemma project_rejects_wrong_length_witness :
  exists project,
    _compute_constraint_projector svd_6 lstsq_6 6 (9 / 2) = Ok project /\
    raises (call_projector project (reshape_col (ones 3))).
Proof.
  apply (project_rejects_wrong_length svd_6 lstsq_6 6 (9 / 2) 3
           (reshape_col (ones 3))).
  - exact (svd_spec_shape _ _ _ _ svd_6_ok).
  - exact has_shape_v_6.
  - apply (has_shape_reshape_col (ones 3)).
  - lia.
  - lia.
Defined.

(** X12.  With a single face the projector is constant: for a target mean
    above -1 every run of at least one pass returns the parameter
    [(1 + mean) / 2], which satisfies the normalisation constraint only
    when the mean is 1. *)
Theorem single_face_run svd lstsq mean lr k :
  svd_shape (constraint_matrix 1) (svd (constraint_matrix 1)) ->
  lstsq_spec (constraint_matrix 1) (constraint_rhs mean)
             (lstsq (constraint_matrix 1) (constraint_rhs mean)) ->
  -1 < mean ->
  exists model,
    train svd lstsq 1 mean lr (S k) = Ok model /\
    p model = [(1 + mean) / 2] /\
    (Rlist_sum (p model) = 1 <-> mean = 1).
Proof.
  intros Hsvd Hls Hm.
  assert (Ev : lstsq (constraint_matrix 1) (constraint_rhs mean) =
               particular_solution_1 mean).
  { apply (lstsq_unique 2 1 (constraint_matrix 1) (constraint_rhs mean));
      trivial.
    - apply has_shape_constraint_matrix.
    - apply has_shape_constraint_rhs.
    - apply particular_solution_1_spec. }
  assert (EP : kernel_projector (snd (svd (constraint_matrix 1)))
                 (length (snd (fst (svd (constraint_matrix 1))))) =
               zeros 1 1).
  { destruct (svd (constraint_matrix 1)) as [[U Sv] VT].
    destruct Hsvd as [HVT HS]. simpl in *.
    apply kernel_projector_zero; trivial. rewrite HS. simpl. lia. }
  pose proof (init_eq svd lstsq 1 mean) as E0. rewrite Ev, EP in E0.
  rewrite (train_eq _ _ _ _ _ _ _ E0).
  edestruct (constant_projector_loop lr k) as (s & Es & Hp);
    [| | | | rewrite Es].
  - unfold well_shaped. cbn. split; [|split]; trivial.
    + apply has_shape_tabulate.
    + repeat split. repeat constructor.
  - reflexivity.
  - cbn. repeat constructor. lra.
  - cbn. repeat constructor. lra.
  - cbn [bind]. exists s. split; [reflexivity|].
    cbn in Hp. split; [exact Hp|]. rewrite Hp. simpl. split; intros; lra.
Qed.

Lemma single_face_run_witness :
  exists model,
    train svd_1 lstsq_1 1 (9 / 2) (1 / 1000) 2000 = Ok model /\
    p model = [(1 + 9 / 2) / 2] /\
    (Rlist_sum (p model) = 1 <-> 9 / 2 = 1).
Proof.
  apply (single_face_run svd_1 lstsq_1 (9 / 2) (1 / 1000) 1999).
  - exact (svd_spec_shape _ _ _ _ svd_1_spec).
  - exact lstsq_1_spec.
  - lra.
Defined.

(** X13.  From a parameter with positive entries that satisfies the
    constraints, one pass of the loop is a step of projected gradient
    descent: [p' = p - lr * P (ln p)], the constant part of the gradient
    [ln p + 1] being annihilated by [P]. *)
Theorem iteration_projected_gradient svd lstsq n mean lr model self :
  svd_spec (constraint_matrix n) (svd (constraint_matrix n)) ->
  lstsq_spec (constraint_matrix n) (constraint_rhs mean)
             (lstsq (constraint_matrix n) (constraint_rhs mean)) ->
  __init__ svd lstsq n mean = Ok model ->
  same_frame model self ->
  Forall (fun x => 0 < x) (p self) ->
  mm (constraint_matrix n) (reshape_col (p self)) = Ok (constraint_rhs mean) ->
  exists self',
    iteration lr self = Ok (tt, self') /\
    length (p self') = n /\
    forall i, (i < n)%nat ->
      nth i (p self') 0 =
      nth i (p self) 0 -
      lr * Rsum n (fun k => entry (proj_P (constraint_projector model)) i k *
                            ln (nth k (p self) 0)).
Proof.
  intros Hsvd Hls E (Fn & _ & Fc & Fl) Hpos Hfeas.
  rewrite init_eq in E. injection E as <-.
  cbn [num_faces constraint_projector p proj_P] in Fn, Fc, Fl |- *.
  apply (iteration_projected_gradient_entries lr n mean _
           (lstsq (constraint_matrix n) (constraint_rhs mean))); trivial.
  - now apply svd_projector_facts.
  - unfold carries. split; [|split]; trivial.
    rewrite Fl. apply repeat_length.
Qed.

Lemma iteration_projected_gradient_witness :
  exists self',
    iteration (1 / 1000) dice_6_particular = Ok (tt, self') /\
    length (p self') = 6%nat /\
    forall i, (i < 6)%nat ->
      nth i (p self') 0 =
      nth i (p dice_6_particular) 0 -
      1 / 1000 *
      Rsum 6 (fun k => entry (proj_P (constraint_projector dice_6)) i k *
                       ln (nth k (p dice_6_particular) 0)).
Proof.
  apply (iteration_projected_gradient svd_6 lstsq_6 6 (9 / 2) (1 / 1000)
           dice_6 dice_6_particular).
  - exact svd_6_ok.
  - exact lstsq_6_spec.
  - exact init_dice_6.
  - exact dice_6_particular_frame.
  - exact v_6_positive.
  - exact dice_6_particular_feasible.
Defined.

(** X14.  The gradient that the gradient step leaves in the model is the
    derivative of the loss: for a parameter with positive entries, entry
    [i] of the stored gradient is the derivative, at [p_i], of the loss
    that [forward] computes as a function of entry [i] of the parameter. *)
Theorem backward_computes_gradient lr self i :
  Forall (fun x => 0 < x) (p self) -> (i < length (p self))%nat ->
  exists self' g,
    gradient_step lr self = Ok (tt, self') /\
    p_grad self' = Some g /\
    derivable_pt_lim (loss_along self i) (nth i (p self) 0) (nth i g 0).
Proof.
  intros Hpos Hi. rewrite gradient_step_eq by assumption.
  eexists. eexists. split; [reflexivity|]. split; [reflexivity|].
  assert (Hx : 0 < nth i (p self) 0).
  { rewrite Forall_forall in Hpos. apply Hpos. now apply nth_In. }
  rewrite (nth_indep (map (fun x => ln x + 1) (p self)) 0
             ((fun x => ln x + 1) 0)) by now rewrite length_map.
  rewrite (map_nth (fun x => ln x + 1)).
  eapply derivable_pt_lim_positive; [| exact Hx |].
  - intros t Ht. now apply loss_along_positive.
  - apply derivable_pt_lim_x_ln_x. exact Hx.
Qed.

Lemma backward_computes_gradient_witness :
  exists self' g,
    gradient_step (1 / 1000) dice_6_particular = Ok (tt, self') /\
    p_grad self' = Some g /\
    derivable_pt_lim (loss_along dice_6_particular 2)
      (nth 2 (p dice_6_particular) 0) (nth 2 g 0).
Proof.
  apply (backward_computes_gradient (1 / 1000) dice_6_particular 2).
  - exact v_6_positive.
  - simpl. lia.
Defined.



(** X16.  For two or more faces, the mean [(n + 1) / 2] of a fair die and
    a learning rate above 0 and at most [1 / n], every run of at least one
    pass returns the uniform distribution, on which [forward] returns the
    logarithm of the number of faces, the largest value it takes on a
    probability vector.  Near the uniform distribution a pass multiplies a
    deviation within the constraints by [1 - n lr]; the bound on the rate
    keeps this factor between 0 and 1, so that a deviation is not
    amplified. *)
Theorem fair_mean_returns_uniform svd lstsq n lr k :
  (2 <= n)%nat ->
  0 < lr -> lr * INR n <= 1 ->
  svd_spec (constraint_matrix n) (svd (constraint_matrix n)) ->
  lstsq_spec (constraint_matrix n) (constraint_rhs ((INR n + 1) / 2))
             (lstsq (constraint_matrix n) (constraint_rhs ((INR n + 1) / 2))) ->
  exists model entropy,
    train svd lstsq n ((INR n + 1) / 2) lr (S k) = Ok model /\
    p model = repeat (/ INR n) n /\
    forward model = Ok (entropy, model) /\
    data0 entropy = ln (INR n).
Proof.
  intros Hn _ _ Hsvd Hls. pose proof (INR_faces_pos n Hn) as HN.
  destruct (train_fair_mean svd lstsq n lr k Hn Hsvd Hls) as (model & E & Hp).
  assert (Hpos : Forall (fun x => 0 < x) (p model)).
  { rewrite Hp. apply Forall_forall. intros x Hx.
    apply repeat_spec in Hx. subst. apply Rinv_0_lt_compat. lra. }
  destruct (forward_eq model Hpos) as (entropy & Ef & Ed & _).
  exists model, entropy. split; [exact E|]. split; [exact Hp|].
  split; [exact Ef|].
  rewrite Ed, Hp, p_log_p_repeat, ln_Rinv by lra. field. lra.
Qed.

Lemma fair_mean_returns_uniform_witness :
  exists model entropy,
    train svd_6 lstsq_6_fair 6 ((INR 6 + 1) / 2) (1 / 1000) 2000 = Ok model /\
    p model = repeat (/ INR 6) 6 /\
    forward model = Ok (entropy, model) /\
    data0 entropy = ln (INR 6).
Proof.
  apply (fair_mean_returns_uniform svd_6 lstsq_6_fair 6 (1 / 1000) 1999).
  - lia.
  - lra.
  - simpl. lra.
  - exact svd_6_ok.
  - apply (particular_solution_spec 6 ((INR 6 + 1) / 2)). lia.
Defined.
